(** * genfft: schedule parser and Go emitter

    A shallow embedding of the two generators of the repository:

    - [Genfft]: the original generator (genfft.go), which parses each
      schedule line by a character scan into an [Expression] tree and
      renders it to a string with [stringHelper];
    - [Participle]: the later generator, whose [Expr] tree is filled in by
      the participle parser and rendered with the jennifer code builder
      by [Gen] (expressions) and [Program_Gen] (the kernel).

    Go panics are modelled by the error monad [result]; Go strings are
    byte strings, here [string]. A [uint] is 64 bits wide and kept as a
    [Z] with its wrap-around written out; the [int] counters (depth,
    operand index, character count) are bounded by the length of a line
    and kept as [nat]. *)

From Stdlib Require Import ZArith Ascii String DecimalString Lia.
From stdpp Require Import base option list strings gmap.
From Equations Require Import Equations.

Open Scope string_scope.

(** ** Run-time panics *)

Inductive panic :=
| IndexOutOfRange   (* index out of range on a slice *)
| SliceBounds       (* slice bounds out of range on a string *)
| NumErrSyntax      (* strconv.ParseUint: invalid syntax, re-raised by panic(err) *)
| NumErrRange.      (* strconv.ParseUint: value out of range, re-raised by panic(err) *)

Inductive result (A : Type) :=
| Ok (a : A)
| Panic (p : panic).
Arguments Ok {A} a.
Arguments Panic {A} p.

#[global] Instance result_ret : MRet result := @Ok.
#[global] Instance result_bind : MBind result := fun A B f r =>
  match r with
  | Ok a => f a
  | Panic p => Panic p
  end.

(** [l[i]] on a slice. *)
Definition index {A} (l : list A) (i : nat) : result A :=
  match l !! i with
  | Some a => Ok a
  | None => Panic IndexOutOfRange
  end.

(** Left-to-right loop over a slice with an accumulator, in the monad. *)
Fixpoint foldM {A B} (f : B -> A -> result B) (acc : B) (l : list A) : result B :=
  match l with
  | [] => Ok acc
  | a :: l' => acc' ← f acc a; foldM f acc' l'
  end.

(** ** Byte strings *)

(** [s[n:]] for [n <= len(s)]; the callers check the bound. *)
Fixpoint skip (n : nat) (s : string) : string :=
  match n, s with
  | O, _ => s
  | S n', String _ s' => skip n' s'
  | S _, EmptyString => EmptyString
  end.

(** [s[lo:hi]], which panics unless [lo <= hi <= len(s)]. *)
Definition slice (s : string) (lo hi : nat) : result string :=
  if (lo <=? hi)%nat && (hi <=? String.length s)%nat
  then Ok (substring lo (hi - lo) s)
  else Panic SliceBounds.

(** strings.HasSuffix *)
Definition HasSuffix (s suffix : string) : bool :=
  (String.length suffix <=? String.length s)%nat
  && (substring (String.length s - String.length suffix) (String.length suffix) s =? suffix).

(** strings.HasPrefix *)
Definition HasPrefix (s pre : string) : bool := String.prefix pre s.

(** strings.IndexByte *)
Fixpoint IndexByte (s : string) (c : ascii) : option nat :=
  match s with
  | EmptyString => None
  | String a s' => if Ascii.eqb a c then Some O else S <$> IndexByte s' c
  end.

Definition isDigit (c : ascii) : bool :=
  (48 <=? nat_of_ascii c)%nat && (nat_of_ascii c <=? 57)%nat.

Fixpoint allDigits (s : string) : bool :=
  match s with
  | EmptyString => true
  | String c s' => isDigit c && allDigits s'
  end.

(** Value of a string of decimal digits, most significant first. *)
Fixpoint digitsValue (acc : Z) (s : string) : Z :=
  match s with
  | EmptyString => acc
  | String c s' => digitsValue (10 * acc + (Z.of_nat (nat_of_ascii c) - 48)) s'
  end.

Definition uint_modulus : Z := 2 ^ 64.

(** strconv.ParseUint(s, 10, 64): no sign, no underscore, at least one
    digit, value below 2^64. *)
Definition ParseUint (s : string) : result Z :=
  if (s =? "") || negb (allDigits s) then Panic NumErrSyntax
  else if (digitsValue 0 s <? uint_modulus)%Z then Ok (digitsValue 0 s)
  else Panic NumErrRange.

(** The %d verb on an unsigned value. *)
Definition decimal (n : Z) : string := NilZero.string_of_uint (N.to_uint (Z.to_N n)).

Definition newline : string := String (ascii_of_nat 10) EmptyString.

(** ** genfft.go *)

Module Genfft.

(** An expression is an operator with operands or a literal. [OpIdx] is
    the parser's cursor: the index of the operand being filled. *)
#[local] Unset Elimination Schemes.
Inductive Expression := mkExpression {
  Op : string;
  Lit : string;
  OpIdx : nat;
  Expr : list Expression
}.
#[local] Set Elimination Schemes.

(** new(Expression), and the zero value of [var expr Expression] *)
Definition newExpression : Expression := mkExpression "" "" 0 [].

Definition IsUnary (expr : Expression) : bool :=
  (length (Expr expr) =? 1)%nat.

(** *** Rendering *)

(** The loop over the operands of a node that is not unary. [render] is
    the recursive call at [depth + 1]; [op] is the node's operator. *)
Fixpoint operandsLoop (render : Expression -> result string) (op : string)
    (idx : nat) (operands : list Expression) : result string :=
  match operands with
  | [] => Ok ""
  | operand :: rest =>
      r ← (if negb (idx =? 0)%nat then
             if (op =? "+") && IsUnary operand && (Op operand =? "-") then
               match operand with
               | mkExpression _ _ _ (inner :: _) =>
                   s ← render inner; Ok ("-" ++ s)
               | _ => Panic IndexOutOfRange
               end
             else s ← render operand; Ok (op ++ s)
           else render operand);
      rs ← operandsLoop render op (S idx) rest;
      Ok (r ++ rs)
  end.

(** The receiver is a copy, so the rewrite of "=" into ":=" is local to
    the call: [op'] below. The deferred closing parenthesis is appended
    when the body has been rendered. *)
Fixpoint stringHelper (depth : nat) (expr : Expression) {struct expr} : result string :=
  match expr with
  | mkExpression op lit _ operands =>
      if op =? "" then Ok lit else
      op' ← (if op =? "=" then
               match operands with
               | [] => Panic IndexOutOfRange
               | target :: _ => Ok (if HasPrefix (Lit target) "T" then ":=" else op)
               end
             else Ok op);
      body ← (match operands with
              | [operand] => r ← stringHelper (S depth) operand; Ok (op' ++ r)
              | _ => operandsLoop (stringHelper (S depth)) op' 0 operands
              end);
      Ok (if (1 <? depth)%nat then "(" ++ body ++ ")" else body)
  end.

Definition Expression_String (expr : Expression) : result string :=
  stringHelper 0 expr.

(** *** Parsing *)

(** expr.Expr = append(expr.Expr, new(Expression)) *)
Definition appendOperand (expr : Expression) : Expression :=
  mkExpression (Op expr) (Lit expr) (OpIdx expr) (Expr expr ++ [newExpression])%list.

(** Write back the operand under the cursor, which the code updates
    through its pointer. *)
Definition setOperand (expr child : Expression) : Expression :=
  mkExpression (Op expr) (Lit expr) (OpIdx expr) (<[OpIdx expr := child]> (Expr expr)).

Definition setOp (expr : Expression) (op : string) : Expression :=
  mkExpression op (Lit expr) (OpIdx expr) (Expr expr).

Definition appendLit (expr : Expression) (c : ascii) : Expression :=
  mkExpression (Op expr) (Lit expr ++ String c "") (OpIdx expr) (Expr expr).

Definition nextOperand (expr : Expression) : Expression :=
  mkExpression (Op expr) (Lit expr) (S (OpIdx expr)) (Expr expr ++ [newExpression])%list.

Inductive charClass := Open | Colon | Operator | Space | Close | Other.

Definition classify (c : ascii) : charClass :=
  if Ascii.eqb c "(" then Open
  else if Ascii.eqb c ":" then Colon
  else if Ascii.eqb c "=" || Ascii.eqb c "+" || Ascii.eqb c "-" || Ascii.eqb c "*" then Operator
  else if Ascii.eqb c " " then Space
  else if Ascii.eqb c ")" then Close
  else Other.

(** The scanning loop of [parse]: [line] is what is left of the line from
    position [idx] on. The result is the updated receiver and the returned
    count of consumed characters. *)
Equations? parseLoop (line : string) (idx : nat) (expr : Expression)
  : result (Expression * nat) by wf (String.length line) lt :=
parseLoop EmptyString idx expr := Ok (expr, idx);
parseLoop (String c rest) idx expr with classify c := {
  | Open with index (Expr expr) (OpIdx expr) := {
      | Panic p => Panic p
      | Ok child with parseLoop rest 0 (appendOperand child) := {
          | Panic p => Panic p
          | Ok (child', n) =>
              parseLoop (skip n rest) (idx + n + 1) (setOperand expr child') } }
  | Colon => parseLoop rest (idx + 1) expr
  | Operator => parseLoop (skip 1 rest) (idx + 2) (setOp expr (String c ""))
  | Space => parseLoop rest (idx + 1) (nextOperand expr)
  | Close => Ok (expr, idx + 1)
  | Other with index (Expr expr) (OpIdx expr) := {
      | Panic p => Panic p
      | Ok child => parseLoop rest (idx + 1) (setOperand expr (appendLit child c)) } }.
Proof.
  all: try (simpl; lia).
  - clear. revert rest. induction n as [|n IH]; intros [|a rest]; simpl; try lia.
    specialize (IH rest). lia.
  - destruct rest; simpl; lia.
Defined.

(** parse: append the first operand, then scan. *)
Definition parse (expr : Expression) (line : string) : result (Expression * nat) :=
  parseLoop line 0 (appendOperand expr).

(** Parse skips the two characters of the opener and drops the count. *)
Definition Parse (expr : Expression) (line : string) : result Expression :=
  if (2 <=? String.length line)%nat
  then r ← parse expr (skip 2 line); Ok (fst r)
  else Panic SliceBounds.

(** *** Transform length *)

(** Max over its (two) arguments, starting from zero. *)
Definition Max (a b : Z) : Z :=
  let max := 0%Z in
  let max := if (max <? a)%Z then a else max in
  if (max <? b)%Z then b else max.

(** A literal ending in "]" returns its index, read from position 3 up to
    the closing bracket; any other node returns the maximum over its
    operands. [uint] values are kept as [Z] below [uint_modulus]. *)
Fixpoint transformLength (expr : Expression) : result Z :=
  match expr with
  | mkExpression _ lit _ operands =>
      if HasSuffix lit "]" then
        digits ← slice lit 3 (String.length lit - 1);
        ParseUint digits
      else
        foldM (fun max child => n ← transformLength child; Ok (Max max n)) 0%Z operands
  end.

Definition TransformLength (expr : Expression) : result Z :=
  n ← transformLength expr; Ok ((n + 1) mod uint_modulus)%Z.

(** Max(a ...uint) on any number of arguments; [Max] above is the call
    with two, which is how main and transformLength use it. *)
Definition Max_variadic (a : list Z) : Z :=
  fold_left (fun max i => if (max <? i)%Z then i else max) a 0%Z.

(** *** Constant lines *)

(** Longest prefix of [s] whose characters satisfy [p], and the rest. *)
Fixpoint span (p : ascii -> bool) (s : string) : string * string :=
  match s with
  | EmptyString => (EmptyString, EmptyString)
  | String c s' =>
      if p c then let '(run, rest) := span p s' in (String c run, rest)
      else (EmptyString, s)
  end.

Definition stripPrefix (pre s : string) : option string :=
  if String.prefix pre s then Some (skip (String.length pre) s) else None.

Definition isNameChar (c : ascii) : bool := isDigit c || Ascii.eqb c "_".
Definition isValueChar (c : ascii) : bool := isDigit c || Ascii.eqb c ".".

(** The regular expression
    [(DV?K)\((K[NP][\d_]+), ([+-][\d\.]+)\);]
    matched at the start of [s]; the result is groups 2 and 3. Each
    repetition is followed by a character outside its class, so the
    longest run is the only candidate. *)
Definition constReAt (s : string) : option (list string) :=
  s ← stripPrefix "D" s;
  s ← Some (default s (stripPrefix "V" s));
  s ← stripPrefix "K(K" s;
  match s with
  | String np s =>
      if Ascii.eqb np "N" || Ascii.eqb np "P" then
        let '(digits, s) := span isNameChar s in
        if digits =? "" then None else
        s ← stripPrefix ", " s;
        match s with
        | String sign s =>
            if Ascii.eqb sign "+" || Ascii.eqb sign "-" then
              let '(value, s) := span isValueChar s in
              if value =? "" then None else
              _ ← stripPrefix ");" s;
              Some [String "K" (String np digits); String sign value]
            else None
        | EmptyString => None
        end
      else None
  | EmptyString => None
  end.

(** constRe.FindStringSubmatch(line)[2:]: the leftmost match. *)
Fixpoint constRe (line : string) : option (list string) :=
  match constReAt line with
  | Some groups => Some groups
  | None =>
      match line with
      | EmptyString => None
      | String _ rest => constRe rest
      end
  end.

(** *** main *)

(** The scanning loop of main: constant lines go to [constants], every
    other line is parsed into [expressions]. *)
Definition scanLine (acc : list Expression * list (list string)) (line : string)
  : result (list Expression * list (list string)) :=
  let '(expressions, constants) := acc in
  match constRe line with
  | Some groups => Ok (expressions, (constants ++ [groups])%list)
  | None =>
      expr ← Parse newExpression line;
      Ok ((expressions ++ [expr])%list, constants)
  end.

Definition constantLine (constant : list string) : result string :=
  name ← index constant 0;
  value ← index constant 1;
  Ok (name ++ " = " ++ value ++ newline).

(** The loop that computes N. *)
Definition kernelSize (expressions : list Expression) : result Z :=
  foldM (fun max expr => n ← TransformLength expr; Ok (Max max n)) 0%Z expressions.

(** The lines of the constant block after "I = 1i". *)
Definition constantLines (constants : list (list string)) : result string :=
  foldM (fun source constant => l ← constantLine constant; Ok (source ++ l)) "" constants.

(** The two signature lines. *)
Definition complexSignature : string := "func DFT(xi, xo []complex128) {" ++ newline.
Definition realSignature : string := "func DFT(ri, ii, ro, io []float64) {" ++ newline.

(** The hardcoded comparison that picks the signature. *)
Definition signature (expressions : list Expression) : result string :=
  first ← index expressions 0;
  operand ← index (Expr first) 1;
  Ok (if Lit operand =? "xi[0]" then complexSignature else realSignature).

Definition body (expressions : list Expression) : result string :=
  foldM (fun source expr => s ← Expression_String expr; Ok (source ++ s ++ newline))
        "" expressions.

Definition scan (lines : list string) : result (list Expression * list (list string)) :=
  foldM scanLine ([], []) lines.

(** The source text main hands to the Go formatter, from the lines of
    the input file; the pieces are appended to [source] in this order.
    Nothing is written to the output before the text is complete. The
    call of the formatter, the fatal log when it refuses the text and the
    write of the formatted source come after and are not part of it. *)
Definition main (lines : list string) : result string :=
  '(expressions, constants) ← scan lines;
  max ← kernelSize expressions;
  consts ← constantLines constants;
  sig ← signature expressions;
  stmts ← body expressions;
  Ok ("package dft" ++ newline
      ++ "const N = " ++ decimal max ++ newline ++ newline
      ++ "const (" ++ newline
      ++ "I = 1i" ++ newline
      ++ consts
      ++ ")" ++ newline
      ++ sig
      ++ stmts
      ++ "}").

(** *** Vocabulary of the properties *)

Definition leaf (lit : string) : Expression := mkExpression "" lit 0 [].
Definition node (op : string) (operands : list Expression) : Expression :=
  mkExpression op "" (length operands - 1) operands.

(** The characters the scanner never puts into a literal. *)
Definition isDelimiter (c : ascii) : bool :=
  match classify c with
  | Other => false
  | _ => true
  end.

Fixpoint allChars (p : ascii -> bool) (s : string) : bool :=
  match s with
  | EmptyString => true
  | String c s' => p c && allChars p s'
  end.



(** The literals of a tree, left to right. A literal is an expression
    without operator. *)
Fixpoint leaves (expr : Expression) : list string :=
  match expr with
  | mkExpression op lit _ operands =>
      if op =? "" then [lit] else flat_map leaves operands
  end.

(** Trees as the scanner builds them from a line of the grammar: literals
    are not empty and free of delimiters, operators consist of
    delimiters. *)
Fixpoint wellFormed (expr : Expression) : bool :=
  match expr with
  | mkExpression op lit _ operands =>
      if op =? "" then negb (lit =? "") && allChars (fun c => negb (isDelimiter c)) lit
      else allChars isDelimiter op && forallb wellFormed operands
  end.

(** The spec's words, to compare [transformLength] with: the index of a
    leaf identifier of the form <name>[<digits>], the digits read as an
    unsigned integer, for a base name of any length. *)
Definition leafIndex (lit : string) : option Z :=
  match IndexByte lit "[" with
  | Some i =>
      let digits := substring (S i) (String.length lit - i - 2) lit in
      if HasSuffix lit "]" && (0 <? i)%nat && negb (digits =? "") && allDigits digits
      then Some (digitsValue 0 digits)
      else None
  | None => None
  end.

(** The spec's words: the maximum index over the leaf identifiers of a
    tree, zero when there is none. *)
Fixpoint maxIndex (expr : Expression) : Z :=
  match expr with
  | mkExpression op lit _ operands =>
      if op =? "" then default 0%Z (leafIndex lit)
      else foldr Z.max 0%Z (map maxIndex operands)
  end.

Definition programMaxIndex (expressions : list Expression) : Z :=
  foldr Z.max 0%Z (map maxIndex expressions).

(** Trees whose indexed identifiers all have a base name of two
    characters and an index below the largest [uint]; literals have no
    operands and operators no literal text. *)
Fixpoint twoLetterIndices (expr : Expression) : bool :=
  match expr with
  | mkExpression op lit _ operands =>
      if op =? "" then
        (length operands =? 0)%nat
        && (if HasSuffix lit "]"
            then bool_decide (IndexByte lit "[" = Some 2)
                 && match leafIndex lit with
                    | Some n => (n + 1 <? uint_modulus)%Z
                    | None => false
                    end
            else true)
      else negb (HasSuffix lit "]") && forallb twoLetterIndices operands
  end.

(** A node from which [transformLength] reaches a literal that ends in
    "]" but has no readable index at position 3. *)
Fixpoint hasBadIndex (expr : Expression) : bool :=
  match expr with
  | mkExpression _ lit _ operands =>
      if HasSuffix lit "]" then
        match slice lit 3 (String.length lit - 1) with
        | Ok digits => match ParseUint digits with Ok _ => false | Panic _ => true end
        | Panic _ => true
        end
      else existsb hasBadIndex operands
  end.

(** The cursor of every node is within its operands (or both are zero). *)
Fixpoint cursorOk (expr : Expression) : bool :=
  match expr with
  | mkExpression _ _ opIdx operands =>
      (opIdx <=? length operands)%nat && forallb cursorOk operands
  end.

(** The operators of the schedule, one character each. *)
Definition isOperator (op : string) : bool :=
  (op =? "=") || (op =? "+") || (op =? "-") || (op =? "*").

(** The text of a tree in the notation of the schedule: a literal as it
    is, an operation as its operator and its operands, separated by one
    space, in parentheses. *)
Fixpoint scheduleText (expr : Expression) : string :=
  match expr with
  | mkExpression op lit _ operands =>
      if op =? "" then lit
      else "(" ++ op ++ " " ++ String.concat " " (map scheduleText operands) ++ ")"
  end.

(** A statement line: the operator of the root follows the colon that
    Parse skips together with the opening parenthesis. *)
Definition statementText (expr : Expression) : string :=
  "(:" ++ Op expr ++ " " ++ String.concat " " (map scheduleText (Expr expr)) ++ ")".

(** The trees of the schedule notation, as the scanner leaves them: a
    literal has no delimiter, no operands and the cursor at zero; an
    operation has one of the operators, no literal text, at least one
    operand and the cursor on the last one. *)
Fixpoint scheduleTree (expr : Expression) : bool :=
  match expr with
  | mkExpression op lit opIdx operands =>
      if op =? "" then
        allChars (fun c => negb (isDelimiter c)) lit
        && (opIdx =? 0)%nat && (length operands =? 0)%nat
      else
        isOperator op && (lit =? "") && (S opIdx =? length operands)%nat
        && forallb scheduleTree operands
  end.

(** The trees String renders: no operation that is reached has the
    operator "=" and no operand. A literal is rendered without a look at
    its operands. *)
Fixpoint renderable (expr : Expression) : bool :=
  match expr with
  | mkExpression op _ _ operands =>
      (op =? "")
      || (negb ((op =? "=") && (length operands =? 0)%nat) && forallb renderable operands)
  end.

(** Every node that has an operator has an operand. *)
Fixpoint hasOperands (expr : Expression) : bool :=
  match expr with
  | mkExpression op _ _ operands =>
      ((op =? "") || negb (length operands =? 0)%nat) && forallb hasOperands operands
  end.

(** A line that the constant expression matches. *)
Definition isConstantLine (line : string) : bool :=
  match constRe line with
  | Some _ => true
  | None => false
  end.

(** The statement lines of an input, and its constant lines, each in the
    order of the input. *)
Definition statementLines (lines : list string) : list string :=
  List.filter (fun line => negb (isConstantLine line)) lines.
Definition constantLinesOf (lines : list string) : list string :=
  List.filter isConstantLine lines.

(** The groups of the constant lines of an input, in the order of the
    input. *)
Definition groupsOf (lines : list string) : list (list string) :=
  flat_map (fun line => match constRe line with Some groups => [groups] | None => [] end) lines.

(** The name of a constant: K, then N or P, then digits and underscores,
    one at least. *)
Definition isConstantName (name : string) : bool :=
  match name with
  | String k (String np digits) =>
      Ascii.eqb k "K" && (Ascii.eqb np "N" || Ascii.eqb np "P")
      && negb (digits =? "") && allChars isNameChar digits
  | _ => false
  end.

(** The value of a constant: a sign, then digits and points, one at
    least. *)
Definition isConstantValue (value : string) : bool :=
  match value with
  | String sign number =>
      (Ascii.eqb sign "+" || Ascii.eqb sign "-")
      && negb (number =? "") && allChars isValueChar number
  | EmptyString => false
  end.

(** The definition of a constant in the C text of the schedule, with the
    macro DK or DVK. *)
Definition constantDefinition (vector : bool) (name value : string) : string :=
  (if vector then "DVK(" else "DK(") ++ name ++ ", " ++ value ++ ");".

(** Lines of text, each closed by a newline. *)
Definition linesText (lines : list string) : string :=
  foldr (fun line text => line ++ newline ++ text) "" lines.

(** A constant of the schedule: the macro is DVK or DK, then the name
    and the value. *)
Definition definitionText (constant : bool * string * string) : string :=
  let '(vector, name, value) := constant in constantDefinition vector name value.
Definition isDefinition (constant : bool * string * string) : bool :=
  let '(_, name, value) := constant in isConstantName name && isConstantValue value.
Definition goConstant (constant : bool * string * string) : string :=
  let '(_, name, value) := constant in name ++ " = " ++ value.

(** A run of closing parentheses. *)
Fixpoint closings (n : nat) : string :=
  match n with
  | O => ""
  | S n' => ")" ++ closings n'
  end.

(** The first character of a text is [c]; the last character is [c]. *)
Definition startsWith (c : ascii) (s : string) : bool :=
  match s with
  | String d _ => Ascii.eqb d c
  | EmptyString => false
  end.
Fixpoint endsWith (c : ascii) (s : string) : bool :=
  match s with
  | EmptyString => false
  | String d s' =>
      match s' with
      | EmptyString => Ascii.eqb d c
      | String _ _ => endsWith c s'
      end
  end.

(** The text holds a plus immediately followed by a minus. *)
Fixpoint plusMinus (s : string) : bool :=
  match s with
  | EmptyString => false
  | String c s' => (Ascii.eqb c "+" && startsWith "-" s') || plusMinus s'
  end.

(** *** The value of an expression *)

(** The numbers of a kernel and their operations: float64 or complex128
    in the generated code, any type here. *)
Record arithmetic := mkArithmetic {
  number : Type;
  add : number -> number -> number;
  sub : number -> number -> number;
  mul : number -> number -> number;
  neg : number -> number
}.

Definition isLetter (c : ascii) : bool :=
  ((65 <=? nat_of_ascii c) && (nat_of_ascii c <=? 90)
   || (97 <=? nat_of_ascii c) && (nat_of_ascii c <=? 122))%nat
  || Ascii.eqb c "_".

(** Digits up to a closing bracket that ends the text. *)
Fixpoint closesIndex (s : string) : bool :=
  match s with
  | EmptyString => false
  | String c s' => if Ascii.eqb c "]" then s' =? "" else isDigit c && closesIndex s'
  end.

(** The operands of the Go expressions of a kernel: an identifier, or an
    identifier indexed by a number, as T12, KP500000000 and xi[3]. *)
Definition isGoOperand (text : string) : bool :=
  match text with
  | EmptyString => false
  | String c rest =>
      isLetter c
      && match span (fun c => isLetter c || isDigit c) rest with
         | (_, EmptyString) => true
         | (_, String open (String digit index)) =>
             Ascii.eqb open "[" && isDigit digit && closesIndex index
         | _ => false
         end
  end.

(** The trees that have a value: a literal that is a Go operand; a minus
    with one operand; a sum, a difference or a product with two operands
    or more. *)
Fixpoint evaluable (expr : Expression) : bool :=
  match expr with
  | mkExpression op lit _ operands =>
      if op =? "" then isGoOperand lit
      else
        match operands with
        | [operand] => (op =? "-") && evaluable operand
        | _ =>
            ((op =? "+") || (op =? "-") || (op =? "*"))
            && (2 <=? length operands)%nat && forallb evaluable operands
        end
  end.

(** The value of a tree, [env] giving the values of the literals: the
    operands of a sum, a difference or a product are combined from left
    to right. *)
Fixpoint treeValue (A : arithmetic) (env : string -> number A) (expr : Expression)
    : number A :=
  match expr with
  | mkExpression op lit _ operands =>
      if op =? "" then env lit else
      match map (treeValue A env) operands with
      | [] => env lit
      | [v] => neg A v
      | v :: vs =>
          if op =? "+" then fold_left (add A) vs v
          else if op =? "-" then fold_left (sub A) vs v
          else fold_left (mul A) vs v
      end
  end.

(** The tokens of a Go expression in the rendered text: an operand is a
    run of characters that are no delimiters, to be checked by
    [isGoOperand] when it is read. *)
Inductive goToken :=
| GOperand (text : string)
| GAdd | GSub | GMul | GOpen | GClose
| GOther (c : ascii).

Definition symbol (c : ascii) : goToken :=
  if Ascii.eqb c "+" then GAdd
  else if Ascii.eqb c "-" then GSub
  else if Ascii.eqb c "*" then GMul
  else if Ascii.eqb c "(" then GOpen
  else if Ascii.eqb c ")" then GClose
  else GOther c.

Fixpoint tokenize (s : string) : list goToken :=
  match s with
  | EmptyString => []
  | String c s' =>
      if isDelimiter c then symbol c :: tokenize s'
      else match tokenize s' with
           | GOperand text :: tokens => GOperand (String c text) :: tokens
           | tokens => GOperand (String c EmptyString) :: tokens
           end
  end.

(** The state of the evaluation inside one pair of parentheses: the sum
    so far with the operator that follows it, the product so far, and the
    number of minus signs before the operand to come. *)
Inductive pending (A : arithmetic) :=
| NoSum
| Adding (sum : number A)
| Subtracting (sum : number A).
Arguments NoSum {A}.
Arguments Adding {A} sum.
Arguments Subtracting {A} sum.

Record level (A : arithmetic) := mkLevel {
  sum : pending A;
  product : option (number A);
  minuses : nat
}.
Arguments mkLevel {A} sum product minuses.
Arguments sum {A} l.
Arguments product {A} l.
Arguments minuses {A} l.

Definition fresh {A : arithmetic} : level A := mkLevel NoSum None 0.

(** The level once an operand has been read. *)
Definition afterOperand {A : arithmetic} (l : level A) : level A := mkLevel (sum l) None 0.

(** The term an operand completes: the minus signs bind first, then the
    product. *)
Definition operand {A : arithmetic} (v : number A) (l : level A) : number A :=
  let v := Nat.iter (minuses l) (neg A) v in
  match product l with
  | Some p => mul A p v
  | None => v
  end.

(** The value of a level whose last term is [term]. *)
Definition total {A : arithmetic} (l : level A) (term : number A) : number A :=
  match sum l with
  | NoSum => term
  | Adding s => add A s term
  | Subtracting s => sub A s term
  end.

(** Tokens that begin with a minus sign. *)
Definition signed (tokens : list goToken) : bool :=
  match tokens with
  | GSub :: _ => true
  | _ => false
  end.

(** The reading of a Go expression made of operands, the binary
    operators +, - and *, the unary minus and parentheses: the unary
    minus binds before the product, the product before sum and
    difference, and operators of the same rank group from the left.
    [term] is the value of the term just read, if any; [outer] are the
    levels of the enclosing parentheses. Everything else has no value:
    a text that is no operand, a unary plus, a call, and two minus signs
    in a row, which Go reads as the decrement operator. *)
Fixpoint evaluate {A : arithmetic} (env : string -> number A) (tokens : list goToken)
    (l : level A) (term : option (number A)) (outer : list (level A)) : option (number A) :=
  match tokens, term with
  | [], Some t =>
      match outer with
      | [] => Some (total l t)
      | _ :: _ => None
      end
  | GOperand text :: rest, None =>
      if isGoOperand text
      then evaluate env rest (afterOperand l) (Some (operand (env text) l)) outer
      else None
  | GSub :: rest, None =>
      if signed rest then None
      else evaluate env rest (mkLevel (sum l) (product l) (S (minuses l))) None outer
  | GOpen :: rest, None => evaluate env rest fresh None (l :: outer)
  | GMul :: rest, Some t => evaluate env rest (mkLevel (sum l) (Some t) 0) None outer
  | GAdd :: rest, Some t => evaluate env rest (mkLevel (Adding (total l t)) None 0) None outer
  | GSub :: rest, Some t =>
      if signed rest then None
      else evaluate env rest (mkLevel (Subtracting (total l t)) None 0) None outer
  | GClose :: rest, Some t =>
      match outer with
      | l' :: outer' =>
          evaluate env rest (afterOperand l') (Some (operand (total l t) l')) outer'
      | [] => None
      end
  | _, _ => None
  end.

(** The value of a text read as a Go expression. *)
Definition goValue (A : arithmetic) (env : string -> number A) (s : string)
    : option (number A) :=
  evaluate env (tokenize s) fresh None [].

(** Integer arithmetic. *)
Definition integers : arithmetic := mkArithmetic Z Z.add Z.sub Z.mul Z.opp.

(** *** Vocabulary of the proofs *)

(** What the opening parenthesis and the deferred closing one add. *)
Definition parenthesize (s : string) : string := "(" ++ s ++ ")".

(** The rendering is the same at every depth from 2 on. *)
Definition sameFromTwo (expr : Expression) : Prop :=
  forall d d', 2 <= d -> 2 <= d' -> stringHelper d expr = stringHelper d' expr.

(** A text that is empty or begins with a delimiter. *)
Definition delimited (s : string) : Prop :=
  s = "" \/ exists c s', s = String c s' /\ isDelimiter c = true.


(** [transformLength] returns the maximum index, which leaves room for
    the increment. *)
Definition indexRead (expr : Expression) : Prop :=
  twoLetterIndices expr = true ->
  transformLength expr = Ok (maxIndex expr)
  /\ (0 <= maxIndex expr)%Z /\ (maxIndex expr + 1 < uint_modulus)%Z.

(** Inside the loop the cursor points at an operand. *)
Definition scanning (expr : Expression) : Prop :=
  OpIdx expr < length (Expr expr) /\ Forall (fun e => cursorOk e = true) (Expr expr).

(** The groups of the constant lines are name and value. *)
Definition pairs (constants : list (list string)) : Prop :=
  Forall (fun groups => exists name value, groups = [name; value]) constants.

(** What the scanner does on the text of one operand, the operand under
    the cursor being fresh: the operand is filled in and the text is
    consumed. *)
Definition scanned (e : Expression) : Prop :=
  forall rest idx expr,
    Expr expr !! OpIdx expr = Some newExpression ->
    parseLoop (scheduleText e ++ rest) idx expr =
    parseLoop rest (idx + String.length (scheduleText e)) (setOperand expr e).

(** The outcome [r] of rendering [expr] is a text when the tree is
    renderable and the index panic when it is not. *)
Definition rendered (r : result string) (expr : Expression) : Prop :=
  match r with
  | Ok _ => renderable expr = true
  | Panic p => p = IndexOutOfRange /\ renderable expr = false
  end.

(** Inside the loop the cursor points at an operand, and below the
    receiver every operator has an operand. *)
Definition building (expr : Expression) : Prop :=
  scanning expr /\ Forall (fun e => hasOperands e = true) (Expr expr).

(** The statement lines parsed one after the other, appended to [acc]. *)
Definition parseAll (acc : list Expression) (lines : list string) : result (list Expression) :=
  foldM (fun acc line => expr ← Parse newExpression line; Ok (acc ++ [expr])%list) acc lines.

(** A value of type uint. *)
Definition isUint (n : Z) : Prop := (0 <= n < uint_modulus)%Z.

(** Every opening parenthesis of a text is followed by an operator or by
    a colon. *)
Fixpoint opensOperators (s : string) : bool :=
  match s with
  | EmptyString => true
  | String c s' =>
      (if Ascii.eqb c "(" then
         match s' with
         | String d _ => match classify d with Operator | Colon => true | _ => false end
         | EmptyString => false
         end
       else true)
      && opensOperators s'
  end.

(** The groups of the definition of a constant. *)
Definition definitionGroups (constant : bool * string * string) : list string :=
  let '(_, name, value) := constant in [name; value].

(** The statements of a schedule: trees of the notation whose root is an
    operation. *)
Definition isStatement (t : Expression) : Prop := scheduleTree t = true /\ Op t <> "".

(** The scanner on a text and on the text followed by a closing
    parenthesis: the same tree; the same count when the scan returned at
    a closing parenthesis of the text, and otherwise counts that reach
    the end of either text. *)
Definition closes (line : string) (expr : Expression) : Prop :=
  exists e k k',
    parseLoop line 0 expr = Ok (e, k)
    /\ parseLoop (line ++ ")") 0 expr = Ok (e, k')
    /\ scanning e
    /\ ((k' = k /\ k <= String.length line)
        \/ (String.length line <= k /\ String.length line < k')).

(** A text that can follow any text that does not end in a plus: it has
    no plus followed by a minus, is not empty and does not end in a
    plus. *)
Definition plain (r : string) : Prop :=
  plusMinus r = false /\ r <> "" /\ endsWith "+" r = false.

(** The operators String writes. *)
Definition isEmitted (op : string) : Prop :=
  op = "=" \/ op = ":=" \/ op = "+" \/ op = "-" \/ op = "*".

(** Below the root a rendering is plain, and it begins with a minus at
    depth 1 only. *)
Definition plainBelow (e : Expression) : Prop :=
  scheduleTree e = true -> wellFormed e = true ->
  forall d r, 1 <= d -> stringHelper d e = Ok r ->
  plain r /\ (startsWith "-" r = true -> d = 1).

(** A text that does not begin with a minus sign and is read as one
    operand of value [v], whatever the state and whatever delimited text
    follows. *)
Definition readsOperand (A : arithmetic) (env : string -> number A) (r : string)
    (v : number A) : Prop :=
  forall rest,
    delimited rest ->
    signed (tokenize (r ++ rest)) = false
    /\ forall l outer,
         evaluate env (tokenize (r ++ rest)) l None outer
         = evaluate env (tokenize rest) (afterOperand l) (Some (operand v l)) outer.

(** A text that is read, inside fresh parentheses, as an expression of
    value [v]. *)
Definition readsExpression (A : arithmetic) (env : string -> number A) (r : string)
    (v : number A) : Prop :=
  exists l t,
    total l t = v
    /\ forall rest outer,
         delimited rest ->
         evaluate env (tokenize (r ++ rest)) fresh None outer
         = evaluate env (tokenize rest) l (Some t) outer.

(** Below the root the rendering of a tree is read as an expression of
    the value of the tree, and from depth 2 on as one operand. *)
Definition valueRead (A : arithmetic) (env : string -> number A) (e : Expression) : Prop :=
  evaluable e = true ->
  forall d r, 1 <= d -> stringHelper d e = Ok r ->
  (2 <= d -> readsOperand A env r (treeValue A env e))
  /\ readsExpression A env r (treeValue A env e).

End Genfft.

(** ** The jennifer code builder

    The library is not part of the repository. A statement is kept as
    the sequence of items the builder calls add to it, which is what the
    library stores; [render] writes the items out the way the library
    does before it hands the file to the Go formatter. *)

Module jen.

#[local] Unset Elimination Schemes.
Inductive Code :=
| Id (name : string)           (* jen.Id(name) *)
| Op (op : string)             (* jen.Op(op) *)
| Parens (item : Code)         (* s.Parens(item) *)
| Stmt (items : list Code).    (* a *Statement added as one item *)
#[local] Set Elimination Schemes.

(** A statement with nothing to print is skipped without a separator. *)
Fixpoint isNull (c : Code) : bool :=
  match c with
  | Stmt items => forallb isNull items
  | _ => false
  end.

Fixpoint render (c : Code) : string :=
  match c with
  | Id name => name
  | Op op => op
  | Parens item => "(" ++ render item ++ ")"
  | Stmt items =>
      (fix renderItems (first : bool) (items : list Code) : string :=
         match items with
         | [] => ""
         | item :: rest =>
             if isNull item then renderItems first rest
             else (if first then "" else " ") ++ render item ++ renderItems false rest
         end) true items
  end.

(** The printed tokens, in order. *)
Inductive token := TId (name : string) | TOp (op : string) | TOpen | TClose.

Fixpoint tokens (c : Code) : list token :=
  match c with
  | Id name => [TId name]
  | Op op => [TOp op]
  | Parens item => TOpen :: tokens item ++ [TClose]
  | Stmt items => flat_map tokens items
  end.

End jen.

(** ** The participle-based generator *)

Module Participle.

(** Constant is a named value. *)
Record Constant := mkConstant { Name : string; Value : string }.

(** Expr is an Ident or an Op and at least one sub-expression. *)
#[local] Unset Elimination Schemes.
Inductive Expr := mkExpr {
  Ident : string;
  Op : string;
  Sub : list Expr
}.
#[local] Set Elimination Schemes.

(** Program is a list of constants and expressions. *)
Record Program := mkProgram {
  Constants : list Constant;
  Statements : list Expr
}.

(** Inputs walks an expression tree and returns the names of the
    identifiers with indices. *)
Fixpoint Inputs (e : Expr) : list string :=
  match e with
  | mkExpr ident _ sub =>
      (match IndexByte ident "[" with
       | Some idx => [substring 0 idx ident]
       | None => []
       end ++ flat_map Inputs sub)%list
  end.

(** The loop over e.Sub[1:], appending to the left side [lt]. *)
Fixpoint subLoop (gen : Expr -> result (list jen.Code)) (op : string)
    (lt : list jen.Code) (subs : list Expr) : result (list jen.Code) :=
  match subs with
  | [] => Ok lt
  | sub :: rest =>
      c ← gen sub;
      if (op =? "*") && (1 <? length (Sub sub))%nat then
        subLoop gen op (lt ++ [jen.Stmt [jen.Op op]; jen.Parens (jen.Stmt c)])%list rest
      else if (op =? "+") && (Op sub =? "-") then
        subLoop gen op (lt ++ [jen.Stmt c])%list rest
      else
        subLoop gen op (lt ++ [jen.Stmt [jen.Op op]; jen.Stmt c])%list rest
  end.

(** Gen renders a go-representation of an expression: the items of the
    returned statement. The receiver is a copy, so the rewrite of ":="
    into "=" is local: [op']. *)
Fixpoint Gen (e : Expr) : result (list jen.Code) :=
  match e with
  | mkExpr ident op sub =>
      if negb (ident =? "") then Ok [jen.Id ident] else
      match sub with
      | [only] => c ← Gen only; Ok [jen.Op op; jen.Stmt c]
      | [] => Panic IndexOutOfRange
      | first :: rest =>
          let op' := if (op =? ":=") && HasSuffix (Ident first) "]" then "=" else op in
          lt ← Gen first;
          subLoop Gen op' lt rest
      end
  end.

Definition Constant_Gen (c : Constant) : list jen.Code :=
  [jen.Id (Name c); jen.Op "="; jen.Id (Value c)].

Inductive ArgType := Float64 | Complex128.

Inductive BlockItem :=
| ConstDefs (defs : list (list jen.Code))   (* const ( ... ) *)
| Line                                       (* a blank line *)
| Statement (items : list jen.Code).

(** What Program.Gen puts into the file: one function. *)
Record File := mkFile {
  FilePath : string;
  FuncName : string;
  Args : list string;
  ArgsType : ArgType;
  Block : list BlockItem
}.

(** The set of function arguments: the inputs of every statement. *)
Definition argSetOf (statements : list Expr) : gset string :=
  fold_left (fun argSet s => fold_left (fun argSet input => {[input]} ∪ argSet) (Inputs s) argSet)
            statements ∅.

Definition Program_Gen (p : Program) (path name : string) : result File :=
  let argSet := argSetOf (Statements p) in
  let '(args, argType, constants) :=
    if bool_decide ("ri" ∈ argSet)
    then (["ri"; "ii"; "ro"; "io"], Float64, Constants p)
    else (["xi"; "xo"], Complex128, mkConstant "I" "1i" :: Constants p) in
  stmts ← foldM (fun acc expr => c ← Gen expr; Ok (acc ++ [Statement c])%list)
            [] (Statements p);
  Ok (mkFile path name args argType
        ((if (0 <? length constants)%nat
          then [ConstDefs (map Constant_Gen constants); Line]
          else []) ++ stmts)%list).

(** *** The constants of main *)

(** The class \s of the regular expressions: tab, newline, form feed,
    carriage return and space. *)
Definition isSpace (c : ascii) : bool :=
  let n := nat_of_ascii c in
  (n =? 9)%nat || (n =? 10)%nat || (n =? 12)%nat || (n =? 13)%nat || (n =? 32)%nat.

(** The class of the dot: every character but the newline. *)
Definition isDot (c : ascii) : bool := negb (nat_of_ascii c =? 10)%nat.

(** The text before the first comma followed by a space, and the text
    after that space. *)
Fixpoint cutComma (s : string) : option (string * string) :=
  match s with
  | EmptyString => None
  | String c s' =>
      if Ascii.eqb c ","
         && match s' with String d _ => Ascii.eqb d " " | EmptyString => false end
      then Some (EmptyString, skip 1 s')
      else '(before, after) ← cutComma s'; Some (String c before, after)
  end.

(** The regular expression
    [^\s*DV?K\((.*?), (.*?)\);$]
    on a line; the result is groups 1 and 2. The first group is lazy and
    is followed by a comma and a space, so it ends before the first comma
    followed by a space; the second group runs up to the parenthesis and
    the semicolon that end the line. *)
Definition constRe (line : string) : option (string * string) :=
  let '(_, s) := Genfft.span isSpace line in
  s ← Genfft.stripPrefix "D" s;
  s ← Some (default s (Genfft.stripPrefix "V" s));
  s ← Genfft.stripPrefix "K(" s;
  '(name, rest) ← cutComma s;
  let value := substring 0 (String.length rest - 2) rest in
  if HasSuffix rest ");" && Genfft.allChars isDot name && Genfft.allChars isDot value
  then Some (name, value)
  else None.

(** *** Vocabulary of the properties *)

Definition ident (name : string) : Expr := mkExpr name "" [].
Definition op (o : string) (sub : list Expr) : Expr := mkExpr "" o sub.

(** The identifiers of a tree, left to right. *)
Fixpoint leaves (e : Expr) : list string :=
  match e with
  | mkExpr ident _ sub =>
      ((if ident =? "" then [] else [ident]) ++ flat_map leaves sub)%list
  end.

(** Trees of the grammar: an identifier has no sub-expressions. *)
Fixpoint wellFormed (e : Expr) : bool :=
  match e with
  | mkExpr ident _ sub =>
      if ident =? "" then forallb wellFormed sub else (length sub =? 0)%nat
  end.


(** The number of opening parentheses a statement prints. *)
Definition openParens (items : list jen.Code) : nat :=
  length (List.filter (fun t => match t with jen.TOpen => true | _ => false end)
                      (jen.tokens (jen.Stmt items))).

(** The number of operands a product prints in parentheses: those after
    the first that have more than one sub-expression. *)
Fixpoint starGroups (e : Expr) : nat :=
  match e with
  | mkExpr ident o sub =>
      if negb (ident =? "") then 0 else
      match sub with
      | [] => 0
      | [only] => starGroups only
      | first :: rest =>
          starGroups first
          + list_sum (map (fun s => (if (o =? "*") && (1 <? length (Sub s))%nat then 1 else 0)
                                    + starGroups s) rest)
      end
  end.

(** Some identifier of the tree begins with [pre]. *)
Fixpoint mentions (pre : string) (e : Expr) : bool :=
  match e with
  | mkExpr ident _ sub => String.prefix pre ident || existsb (mentions pre) sub
  end.

(** The spec's words, to compare emitted texts with: the value of a
    schedule expression over the integers, [env] giving the values of the
    identifiers: unary minus, n-ary sum and product, difference from left
    to right. *)
Fixpoint eval (env : string -> Z) (e : Expr) : Z :=
  match e with
  | mkExpr ident o sub =>
      if negb (ident =? "") then env ident else
      match map (eval env) sub with
      | [] => 0%Z
      | [v] => if o =? "-" then (- v)%Z else v
      | v :: vs =>
          if o =? "+" then fold_left Z.add vs v
          else if o =? "-" then fold_left Z.sub vs v
          else if o =? "*" then fold_left Z.mul vs v
          else 0%Z
      end
  end.

(** *** Vocabulary of the proofs *)

(** What the loop adds for one sub-expression. *)
Definition subItems (o : string) (sub : Expr) (c : list jen.Code) : list jen.Code :=
  if (o =? "*") && (1 <? length (Sub sub))%nat then [jen.Stmt [jen.Op o]; jen.Parens (jen.Stmt c)]
  else if (o =? "+") && (Op sub =? "-") then [jen.Stmt c]
  else [jen.Stmt [jen.Op o]; jen.Stmt c].

Definition statementItems (statements : list Expr) : result (list BlockItem) :=
  foldM (fun acc expr => c ← Gen expr; Ok ((acc ++ [Statement c])%list)) [] statements.

(** The trees Gen renders: every operation that is reached has a
    sub-expression. An expression with an identifier is rendered without
    a look at its sub-expressions. *)
Fixpoint generable (e : Expr) : bool :=
  match e with
  | mkExpr ident _ sub =>
      negb (ident =? "") || (negb (length sub =? 0)%nat && forallb generable sub)
  end.

(** The statements of a block, in order. *)
Definition blockStatements (block : list BlockItem) : list (list jen.Code) :=
  flat_map (fun item => match item with Statement items => [items] | _ => [] end) block.

(** The outcome [r] of rendering [e] is a statement when the tree is
    generable and the index panic when it is not. *)
Definition generated (r : result (list jen.Code)) (e : Expr) : Prop :=
  match r with
  | Ok _ => generable e = true
  | Panic p => p = IndexOutOfRange /\ generable e = false
  end.

(** [line] is white space, then the macro DK or DVK applied to [name]
    and [value], then nothing; no comma followed by a space in the name,
    no newline in the name or in the value. *)
Definition definesConstant (line name value : string) : Prop :=
  exists space vector,
    Genfft.allChars isSpace space = true
    /\ line = space ++ Genfft.constantDefinition vector name value
    /\ cutComma name = None
    /\ Genfft.allChars isDot name = true
    /\ Genfft.allChars isDot value = true.

(** Items whose last printed token is an identifier or a closing
    parenthesis. *)
Definition endsInOperand (items : list jen.Code) : Prop :=
  exists before t,
    jen.tokens (jen.Stmt items) = (before ++ [t])%list
    /\ (t = jen.TClose \/ exists name, t = jen.TId name).

End Participle.

Module P := Participle.
Import Genfft.

(** Schedule lines and trees used as examples. A product is written with
    its star apart from the parenthesis. *)
Definition unaryLine : string := "(:= T1 (" ++ "* a (- b)))".
Definition productLine : string := "(:= T1 (" ++ "* xi[0] (+ xi[1] xi[2])))".
Definition productStatement : P.Expr :=
  P.op ":=" [P.ident "T1";
             P.op "*" [P.ident "xi[0]"; P.op "+" [P.ident "xi[1]"; P.ident "xi[2]"]]].
Definition foldLine : string := "(:= T2 (+ xi[0] (- xi[1])))".
Definition foldStatement : P.Expr :=
  P.op ":=" [P.ident "T2"; P.op "+" [P.ident "xi[0]"; P.op "-" [P.ident "xi[1]"]]].
Definition foldedSum : P.Expr :=
  P.op "+" [P.ident "a"; P.op "-" [P.op "+" [P.ident "b"; P.ident "c"]]].
Definition sumOfFolded : P.Expr :=
  P.op "+" [P.op "+" [P.ident "a"; P.op "-" [P.ident "b"]]; P.ident "c"].
Definition onlyC (name : string) : Z := if name =? "c" then 1%Z else 0%Z.

(** * Properties *)

#[local] Arguments String.append : simpl nomatch.

(** ** The error monad *)

Lemma bind_Ok {A B} (r : result A) (f : A -> result B) (b : B) :
  (r ≫= f) = Ok b -> exists a, r = Ok a /\ f a = Ok b.
Proof. destruct r as [a|p]; simpl; [eauto | discriminate]. Qed.

Tactic Notation "inv_bind" hyp(H) "as" ident(a) ident(Ha) :=
  apply bind_Ok in H; destruct H as (a & Ha & H).

Lemma append_assoc (a b c : string) : (a ++ b) ++ c = a ++ b ++ c.
Proof. induction a as [|x a IH]; simpl; [reflexivity | now f_equal]. Qed.

Lemma append_nil_r (a : string) : a ++ "" = a.
Proof. induction a as [|x a IH]; simpl; [reflexivity | now f_equal]. Qed.

(** ** genfft.go: rendering *)


Lemma Expression_nested_ind (P : Expression -> Prop) :
  (forall op lit i operands, Forall P operands -> P (mkExpression op lit i operands)) ->
  forall expr, P expr.
Proof.
  intros step. fix IH 1. intros [op lit i operands]. apply step.
  induction operands as [|e l IHl]; constructor; [apply IH | apply IHl].
Qed.

(** The loop only looks at [render] on the operands and on the operand of
    each unary operand. *)
Lemma operandsLoop_ext (f g : Expression -> result string) op idx operands :
  Forall (fun e => f e = g e /\ Forall (fun inner => f inner = g inner) (Expr e)) operands ->
  operandsLoop f op idx operands = operandsLoop g op idx operands.
Proof.
  intros H. revert idx. induction H as [|e l [He Hin] _ IH]; intros idx; simpl; [reflexivity|].
  rewrite IH, He. destruct e as [eop elit ei [|inner rest]]; simpl in *; [reflexivity|].
  inversion Hin as [|? ? Hinner _]; subst. now rewrite Hinner.
Qed.

(** After the first operand the index plays no role. *)
Lemma operandsLoop_idx f op i j operands :
  operandsLoop f op (S i) operands = operandsLoop f op (S j) operands.
Proof.
  revert i j. induction operands as [|e l IH]; intros i j; simpl; [reflexivity|].
  now rewrite (IH (S i) (S j)).
Qed.

Lemma operandsLoop_app f op i l1 l2 :
  operandsLoop f op (S i) (l1 ++ l2)%list =
  (a ← operandsLoop f op (S i) l1; b ← operandsLoop f op (S i) l2; Ok (a ++ b)).
Proof.
  revert i. induction l1 as [|e l1 IH]; intros i; simpl.
  - destruct (operandsLoop f op (S i) l2); reflexivity.
  - rewrite (IH (S i)), (operandsLoop_idx f op (S i) i l1), (operandsLoop_idx f op (S i) i l2).
    match goal with |- (?r ≫= _) = _ => destruct r as [r0|p] end; simpl; [|reflexivity].
    destruct (operandsLoop f op (S i) l1) as [a|p]; simpl; [|reflexivity].
    destruct (operandsLoop f op (S i) l2) as [b|p]; simpl; [|reflexivity].
    now rewrite append_assoc.
Qed.

(** From depth 2 on, the rendering does not depend on the depth. *)
Lemma stringHelper_depth expr : sameFromTwo expr /\ Forall sameFromTwo (Expr expr).
Proof.
  induction expr as [op lit i operands IH] using Expression_nested_ind.
  assert (Hall : Forall sameFromTwo operands).
  { eapply Forall_impl; [exact IH | now intros e [He _]]. }
  split; [|exact Hall].
  intros d d' Hd Hd'. simpl.
  destruct (op =? "") eqn:Hop; [reflexivity|].
  assert (Hloop : forall o, operandsLoop (stringHelper (S d)) o 0 operands
                          = operandsLoop (stringHelper (S d')) o 0 operands).
  { intros o. apply operandsLoop_ext. eapply Forall_impl; [exact IH|].
    intros e [He Hin]. split; [apply He; lia|].
    eapply Forall_impl; [exact Hin|]. intros inner Hi. apply Hi; lia. }
  assert (Hd1 : (1 <? d)%nat = true) by (apply Nat.ltb_lt; lia).
  assert (Hd2 : (1 <? d')%nat = true) by (apply Nat.ltb_lt; lia).
  rewrite Hd1, Hd2.
  match goal with |- (?r ≫= _) = _ => destruct r as [op'|p] end; simpl; [|reflexivity].
  destruct operands as [|e [|e' l]].
  - reflexivity.
  - inversion Hall as [|? ? He _]; subst. now rewrite (He (S d) (S d')) by lia.
  - now rewrite Hloop.
Qed.

(** Below the direct operands of the root every operation is wrapped:
    its rendering at depth 2 or more is its rendering as a direct operand
    of the root, in parentheses. *)
Lemma stringHelper_wrapped expr d :
  Op expr <> "" -> 2 <= d ->
  stringHelper d expr = (r ← stringHelper 1 expr; Ok (parenthesize r)).
Proof.
  intros Hop Hd. destruct expr as [op lit i operands]. simpl in *.
  apply String.eqb_neq in Hop. rewrite Hop.
  assert (Hd1 : (1 <? d)%nat = true) by (apply Nat.ltb_lt; lia). rewrite Hd1.
  pose proof (stringHelper_depth (mkExpression op lit i operands)) as [_ Hall]. simpl in Hall.
  assert (Hloop : forall o, operandsLoop (stringHelper (S d)) o 0 operands
                          = operandsLoop (stringHelper 2) o 0 operands).
  { intros o. apply operandsLoop_ext.
    rewrite Forall_forall in Hall. apply Forall_forall. intros e He. split.
    - apply (Hall e He); lia.
    - pose proof (stringHelper_depth e) as [_ Hin].
      eapply Forall_impl; [exact Hin|]. intros inner Hi. apply Hi; lia. }
  match goal with |- (?r ≫= _) = _ => destruct r as [op'|p] end; simpl; [|reflexivity].
  destruct operands as [|e [|e' l]].
  - reflexivity.
  - inversion Hall as [|? ? He _]; subst. rewrite (He (S d) 2) by lia.
    destruct (stringHelper 2 e); reflexivity.
  - rewrite Hloop. destruct (operandsLoop (stringHelper 2) op' 0 (e :: e' :: l)); reflexivity.
Qed.

(** A statement: the target, the assignment operator, then the value
    rendered as a direct operand of the root; no parenthesis is added. *)
Lemma statement_rendering lit i target value :
  Op target = "" ->
  Expression_String (mkExpression "=" lit i [target; value]) =
  (r ← stringHelper 1 value;
   Ok (Lit target ++ (if HasPrefix (Lit target) "T" then ":=" else "=") ++ r)).
Proof.
  intros Ht. unfold Expression_String. destruct target as [top tlit ti tl]. simpl in *. subst top.
  simpl. destruct (HasPrefix tlit "T"); simpl;
    destruct (stringHelper 1 value) as [r|p]; simpl; try reflexivity;
    now rewrite append_nil_r.
Qed.

(** The operands after the first one, around one of them. *)
Lemma operandsLoop_split f op first l1 e l2 s :
  operandsLoop f op 0 (first :: l1 ++ e :: l2)%list = Ok s ->
  exists r0 pre piece post,
    f first = Ok r0 /\
    operandsLoop f op 1 l1 = Ok pre /\
    operandsLoop f op 1 [e] = Ok piece /\
    operandsLoop f op 1 l2 = Ok post /\
    s = r0 ++ pre ++ piece ++ post.
Proof.
  intros H. cbn [operandsLoop] in H. simpl negb in H. cbv iota in H.
  inv_bind H as r0 Hr0. inv_bind H as rs Hrs. injection H as <-.
  rewrite operandsLoop_app in Hrs. inv_bind Hrs as pre Hpre.
  change (e :: l2) with ([e] ++ l2)%list in Hrs.
  rewrite operandsLoop_app in Hrs. inv_bind Hrs as rest Hrest.
  injection Hrs as <-. inv_bind Hrest as piece Hpiece. inv_bind Hrest as post Hpost.
  injection Hrest as <-.
  exists r0, pre, piece, post. repeat split; auto.
Qed.

Ltac string_assoc :=
  unfold parenthesize; simpl; rewrite ?append_assoc, ?append_nil_r; simpl;
  rewrite ?append_assoc; try reflexivity.

(** The rendering of a node that has an operator, at least two operands
    and is no assignment. *)
Lemma stringHelper_nary d op lit i e1 e2 l :
  op <> "" -> op <> "=" ->
  stringHelper d (mkExpression op lit i (e1 :: e2 :: l)) =
  (body ← operandsLoop (stringHelper (S d)) op 0 (e1 :: e2 :: l);
   Ok (if (1 <? d)%nat then parenthesize body else body)).
Proof.
  intros H1 H2. apply String.eqb_neq in H1, H2.
  cbn [stringHelper]. rewrite H1, H2. reflexivity.
Qed.

(** genfft.go, multiplication: an operand after the first that is an
    operation is printed in parentheses, for a product below the root. *)
Lemma stringHelper_product d lit i first l1 sub l2 s :
  1 <= d -> Op sub <> "" ->
  stringHelper d (mkExpression "*" lit i (first :: l1 ++ sub :: l2)%list) = Ok s ->
  exists pre post r,
    stringHelper 1 sub = Ok r /\ s = pre ++ "*" ++ parenthesize r ++ post.
Proof.
  intros Hd Hsub H.
  assert (Hn : exists e2 l, (l1 ++ sub :: l2)%list = e2 :: l)
    by (destruct l1; simpl; eauto).
  destruct Hn as (e2 & l & Hl). rewrite Hl in H.
  rewrite stringHelper_nary in H by discriminate. rewrite <- Hl in H.
  inv_bind H as body Hbody. injection H as <-.
  apply operandsLoop_split in Hbody
    as (r0 & pre & piece & post & H0 & Hpre & Hpiece & Hpost & ->).
  cbn in Hpiece. rewrite stringHelper_wrapped in Hpiece by (auto; lia).
  inv_bind Hpiece as p1 Hp1. inv_bind Hp1 as p2 Hp2. inv_bind Hp2 as r Hr.
  injection Hp2 as <-. injection Hp1 as <-. injection Hpiece as <-.
  destruct (1 <? d)%nat.
  - exists ("(" ++ r0 ++ pre), (post ++ ")"), r. split; [assumption | string_assoc].
  - exists (r0 ++ pre), post, r. split; [assumption | string_assoc].
Qed.

(** genfft.go, multiplication at the root: the operand is printed as it
    is rendered at depth 1, between the operator and the text of the
    operands after it; no parenthesis is added. *)
Lemma stringHelper_product_root lit i first l1 sub l2 s :
  stringHelper 0 (mkExpression "*" lit i (first :: l1 ++ sub :: l2)%list) = Ok s ->
  exists r0 pre r post,
    stringHelper 1 first = Ok r0 /\
    operandsLoop (stringHelper 1) "*" 1 l1 = Ok pre /\
    stringHelper 1 sub = Ok r /\
    operandsLoop (stringHelper 1) "*" 1 l2 = Ok post /\
    s = r0 ++ pre ++ "*" ++ r ++ post.
Proof.
  intros H.
  assert (Hn : exists e2 l, (l1 ++ sub :: l2)%list = e2 :: l)
    by (destruct l1; simpl; eauto).
  destruct Hn as (e2 & l & Hl). rewrite Hl in H.
  rewrite stringHelper_nary in H by discriminate. rewrite <- Hl in H.
  inv_bind H as body Hbody. injection H as <-.
  apply operandsLoop_split in Hbody
    as (r0 & pre & piece & post & H0 & Hpre & Hpiece & Hpost & ->).
  cbn in Hpiece. inv_bind Hpiece as p1 Hp1. inv_bind Hp1 as r Hr.
  injection Hp1 as <-. injection Hpiece as <-.
  exists r0, pre, r, post. repeat split; try assumption. string_assoc.
Qed.

(** genfft.go, folding: under "+", an operand after the first that is a
    unary "-" contributes "-" and the rendering of its operand, between
    the renderings of the operands before and after it. *)
Lemma stringHelper_fold d lit i first l1 mlit mi inner l2 s :
  stringHelper d (mkExpression "+" lit i
                    (first :: l1 ++ mkExpression "-" mlit mi [inner] :: l2)%list) = Ok s ->
  exists r0 pre r post,
    stringHelper (S d) first = Ok r0 /\
    operandsLoop (stringHelper (S d)) "+" 1 l1 = Ok pre /\
    stringHelper (S d) inner = Ok r /\
    operandsLoop (stringHelper (S d)) "+" 1 l2 = Ok post /\
    s = (if (1 <? d)%nat then parenthesize (r0 ++ pre ++ "-" ++ r ++ post)
         else r0 ++ pre ++ "-" ++ r ++ post).
Proof.
  intros H.
  assert (Hn : exists e2 l, (l1 ++ mkExpression "-" mlit mi [inner] :: l2)%list = e2 :: l)
    by (destruct l1; simpl; eauto).
  destruct Hn as (e2 & l & Hl). rewrite Hl in H.
  rewrite stringHelper_nary in H by discriminate. rewrite <- Hl in H.
  inv_bind H as body Hbody. injection H as <-.
  apply operandsLoop_split in Hbody
    as (r0 & pre & piece & post & H0 & Hpre & Hpiece & Hpost & ->).
  cbn in Hpiece. inv_bind Hpiece as p1 Hp1. inv_bind Hp1 as r Hr.
  injection Hp1 as <-. injection Hpiece as <-.
  exists r0, pre, r, post. repeat split; auto.
  destruct (1 <? d)%nat; string_assoc.
Qed.

(** ** genfft.go: the order of the literals *)









Lemma wellFormed_operands op lit i operands :
  op <> "" -> wellFormed (mkExpression op lit i operands) = true ->
  allChars isDelimiter op = true /\ Forall (fun e => wellFormed e = true) operands.
Proof.
  intros Hop H. apply String.eqb_neq in Hop. simpl in H. rewrite Hop in H.
  apply andb_prop in H as [H1 H2]. split; [assumption|].
  apply Forall_forall. intros e He. rewrite forallb_forall in H2. apply H2.
  now apply list_elem_of_In.
Qed.


(** ** genfft.go: the transform length *)

Lemma Max_max a b : (0 <= a)%Z -> (0 <= b)%Z -> Max a b = Z.max a b.
Proof.
  intros Ha Hb. unfold Max.
  destruct (0 <? a)%Z eqn:H0; [|apply Z.ltb_ge in H0; assert (a = 0%Z) by lia; subst];
    destruct (_ <? b)%Z eqn:H1; try apply Z.ltb_lt in H1; try apply Z.ltb_ge in H1; lia.
Qed.

Lemma digitsValue_nonneg s acc :
  allDigits s = true -> (0 <= acc)%Z -> (0 <= digitsValue acc s)%Z.
Proof.
  revert acc. induction s as [|c s IH]; intros acc Hd Hacc; simpl in *; [assumption|].
  apply andb_prop in Hd as [Hc Hs]. apply IH; [assumption|].
  unfold isDigit in Hc. apply andb_prop in Hc as [Hlo _]. apply Nat.leb_le in Hlo. lia.
Qed.

Lemma substring_zero n s : substring n 0 s = "".
Proof. revert n. induction s as [|c s IH]; intros [|n]; simpl; auto. Qed.

Lemma foldr_max_nonneg (l : list Z) : (0 <= foldr Z.max 0 l)%Z.
Proof. induction l; simpl; lia. Qed.

(** A literal with a two-character base name: the index is read. *)
Lemma transformLength_leaf op lit i operands n :
  HasSuffix lit "]" = true -> IndexByte lit "[" = Some 2 -> leafIndex lit = Some n ->
  (n < uint_modulus)%Z ->
  transformLength (mkExpression op lit i operands) = Ok n /\ (0 <= n)%Z.
Proof.
  intros Hs Hi Hn Hlt. simpl. rewrite Hs. unfold leafIndex in Hn. rewrite Hi, Hs in Hn.
  simpl in Hn.
  destruct (negb _) eqn:Hne in Hn; [|discriminate]. apply negb_true_iff in Hne.
  destruct (allDigits _) eqn:Hd in Hn; [|discriminate]. injection Hn as Hn.
  assert (Hlen : 4 < String.length lit \/ String.length lit = 4 \/ String.length lit < 4) by lia.
  assert (Hlen' : 4 <= String.length lit - 0 \/ String.length lit - 2 - 2 = 0) by lia.
  destruct Hlen' as [Hlen'|Hz];
    [|rewrite Hz, substring_zero in Hne; discriminate].
  unfold slice.
  assert (H1 : (3 <=? String.length lit - 1)%nat = true) by (apply Nat.leb_le; lia).
  assert (H2 : (String.length lit - 1 <=? String.length lit)%nat = true)
    by (apply Nat.leb_le; lia).
  rewrite H1, H2. simpl.
  replace (String.length lit - 1 - 3) with (String.length lit - 2 - 2) by lia.
  unfold ParseUint. rewrite Hne, Hd. simpl. rewrite Hn.
  apply Z.ltb_lt in Hlt. rewrite Hlt. split; [reflexivity|].
  rewrite <- Hn. apply digitsValue_nonneg; [assumption | lia].
Qed.

Lemma leafIndex_suffix lit : HasSuffix lit "]" = false -> leafIndex lit = None.
Proof. intros H. unfold leafIndex. rewrite H. now destruct (IndexByte lit "["). Qed.

Lemma foldM_Max {A} (f : A -> result Z) (g : A -> Z) (l : list A) (acc : Z) :
  (0 <= acc)%Z ->
  Forall (fun a => f a = Ok (g a) /\ (0 <= g a)%Z) l ->
  foldM (fun max a => n ← f a; Ok (Max max n)) acc l
  = Ok (Z.max acc (foldr Z.max 0%Z (map g l))).
Proof.
  intros Hacc H. revert acc Hacc.
  induction H as [|a l [Ha Hg] _ IH]; intros acc Hacc; simpl.
  - f_equal. lia.
  - rewrite Ha. simpl. rewrite Max_max by assumption. rewrite IH by lia. f_equal. lia.
Qed.

Lemma transformLength_maxIndex expr : indexRead expr.
Proof.
  induction expr as [op lit i operands IH] using Expression_nested_ind.
  intros Hok. simpl in Hok. cbn [maxIndex].
  destruct (op =? "") eqn:Hop.
  - apply andb_prop in Hok as [Hlen Hlit]. apply Nat.eqb_eq in Hlen.
    destruct operands; [|discriminate].
    destruct (HasSuffix lit "]") eqn:Hs.
    + apply andb_prop in Hlit as [Hi Hn]. apply bool_decide_eq_true in Hi.
      destruct (leafIndex lit) as [n|] eqn:Hl; [|discriminate]. apply Z.ltb_lt in Hn.
      destruct (transformLength_leaf op lit i [] n Hs Hi Hl) as [Ht Hn0]; [lia|].
      simpl. auto.
    + rewrite (leafIndex_suffix lit Hs). simpl. rewrite Hs. simpl.
      repeat split. lia.
  - apply andb_prop in Hok as [Hs Hall]. apply negb_true_iff in Hs.
    rewrite forallb_forall in Hall. rewrite Forall_forall in IH.
    assert (Hch : Forall (fun e => transformLength e = Ok (maxIndex e)
                                   /\ (0 <= maxIndex e)%Z) operands).
    { apply Forall_forall. intros e He.
      destruct (IH e He) as (H1 & H2 & _); [apply Hall; now apply list_elem_of_In | auto]. }
    simpl. rewrite Hs.
    rewrite (foldM_Max transformLength maxIndex operands 0) by (auto; lia).
    pose proof (foldr_max_nonneg (map maxIndex operands)) as Hnn.
    repeat split; [f_equal; lia | assumption |].
    clear Hch Hnn. induction operands as [|e l IHl]; simpl; [reflexivity|].
    assert (He : (maxIndex e + 1 < uint_modulus)%Z).
    { destruct (IH e) as (_ & _ & H); [now left | apply Hall; now left | assumption]. }
    assert (Hl : (foldr Z.max 0 (map maxIndex l) + 1 < uint_modulus)%Z).
    { apply IHl; intros x Hx; [apply IH | apply Hall]; now right. }
    lia.
Qed.

Lemma TransformLength_maxIndex expr :
  twoLetterIndices expr = true ->
  TransformLength expr = Ok (maxIndex expr + 1)%Z /\ (0 <= maxIndex expr + 1)%Z.
Proof.
  intros H. destruct (transformLength_maxIndex expr H) as (Ht & H0 & H1).
  unfold TransformLength. rewrite Ht. simpl. rewrite Z.mod_small by lia. split; [reflexivity | lia].
Qed.

Lemma foldr_max_succ (l : list Z) :
  l <> [] -> Forall (fun n => (0 <= n)%Z) l ->
  foldr Z.max 0%Z (map (fun n => n + 1)%Z l) = (foldr Z.max 0 l + 1)%Z.
Proof.
  intros Hne H. induction H as [|n l Hn Hl IH]; [congruence|]. simpl.
  destruct l as [|m l]; [simpl; lia|]. rewrite IH by discriminate. lia.
Qed.

Lemma kernelSize_maxIndex expressions :
  expressions <> [] ->
  Forall (fun e => twoLetterIndices e = true) expressions ->
  kernelSize expressions = Ok (programMaxIndex expressions + 1)%Z.
Proof.
  intros Hne Hall. unfold kernelSize, programMaxIndex.
  rewrite (foldM_Max TransformLength (fun e => maxIndex e + 1)%Z expressions 0); [|lia|].
  - f_equal. rewrite <- (map_map maxIndex (fun n => n + 1)%Z).
    rewrite foldr_max_succ.
    + pose proof (foldr_max_nonneg (map maxIndex expressions)). lia.
    + destruct expressions; [congruence | discriminate].
    + apply Forall_map. eapply Forall_impl; [exact Hall|]. intros e He.
      now destruct (transformLength_maxIndex e He) as (_ & H & _).
  - eapply Forall_impl; [exact Hall|]. intros e He. now apply TransformLength_maxIndex.
Qed.

(** ** genfft.go: parsing *)

(** One step of the scanning loop. *)
Lemma parseLoop_cons c rest idx expr :
  parseLoop (String c rest) idx expr =
  match classify c with
  | Open =>
      child ← index (Expr expr) (OpIdx expr);
      r ← parseLoop rest 0 (appendOperand child);
      parseLoop (skip (snd r) rest) (idx + snd r + 1) (setOperand expr (fst r))
  | Colon => parseLoop rest (idx + 1) expr
  | Operator => parseLoop (skip 1 rest) (idx + 2) (setOp expr (String c ""))
  | Space => parseLoop rest (idx + 1) (nextOperand expr)
  | Close => Ok (expr, idx + 1)
  | Other =>
      child ← index (Expr expr) (OpIdx expr);
      parseLoop rest (idx + 1) (setOperand expr (appendLit child c))
  end.
Proof.
  rewrite parseLoop_equation_2. destruct (classify c); cbn; try reflexivity.
  destruct (index (Expr expr) (OpIdx expr)) as [child|p]; cbn; [|reflexivity].
  destruct (parseLoop rest 0 (appendOperand child)) as [[child' n]|p]; reflexivity.
Qed.


Lemma scanning_cursorOk expr : scanning expr -> cursorOk expr = true.
Proof.
  intros [Hi Hall]. destruct expr as [op lit i operands]. simpl in *.
  apply andb_true_intro. split; [apply Nat.leb_le; lia|].
  apply forallb_forall. intros e He. rewrite Forall_forall in Hall. apply Hall.
  now apply list_elem_of_In.
Qed.

Lemma cursorOk_operands expr :
  cursorOk expr = true ->
  OpIdx expr <= length (Expr expr) /\ Forall (fun e => cursorOk e = true) (Expr expr).
Proof.
  destruct expr as [op lit i operands]. simpl. intros [Hi Hall]%andb_prop.
  apply Nat.leb_le in Hi. split; [assumption|].
  apply Forall_forall. intros e He. rewrite forallb_forall in Hall. apply Hall.
  now apply list_elem_of_In.
Qed.

Lemma scanning_appendOperand expr : cursorOk expr = true -> scanning (appendOperand expr).
Proof.
  intros [Hi Hall]%cursorOk_operands. unfold scanning, appendOperand. simpl.
  rewrite length_app. simpl. split; [lia|].
  apply Forall_app. split; [assumption | now repeat constructor].
Qed.

Lemma scanning_setOperand expr child :
  scanning expr -> cursorOk child = true -> scanning (setOperand expr child).
Proof.
  intros [Hi Hall] Hc. unfold scanning, setOperand. simpl.
  rewrite length_insert. split; [assumption|]. now apply Forall_insert.
Qed.

Lemma scanning_index expr :
  scanning expr -> exists child, index (Expr expr) (OpIdx expr) = Ok child /\ cursorOk child = true.
Proof.
  intros [Hi Hall]. unfold index.
  destruct (lookup_lt_is_Some_2 (Expr expr) (OpIdx expr) Hi) as [child Hch].
  rewrite Hch. exists child. split; [reflexivity|].
  rewrite Forall_forall in Hall. apply Hall. eapply list_elem_of_lookup_2; eauto.
Qed.

Lemma skip_length n s : String.length (skip n s) <= String.length s.
Proof.
  revert s. induction n as [|n IH]; intros [|c s]; simpl; try lia.
  specialize (IH s). lia.
Qed.

(** The scanner never fails: whatever the characters, it returns a tree
    and a count. *)
Lemma parseLoop_total line :
  forall idx expr, scanning expr ->
  exists expr' n, parseLoop line idx expr = Ok (expr', n) /\ scanning expr'.
Proof.
  remember (String.length line) as len eqn:Hlen.
  revert line Hlen. induction len as [len IH] using lt_wf_ind.
  intros [|c rest] Hlen idx expr Hs.
  - rewrite parseLoop_equation_1. eauto.
  - simpl in Hlen. rewrite parseLoop_cons.
    assert (IHrest : forall line', String.length line' <= String.length rest ->
              forall idx expr, scanning expr ->
              exists expr' n, parseLoop line' idx expr = Ok (expr', n) /\ scanning expr').
    { intros line' Hle. apply (IH (String.length line')); [lia | reflexivity]. }
    destruct (classify c).
    + destruct (scanning_index expr Hs) as (child & -> & Hc). simpl.
      destruct (IHrest rest (le_n _) 0 (appendOperand child) (scanning_appendOperand _ Hc))
        as (child' & n & -> & Hs').
      simpl. apply IHrest; [apply skip_length|].
      apply scanning_setOperand; [assumption | now apply scanning_cursorOk].
    + now apply IHrest.
    + apply IHrest; [apply skip_length|]. exact Hs.
    + apply IHrest; [lia|]. destruct Hs as [Hi Hall]. unfold scanning, nextOperand. simpl.
      rewrite length_app. simpl. split; [lia|].
      apply Forall_app. split; [assumption | now repeat constructor].
    + eauto.
    + destruct (scanning_index expr Hs) as (child & -> & Hc). simpl.
      apply IHrest; [lia|]. apply scanning_setOperand; [assumption|].
      destruct child as [cop clit ci cl]. exact Hc.
Qed.

Lemma Parse_total line :
  2 <= String.length line -> exists expr, Parse newExpression line = Ok expr.
Proof.
  intros Hlen. unfold Parse, parse. apply Nat.leb_le in Hlen. rewrite Hlen.
  destruct (parseLoop_total (skip 2 line) 0 (appendOperand newExpression))
    as (expr & n & -> & _); [now apply scanning_appendOperand|].
  simpl. eauto.
Qed.

Lemma foldM_panic {A B} (f : B -> A -> result B) (l : list A) :
  Exists (fun a => forall acc, exists p, f acc a = Panic p) l ->
  forall acc, exists p, foldM f acc l = Panic p.
Proof.
  induction 1 as [a l Ha | a l _ IH]; intros acc; simpl.
  - destruct (Ha acc) as [p ->]. simpl. eauto.
  - destruct (f acc a) as [acc'|p]; simpl; eauto.
Qed.

(** A literal with a bad index makes the size computation panic. *)
Lemma transformLength_bad expr :
  hasBadIndex expr = true -> exists p, transformLength expr = Panic p.
Proof.
  induction expr as [op lit i operands IH] using Expression_nested_ind.
  simpl. destruct (HasSuffix lit "]").
  - destruct (slice lit 3 (String.length lit - 1)) as [digits|p]; simpl; [|eauto].
    destruct (ParseUint digits) as [n|p]; [discriminate | eauto].
  - intros Hex. apply foldM_panic. apply existsb_exists in Hex as (e & He & Hbad).
    apply Exists_exists. exists e. apply list_elem_of_In in He. split; [assumption|].
    rewrite Forall_forall in IH. destruct (IH e He Hbad) as [p Hp].
    intros acc. rewrite Hp. simpl. eauto.
Qed.

Lemma kernelSize_bad expressions :
  Exists (fun e => hasBadIndex e = true) expressions ->
  exists p, kernelSize expressions = Panic p.
Proof.
  intros H. apply foldM_panic. eapply Exists_impl; [exact H|].
  intros e He acc. destruct (transformLength_bad e He) as [p Hp].
  unfold TransformLength. rewrite Hp. simpl. eauto.
Qed.

Lemma main_bad lines expressions constants :
  scan lines = Ok (expressions, constants) ->
  Exists (fun e => hasBadIndex e = true) expressions ->
  exists p, main lines = Panic p.
Proof.
  intros Hscan Hbad. unfold main. rewrite Hscan. simpl.
  destruct (kernelSize_bad expressions Hbad) as [p ->]. simpl. eauto.
Qed.

(** ** genfft.go: main *)

Lemma constReAt_groups s groups :
  constReAt s = Some groups -> exists name value, groups = [name; value].
Proof.
  unfold constReAt. intros H.
  repeat (simplify_option_eq || case_match); eauto.
Qed.

Lemma constRe_groups line groups :
  constRe line = Some groups -> exists name value, groups = [name; value].
Proof.
  induction line as [|c line IH]; simpl.
  - intros H. discriminate H.
  - destruct (constReAt (String c line)) eqn:H; [|exact IH].
    intros [= <-]. eauto using constReAt_groups.
Qed.

Lemma scan_pairs lines : forall expressions constants expressions' constants',
  pairs constants ->
  foldM scanLine (expressions, constants) lines = Ok (expressions', constants') ->
  pairs constants'.
Proof.
  induction lines as [|line lines IH]; intros es cs es' cs' Hp H; simpl in H.
  - now injection H as <- <-.
  - inv_bind H as acc Hacc. destruct acc as [es1 cs1]. apply (IH _ _ _ _) in H; [assumption|].
    unfold scanLine in Hacc. destruct (constRe line) as [groups|] eqn:Hre.
    + injection Hacc as <- <-. apply Forall_app. split; [assumption|].
      constructor; [|constructor]. eauto using constRe_groups.
    + inv_bind Hacc as e He. now injection Hacc as <- <-.
Qed.

Lemma constantLines_pairs constants :
  pairs constants -> exists consts, constantLines constants = Ok consts.
Proof.
  unfold constantLines. generalize "". intros acc H. revert acc.
  induction H as [|groups l (name & value & ->) _ IH]; intros acc; simpl; eauto.
Qed.

Lemma scan_constants lines : forall expressions constants,
  Forall (fun line => constRe line <> None) lines ->
  exists constants', foldM scanLine (expressions, constants) lines = Ok (expressions, constants').
Proof.
  induction lines as [|line lines IH]; intros es cs H; simpl; [eauto|].
  inversion H as [|? ? Hline Hlines]; subst. unfold scanLine at 1.
  destruct (constRe line); [|congruence]. simpl. now apply IH.
Qed.

(** Without statements the signature selection indexes an empty list. *)
Lemma main_no_statements lines :
  Forall (fun line => constRe line <> None) lines -> main lines = Panic IndexOutOfRange.
Proof.
  intros H. unfold main, scan.
  destruct (scan_constants lines [] [] H) as [constants Hscan]. rewrite Hscan. simpl.
  destruct (constantLines_pairs constants) as [consts ->]; [|reflexivity].
  eapply scan_pairs; [|exact Hscan]. constructor.
Qed.

(** A first statement with fewer than two operands does the same. *)
Lemma main_short_statement lines expressions constants max :
  scan lines = Ok (expressions, constants) ->
  kernelSize expressions = Ok max ->
  (forall first, head expressions = Some first -> length (Expr first) < 2) ->
  main lines = Panic IndexOutOfRange.
Proof.
  intros Hscan Hsize Hshort. unfold main. rewrite Hscan. simpl. rewrite Hsize. simpl.
  destruct (constantLines_pairs constants) as [consts ->].
  { eapply scan_pairs; [|exact Hscan]. constructor. }
  simpl. unfold signature. destruct expressions as [|first rest]; [reflexivity|].
  simpl. specialize (Hshort first eq_refl). unfold index.
  rewrite lookup_ge_None_2 by lia. reflexivity.
Qed.

(** What a completed run has gone through. *)
Lemma main_Ok lines source :
  main lines = Ok source ->
  exists first rest constants operand max consts stmts,
    scan lines = Ok (first :: rest, constants) /\
    Expr first !! 1 = Some operand /\
    kernelSize (first :: rest) = Ok max /\
    constantLines constants = Ok consts /\
    body (first :: rest) = Ok stmts /\
    source = "package dft" ++ newline
             ++ "const N = " ++ decimal max ++ newline ++ newline
             ++ "const (" ++ newline
             ++ "I = 1i" ++ newline
             ++ consts
             ++ ")" ++ newline
             ++ (if Lit operand =? "xi[0]" then complexSignature else realSignature)
             ++ stmts
             ++ "}".
Proof.
  intros H. unfold main in H.
  inv_bind H as acc Hscan. destruct acc as [expressions constants].
  inv_bind H as max Hmax. inv_bind H as consts Hconsts. inv_bind H as sig Hsig.
  inv_bind H as stmts Hstmts. injection H as <-.
  unfold signature in Hsig. inv_bind Hsig as first Hfirst. inv_bind Hsig as operand Hop.
  injection Hsig as <-.
  destruct expressions as [|first' rest]; [discriminate|]. injection Hfirst as ->.
  unfold index in Hop. destruct (Expr first !! 1) as [operand'|] eqn:Hl; [|discriminate].
  injection Hop as ->.
  exists first, rest, constants, operand, max, consts, stmts.
  repeat split; assumption.
Qed.

(** ** The participle-based generator: rendering *)

Section ParticipleFacts.
Open Scope list_scope.

Lemma Expr_nested_ind (Q : P.Expr -> Prop) :
  (forall ident o sub, Forall Q sub -> Q (P.mkExpr ident o sub)) ->
  forall e, Q e.
Proof.
  intros step. fix IH 1. intros [ident o sub]. apply step.
  induction sub as [|e l IHl]; constructor; [apply IH | apply IHl].
Qed.

Lemma subLoop_cons gen o lt sub rest :
  P.subLoop gen o lt (sub :: rest) =
  (c ← gen sub; P.subLoop gen o (lt ++ P.subItems o sub c) rest).
Proof.
  simpl. unfold P.subItems. destruct (gen sub) as [c|p]; simpl; [|reflexivity].
  destruct ((o =? "*") && (1 <? length (P.Sub sub))%nat); [reflexivity|].
  destruct ((o =? "+") && (P.Op sub =? "-")); reflexivity.
Qed.

(** The loop appends to the left side. *)
Lemma subLoop_acc gen o lt subs :
  P.subLoop gen o lt subs = (items ← P.subLoop gen o [] subs; Ok (lt ++ items)).
Proof.
  revert lt. induction subs as [|sub rest IH]; intros lt.
  - simpl. now rewrite app_nil_r.
  - rewrite !subLoop_cons. destruct (gen sub) as [c|p]; simpl; [|reflexivity].
    rewrite (IH (lt ++ _)), (IH (P.subItems o sub c)).
    destruct (P.subLoop gen o [] rest) as [items|p]; simpl; [|reflexivity].
    now rewrite app_assoc.
Qed.

Lemma subLoop_split gen o lt l1 sub l2 c :
  P.subLoop gen o lt (l1 ++ sub :: l2) = Ok c ->
  exists pre inner post,
    P.subLoop gen o lt l1 = Ok pre /\
    gen sub = Ok inner /\
    P.subLoop gen o [] l2 = Ok post /\
    c = pre ++ P.subItems o sub inner ++ post.
Proof.
  revert lt. induction l1 as [|e l1 IH]; intros lt H.
  - simpl app in H. rewrite subLoop_cons in H. inv_bind H as inner Hinner.
    rewrite subLoop_acc in H. inv_bind H as post Hpost. injection H as <-.
    exists lt, inner, post. repeat split; auto. now rewrite app_assoc.
  - simpl app in H. rewrite subLoop_cons in H. inv_bind H as ce Hce.
    apply IH in H as (pre & inner & post & Hpre & Hinner & Hpost & ->).
    exists pre, inner, post. repeat split; auto.
    rewrite subLoop_cons, Hce. exact Hpre.
Qed.

(** The rendering of a node with at least two sub-expressions. *)
Lemma Gen_nary o first e2 l :
  P.Gen (P.mkExpr "" o (first :: e2 :: l)) =
  (lt ← P.Gen first;
   P.subLoop P.Gen (if (o =? ":=") && HasSuffix (P.Ident first) "]" then "=" else o)
             lt (e2 :: l)).
Proof. reflexivity. Qed.

(** Multiplication: a sub-expression after the first that has more than
    one sub-expression of its own is added in parentheses. *)
Lemma Gen_product first l1 sub l2 c :
  1 < length (P.Sub sub) ->
  P.Gen (P.mkExpr "" "*" (first :: l1 ++ sub :: l2)) = Ok c ->
  exists pre inner post,
    P.Gen sub = Ok inner /\
    c = pre ++ [jen.Stmt [jen.Op "*"]; jen.Parens (jen.Stmt inner)] ++ post.
Proof.
  intros Hlen H.
  assert (Hn : exists e2 l, l1 ++ sub :: l2 = e2 :: l) by (destruct l1; simpl; eauto).
  destruct Hn as (e2 & l & Hl). rewrite Hl, Gen_nary in H. rewrite <- Hl in H.
  inv_bind H as lt Hlt. simpl in H.
  apply subLoop_split in H as (pre & inner & post & _ & Hinner & _ & ->).
  exists pre, inner, post. split; [assumption|]. unfold P.subItems.
  apply Nat.ltb_lt in Hlen. now rewrite Hlen.
Qed.

(** Addition: a sub-expression after the first whose operator is "-" is
    added as it is, after what the sub-expressions before it produced:
    no "+" and no parentheses, whatever its arity. *)
Lemma Gen_minus_operand first l1 sub l2 c :
  P.Op sub = "-" ->
  P.Gen (P.mkExpr "" "+" (first :: l1 ++ sub :: l2)) = Ok c ->
  exists pre inner post,
    (lt ← P.Gen first; P.subLoop P.Gen "+" lt l1) = Ok pre /\
    P.Gen sub = Ok inner /\
    P.subLoop P.Gen "+" [] l2 = Ok post /\
    c = pre ++ [jen.Stmt inner] ++ post.
Proof.
  intros Hop H.
  assert (Hn : exists e2 l, l1 ++ sub :: l2 = e2 :: l) by (destruct l1; simpl; eauto).
  destruct Hn as (e2 & l & Hl). rewrite Hl, Gen_nary in H. rewrite <- Hl in H.
  inv_bind H as lt Hlt. simpl in H.
  apply subLoop_split in H as (pre & inner & post & Hpre & Hinner & Hpost & ->).
  exists pre, inner, post. rewrite Hlt. simpl. repeat split; try assumption.
  unfold P.subItems. rewrite Hop. reflexivity.
Qed.

(** A unary operation: the operator, then the operand; no parentheses. *)
Lemma Gen_unary o x :
  P.Gen (P.mkExpr "" o [x]) = (c ← P.Gen x; Ok [jen.Op o; jen.Stmt c]).
Proof. reflexivity. Qed.

(** An operation with several sub-expressions starts with the items of
    the first one. *)
Lemma Gen_starts_with_first o first e2 l c :
  P.Gen (P.mkExpr "" o (first :: e2 :: l)) = Ok c ->
  exists lt rest, P.Gen first = Ok lt /\ c = lt ++ rest.
Proof.
  rewrite Gen_nary. intros H. inv_bind H as lt Hlt.
  rewrite subLoop_acc in H. inv_bind H as rest Hrest. injection H as <-. eauto.
Qed.

(** A statement: the target, the assignment operator, the value. *)
Lemma Gen_statement target value :
  target <> "" ->
  P.Gen (P.mkExpr "" ":=" [P.ident target; value]) =
  (c ← P.Gen value;
   Ok [jen.Id target;
       jen.Stmt [jen.Op (if HasSuffix target "]" then "=" else ":=")];
       jen.Stmt c]).
Proof.
  intros Hne. apply String.eqb_neq in Hne. rewrite Gen_nary. simpl.
  rewrite Hne. simpl. destruct (P.Gen value) as [c|p]; simpl; [|reflexivity].
  destruct (HasSuffix target "]"); reflexivity.
Qed.

(** *** Parentheses *)

Lemma openParens_app a b : P.openParens (a ++ b) = P.openParens a + P.openParens b.
Proof.
  unfold P.openParens. simpl. rewrite flat_map_app, List.filter_app, length_app. reflexivity.
Qed.

Lemma openParens_subItems o sub c :
  P.openParens (P.subItems o sub c)
  = (if (o =? "*") && (1 <? length (P.Sub sub))%nat then 1 else 0) + P.openParens c.
Proof.
  unfold P.subItems, P.openParens.
  destruct ((o =? "*") && (1 <? length (P.Sub sub))%nat).
  - simpl. rewrite !app_nil_r, List.filter_app, length_app. simpl. lia.
  - destruct ((o =? "+") && (P.Op sub =? "-")); simpl; now rewrite !app_nil_r.
Qed.

Lemma subLoop_openParens o lt subs : forall c,
  Forall (fun s => forall c, P.Gen s = Ok c -> P.openParens c = P.starGroups s) subs ->
  P.subLoop P.Gen o lt subs = Ok c ->
  P.openParens c
  = P.openParens lt
    + list_sum (map (fun s => (if (o =? "*") && (1 <? length (P.Sub s))%nat then 1 else 0)
                              + P.starGroups s) subs).
Proof.
  revert lt. induction subs as [|sub rest IH]; intros lt c Hall H.
  - simpl in H. injection H as <-. simpl. lia.
  - inversion Hall as [|? ? Hsub Hrest]; subst.
    rewrite subLoop_cons in H. inv_bind H as inner Hinner.
    rewrite (IH _ _ Hrest H), openParens_app, openParens_subItems, (Hsub _ Hinner).
    simpl. lia.
Qed.

(** Parentheses are printed for the operands of products that have more
    than one sub-expression, and for nothing else. *)
Lemma Gen_openParens e : forall c, P.Gen e = Ok c -> P.openParens c = P.starGroups e.
Proof.
  induction e as [ident o sub IH] using Expr_nested_ind. intros c H.
  simpl in H |- *. destruct (negb (ident =? "")).
  - now injection H as <-.
  - destruct sub as [|first [|e2 l]]; [discriminate| |].
    + inv_bind H as inner Hinner. injection H as <-.
      inversion IH as [|? ? Hfirst _]; subst. rewrite <- (Hfirst _ Hinner).
      unfold P.openParens. simpl. now rewrite app_nil_r.
    + inv_bind H as lt Hlt. inversion IH as [|? ? Hfirst Hrest]; subst.
      rewrite (subLoop_openParens _ _ _ _ Hrest H), (Hfirst _ Hlt).
      assert (Ho : ((if (o =? ":=") && HasSuffix (P.Ident first) "]" then "=" else o) =? "*")
                   = (o =? "*")).
      { destruct (o =? ":=") eqn:Heq; [|reflexivity]. apply String.eqb_eq in Heq. subst o.
        now destruct (HasSuffix (P.Ident first) "]"). }
      now rewrite Ho.
Qed.

(** *** The order of the identifiers *)





(** *** The signature *)

Lemma IndexByte_Some s c idx :
  IndexByte s c = Some idx ->
  s = (substring 0 idx s ++ String c (skip (S idx) s))%string.
Proof.
  revert idx. induction s as [|a s IH]; intros idx H; simpl in H; [discriminate|].
  destruct (Ascii.eqb a c) eqn:Hac.
  - injection H as <-. apply Ascii.eqb_eq in Hac. subst a. reflexivity.
  - destruct (IndexByte s c) as [idx'|]; [|discriminate]. injection H as <-.
    simpl. f_equal. now apply IH.
Qed.

(** The base name of an indexed identifier is "ri" exactly when the
    identifier begins with "ri[". *)
Lemma baseName_ri ident :
  In "ri"%string (match IndexByte ident "[" with
                  | Some idx => [substring 0 idx ident]
                  | None => []
                  end)
  <-> String.prefix "ri[" ident = true.
Proof.
  split.
  - destruct (IndexByte ident "[") as [idx|] eqn:Hidx; [|intros []].
    intros [Hb|[]]. apply IndexByte_Some in Hidx. rewrite Hb in Hidx. rewrite Hidx.
    generalize (skip (S idx) ident). intros [|c rest]; reflexivity.
  - intros H. apply prefix_correct in H.
    destruct ident as [|a [|b [|c s]]]; try discriminate H.
    simpl in H. rewrite ?substring_zero in H. injection H as -> -> ->.
    simpl. rewrite ?substring_zero. now left.
Qed.

Lemma Inputs_mentions e : In "ri"%string (P.Inputs e) <-> P.mentions "ri[" e = true.
Proof.
  induction e as [ident o sub IH] using Expr_nested_ind.
  cbn [P.Inputs P.mentions]. rewrite in_app_iff, baseName_ri, orb_true_iff.
  apply or_iff_compat_l. rewrite in_flat_map, existsb_exists.
  rewrite Forall_forall in IH.
  split; intros (s & Hs & H); exists s; (split; [assumption|]);
    apply (IH s); try assumption; now apply list_elem_of_In.
Qed.

Lemma argSet_inputs (inputs : list string) (argSet : gset string) x :
  x ∈ fold_left (fun argSet input => {[input]} ∪ argSet) inputs argSet
  <-> In x inputs \/ x ∈ argSet.
Proof.
  revert argSet. induction inputs as [|i l IH]; intros argSet; simpl.
  - tauto.
  - rewrite IH, elem_of_union, elem_of_singleton. intuition congruence.
Qed.

Lemma argSetOf_inputs statements x :
  x ∈ P.argSetOf statements <-> exists s, In s statements /\ In x (P.Inputs s).
Proof.
  unfold P.argSetOf.
  assert (H : forall acc : gset string,
    x ∈ fold_left (fun argSet s =>
           fold_left (fun argSet input => {[input]} ∪ argSet) (P.Inputs s) argSet)
         statements acc
    <-> (exists s, In s statements /\ In x (P.Inputs s)) \/ x ∈ acc).
  { induction statements as [|s l IH]; intros acc; simpl.
    - split; [auto | intros [(s & [] & _) | H]; exact H].
    - rewrite IH, argSet_inputs. split.
      + intros [(s' & Hs' & Hx) | [Hx | Hx]]; eauto.
      + intros [(s' & [<- | Hs'] & Hx) | Hx]; eauto. }
  rewrite H. split; [intros [H'|H']; [exact H' | set_solver] | auto].
Qed.

Lemma argSetOf_ri statements :
  "ri" ∈ P.argSetOf statements <-> existsb (P.mentions "ri[") statements = true.
Proof.
  rewrite argSetOf_inputs, existsb_exists.
  split; intros (s & Hs & H); exists s; (split; [assumption|]); now apply Inputs_mentions.
Qed.

(** Four real arrays when some identifier begins with "ri[", and then the
    constants are those of the program; two complex arrays otherwise, and
    then the constant I comes first. *)
Lemma Program_Gen_signature p path name f :
  P.Program_Gen p path name = Ok f ->
  exists stmts,
    P.statementItems (P.Statements p) = Ok stmts /\
    if existsb (P.mentions "ri[") (P.Statements p)
    then P.Args f = ["ri"; "ii"; "ro"; "io"]%string
         /\ P.ArgsType f = P.Float64
         /\ P.Block f = (if (0 <? length (P.Constants p))%nat
                         then [P.ConstDefs (map P.Constant_Gen (P.Constants p)); P.Line]
                         else []) ++ stmts
    else P.Args f = ["xi"; "xo"]%string
         /\ P.ArgsType f = P.Complex128
         /\ P.Block f = P.ConstDefs (P.Constant_Gen (P.mkConstant "I" "1i")
                                       :: map P.Constant_Gen (P.Constants p))
                        :: P.Line :: stmts.
Proof.
  unfold P.Program_Gen. intros H.
  destruct (bool_decide ("ri" ∈ P.argSetOf (P.Statements p))) eqn:Hri.
  - apply bool_decide_eq_true in Hri. apply argSetOf_ri in Hri. rewrite Hri.
    inv_bind H as stmts Hstmts. injection H as <-. exists stmts. simpl. auto.
  - apply bool_decide_eq_false in Hri. rewrite argSetOf_ri in Hri.
    apply not_true_is_false in Hri. rewrite Hri.
    inv_bind H as stmts Hstmts. injection H as <-. exists stmts. simpl. auto.
Qed.

(** What Gen returns ends in an identifier or in a closing parenthesis,
    never in an operator. *)
Lemma endsInOperand_app lt items :
  P.endsInOperand items -> P.endsInOperand (lt ++ items).
Proof.
  intros (before & t & H & Ht). exists (jen.tokens (jen.Stmt lt) ++ before), t.
  split; [|exact Ht]. cbn [jen.tokens] in *. now rewrite flat_map_app, H, app_assoc.
Qed.

Lemma subItems_endsInOperand o sub c :
  P.endsInOperand c -> P.endsInOperand (P.subItems o sub c).
Proof.
  intros (before & t & H & Ht). cbn [jen.tokens] in H. unfold P.subItems.
  destruct ((o =? "*") && (1 <? length (P.Sub sub))%nat).
  - exists (jen.TOp o :: jen.TOpen :: flat_map jen.tokens c), jen.TClose.
    split; [|now left]. cbn. now rewrite app_nil_r.
  - destruct ((o =? "+") && (P.Op sub =? "-")).
    + exists before, t. split; [|exact Ht]. cbn. now rewrite app_nil_r.
    + exists (jen.TOp o :: before), t. split; [|exact Ht]. cbn. now rewrite app_nil_r, H.
Qed.

Lemma subLoop_endsInOperand o subs : forall lt c,
  Forall (fun e => forall c, P.Gen e = Ok c -> P.endsInOperand c) subs ->
  P.endsInOperand lt ->
  P.subLoop P.Gen o lt subs = Ok c -> P.endsInOperand c.
Proof.
  induction subs as [|sub rest IH]; intros lt c Hall Hlt H.
  - simpl in H. now injection H as <-.
  - inversion Hall as [|? ? Hsub Hrest]; subst.
    rewrite subLoop_cons in H. inv_bind H as items Hitems.
    apply (IH _ _ Hrest) in H; [assumption|].
    apply endsInOperand_app, subItems_endsInOperand, Hsub, Hitems.
Qed.

Lemma Gen_endsInOperand e : forall c, P.Gen e = Ok c -> P.endsInOperand c.
Proof.
  induction e as [ident o sub IH] using Expr_nested_ind. intros c H.
  cbn [P.Gen] in H. destruct (ident =? "") eqn:Hident; cbn [negb] in H.
  - destruct sub as [|first [|e2 l]]; [discriminate H | |].
    + inversion IH as [|? ? Hfirst _]; subst.
      inv_bind H as inner Hinner. injection H as <-.
      destruct (Hfirst inner Hinner) as (before & t & Htokens & Ht).
      exists (jen.TOp o :: before), t. split; [|exact Ht].
      cbn [jen.tokens] in *. cbn. now rewrite app_nil_r, Htokens.
    + inversion IH as [|? ? Hfirst Hrest]; subst.
      inv_bind H as lt Hlt. apply (subLoop_endsInOperand _ _ _ _ Hrest) in H; [assumption|].
      now apply Hfirst.
  - injection H as <-. exists [], (jen.TId ident). split; [reflexivity | eauto].
Qed.

End ParticipleFacts.

(** * The claims *)

(** C1, as stated, fails in both generators. genfft.go wraps a unary
    operation at depth 2 in parentheses of its own: the statement that
    assigns to T1 the product of a and minus b is rendered [T1:=a*(-b)],
    not [T1:=a*-b]. The participle-based generator prints no parentheses
    around the sum nested in [(:= T1 (+ a (+ b c)))]. *)
Lemma C1_counterexample :
  (e ← Parse newExpression unaryLine; Expression_String e) = Ok "T1:=a*(-b)"
  /\ (e ← Parse newExpression unaryLine; Expression_String e) <> Ok "T1:=a*-b"
  /\ (c ← P.Gen (P.op ":=" [P.ident "T1";
                            P.op "+" [P.ident "a"; P.op "+" [P.ident "b"; P.ident "c"]]]);
      Ok (jen.render (jen.Stmt c), P.openParens c)) = Ok ("T1 := a + b + c", 0).
Proof. repeat split; try reflexivity. vm_compute. discriminate. Qed.

(** C1, amended. genfft.go: a statement is the target, the assignment
    operator and the value rendered at depth 1, with no parentheses added
    around the statement or the value; from depth 2 on every operation,
    unary ones included, is its depth-1 rendering in parentheses.
    Participle-based generator: a unary operation is its operator followed
    by its operand, without parentheses; the parentheses of a statement
    are those around the operands of products that come after the first
    and have more than one sub-expression. *)
Theorem C1_parenthesization :
  (forall lit i target value,
      Op target = "" ->
      Expression_String (mkExpression "=" lit i [target; value]) =
      (r ← stringHelper 1 value;
       Ok (Lit target ++ (if HasPrefix (Lit target) "T" then ":=" else "=") ++ r)))
  /\ (forall expr d,
         Op expr <> "" -> 2 <= d ->
         stringHelper d expr = (r ← stringHelper 1 expr; Ok (parenthesize r)))
  /\ (forall o x, P.Gen (P.mkExpr "" o [x]) = (c ← P.Gen x; Ok [jen.Op o; jen.Stmt c]))
  /\ (forall e c, P.Gen e = Ok c -> P.openParens c = P.starGroups e).
Proof.
  split; [exact statement_rendering|].
  split; [exact stringHelper_wrapped|].
  split; [exact Gen_unary|].
  intros e c. apply Gen_openParens.
Qed.

Lemma C1_parenthesization_witness :
  (Op (leaf "T1") = ""
   /\ Expression_String (mkExpression "=" "" 1 [leaf "T1"; node "+" [leaf "a"; leaf "b"]])
      = Ok "T1:=a+b")
  /\ (Op (node "-" [leaf "b"]) <> "" /\ 2 <= 2
      /\ stringHelper 2 (node "-" [leaf "b"]) = Ok "(-b)")
  /\ (P.Gen (P.op "*" [P.ident "a"; P.op "+" [P.ident "b"; P.ident "c"]])
      = Ok [jen.Id "a"; jen.Stmt [jen.Op "*"];
            jen.Parens (jen.Stmt [jen.Id "b"; jen.Stmt [jen.Op "+"]; jen.Stmt [jen.Id "c"]])]
      /\ P.openParens
           [jen.Id "a"; jen.Stmt [jen.Op "*"];
            jen.Parens (jen.Stmt [jen.Id "b"; jen.Stmt [jen.Op "+"]; jen.Stmt [jen.Id "c"]])]
         = 1).
Proof.
  destruct C1_parenthesization as (Hstmt & Hwrap & _ & Hparens).
  split; [split; [reflexivity|]|split; [split; [discriminate|split; [lia|]]|split; [reflexivity|]]].
  - rewrite (Hstmt "" 1 (leaf "T1") (node "+" [leaf "a"; leaf "b"]) eq_refl). reflexivity.
  - rewrite (Hwrap (node "-" [leaf "b"]) 2); [reflexivity | discriminate | lia].
  - exact (Hparens (P.op "*" [P.ident "a"; P.op "+" [P.ident "b"; P.ident "c"]])
             [jen.Id "a"; jen.Stmt [jen.Op "*"];
              jen.Parens (jen.Stmt [jen.Id "b"; jen.Stmt [jen.Op "+"]; jen.Stmt [jen.Id "c"]])]
             eq_refl).
Defined.

(** C2, as stated, fails in genfft.go for a product that is the root of
    its line: the operands of the root are rendered at depth 1, where no
    parenthesis is added, so the line whose root multiplies a by the sum
    of b and c is rendered [a*b+c]. *)
Lemma C2_counterexample :
  (e ← Parse newExpression "(:* a (+ b c))"; Expression_String e) = Ok "a*b+c"
  /\ Parse newExpression "(:* a (+ b c))"
     = Ok (mkExpression "*" "" 1 [leaf "a"; mkExpression "+" "" 1 [leaf "b"; leaf "c"]]).
Proof. split; reflexivity. Qed.

(** C2, amended. A product renders an operand after the first in
    parentheses when that operand is an operation: in genfft.go for a
    product below the root of its line (depth 1 or more, where every
    product of an assignment is), in the participle-based generator when
    the operand has more than one sub-expression. In genfft.go a product
    that is the root of its line writes the operand as it is rendered at
    depth 1, between the operator and the text of the operands after it,
    with no parentheses added. The statement of the spec, T1
    assigned xi[0] times the sum of xi[1] and xi[2], is rendered with the
    sum in parentheses by both. *)
Theorem C2_multiplication_grouping :
  (forall d lit i first l1 sub l2 s,
      1 <= d -> Op sub <> "" ->
      stringHelper d (mkExpression "*" lit i (first :: l1 ++ sub :: l2)%list) = Ok s ->
      exists pre post r,
        stringHelper 1 sub = Ok r /\ s = pre ++ "*" ++ parenthesize r ++ post)
  /\ (forall first l1 sub l2 c,
         1 < length (P.Sub sub) ->
         P.Gen (P.mkExpr "" "*" (first :: l1 ++ sub :: l2)%list) = Ok c ->
         exists pre inner post,
           P.Gen sub = Ok inner /\
           c = (pre ++ [jen.Stmt [jen.Op "*"]; jen.Parens (jen.Stmt inner)] ++ post)%list)
  /\ (e ← Parse newExpression productLine; Expression_String e)
     = Ok "T1:=xi[0]*(xi[1]+xi[2])"
  /\ (c ← P.Gen productStatement; Ok (jen.render (jen.Stmt c)))
     = Ok "T1 := xi[0] * (xi[1] + xi[2])"
  /\ (forall lit i first l1 sub l2 s,
         stringHelper 0 (mkExpression "*" lit i (first :: l1 ++ sub :: l2)%list) = Ok s ->
         exists r0 pre r post,
           stringHelper 1 first = Ok r0 /\
           operandsLoop (stringHelper 1) "*" 1 l1 = Ok pre /\
           stringHelper 1 sub = Ok r /\
           operandsLoop (stringHelper 1) "*" 1 l2 = Ok post /\
           s = r0 ++ pre ++ "*" ++ r ++ post).
Proof.
  split; [exact stringHelper_product|].
  split; [exact Gen_product|].
  split; [reflexivity|]. split; [reflexivity|].
  exact stringHelper_product_root.
Qed.

Lemma C2_multiplication_grouping_witness :
  (1 <= 1 /\ Op (node "+" [leaf "b"; leaf "c"]) <> ""
   /\ exists pre post r,
        stringHelper 1 (node "+" [leaf "b"; leaf "c"]) = Ok r
        /\ "a*(b+c)" = pre ++ "*" ++ parenthesize r ++ post)
  /\ (1 < length (P.Sub (P.op "+" [P.ident "b"; P.ident "c"]))
      /\ exists pre inner post,
           P.Gen (P.op "+" [P.ident "b"; P.ident "c"]) = Ok inner
           /\ [jen.Id "a"; jen.Stmt [jen.Op "*"];
               jen.Parens (jen.Stmt [jen.Id "b"; jen.Stmt [jen.Op "+"]; jen.Stmt [jen.Id "c"]])]
              = (pre ++ [jen.Stmt [jen.Op "*"]; jen.Parens (jen.Stmt inner)] ++ post)%list)
  /\ (exists r0 pre r post,
        stringHelper 1 (leaf "a") = Ok r0
        /\ operandsLoop (stringHelper 1) "*" 1 [] = Ok pre
        /\ stringHelper 1 (node "+" [leaf "b"; leaf "c"]) = Ok r
        /\ operandsLoop (stringHelper 1) "*" 1 [leaf "d"] = Ok post
        /\ "a*b+c*d" = r0 ++ pre ++ "*" ++ r ++ post).
Proof.
  destruct C2_multiplication_grouping as (Hgenfft & Hparticiple & _ & _ & Hroot).
  split; [split; [lia | split; [discriminate|]] | split; [split; [simpl; lia|]|]].
  - apply (Hgenfft 1 "" 1 (leaf "a") [] (node "+" [leaf "b"; leaf "c"]) []);
      [lia | discriminate | reflexivity].
  - apply (Hparticiple (P.ident "a") [] (P.op "+" [P.ident "b"; P.ident "c"]) []);
      [simpl; lia | reflexivity].
  - apply (Hroot "" 2 (leaf "a") [] (node "+" [leaf "b"; leaf "c"]) [leaf "d"]). reflexivity.
Defined.

(** C4, as stated, fails in genfft.go: a program whose only input is
    ri[0] gets the four-array signature and still the constant I = 1i, and
    a program whose inputs are xi[0] and xi[1] only gets the four-array
    signature, because the value of its first statement is not the
    literal xi[0]. *)
Lemma C4_counterexample :
  main ["(:= T1 ri[0])"]
  = Ok ("package dft" ++ newline ++ "const N = 1" ++ newline ++ newline
        ++ "const (" ++ newline ++ "I = 1i" ++ newline ++ ")" ++ newline
        ++ "func DFT(ri, ii, ro, io []float64) {" ++ newline
        ++ "T1:=ri[0]" ++ newline ++ "}")
  /\ main ["(:= T1 (+ xi[0] xi[1]))"]
     = Ok ("package dft" ++ newline ++ "const N = 2" ++ newline ++ newline
           ++ "const (" ++ newline ++ "I = 1i" ++ newline ++ ")" ++ newline
           ++ "func DFT(ri, ii, ro, io []float64) {" ++ newline
           ++ "T1:=xi[0]+xi[1]" ++ newline ++ "}").
Proof. split; reflexivity. Qed.

(** C4, amended. Participle-based generator: when some identifier of the
    program begins with "ri[" the kernel has the four arguments ri, ii,
    ro, io of type float64 and the constants of the program; otherwise it
    has the two arguments xi, xo of type complex128 and the constant I
    comes first, before the constants of the program. genfft.go: the
    constant I = 1i always opens the constant block, and the signature is
    the complex one exactly when the second operand of the first statement
    is the literal xi[0]. *)
Theorem C4_signature_inference :
  (forall p path name f,
      P.Program_Gen p path name = Ok f ->
      exists stmts,
        P.statementItems (P.Statements p) = Ok stmts /\
        if existsb (P.mentions "ri[") (P.Statements p)
        then P.Args f = ["ri"; "ii"; "ro"; "io"]
             /\ P.ArgsType f = P.Float64
             /\ P.Block f = ((if (0 <? length (P.Constants p))%nat
                              then [P.ConstDefs (map P.Constant_Gen (P.Constants p)); P.Line]
                              else []) ++ stmts)%list
        else P.Args f = ["xi"; "xo"]
             /\ P.ArgsType f = P.Complex128
             /\ P.Block f = P.ConstDefs (P.Constant_Gen (P.mkConstant "I" "1i")
                                           :: map P.Constant_Gen (P.Constants p))
                            :: P.Line :: stmts)
  /\ (forall lines source,
         main lines = Ok source ->
         exists first rest constants operand max consts stmts,
           scan lines = Ok (first :: rest, constants) /\
           Expr first !! 1 = Some operand /\
           kernelSize (first :: rest) = Ok max /\
           constantLines constants = Ok consts /\
           body (first :: rest) = Ok stmts /\
           source = "package dft" ++ newline
                    ++ "const N = " ++ decimal max ++ newline ++ newline
                    ++ "const (" ++ newline
                    ++ "I = 1i" ++ newline
                    ++ consts
                    ++ ")" ++ newline
                    ++ (if Lit operand =? "xi[0]" then complexSignature else realSignature)
                    ++ stmts
                    ++ "}").
Proof. split; [exact Program_Gen_signature | exact main_Ok]. Qed.

Lemma C4_signature_inference_witness :
  (exists stmts,
      P.statementItems [P.op ":=" [P.ident "T1"; P.ident "ri[0]"]] = Ok stmts /\
      ["ri"; "ii"; "ro"; "io"] = ["ri"; "ii"; "ro"; "io"] /\
      P.Float64 = P.Float64 /\
      [P.Statement [jen.Id "T1"; jen.Stmt [jen.Op ":="]; jen.Stmt [jen.Id "ri[0]"]]]
      = ([] ++ stmts)%list)
  /\ (exists first rest constants operand max consts stmts,
         scan ["(:= T1 xi[0])"] = Ok (first :: rest, constants) /\
         Expr first !! 1 = Some operand /\
         kernelSize (first :: rest) = Ok max /\
         constantLines constants = Ok consts /\
         body (first :: rest) = Ok stmts /\
         "package dft" ++ newline ++ "const N = 1" ++ newline ++ newline
         ++ "const (" ++ newline ++ "I = 1i" ++ newline ++ ")" ++ newline
         ++ "func DFT(xi, xo []complex128) {" ++ newline
         ++ "T1:=xi[0]" ++ newline ++ "}"
         = "package dft" ++ newline
           ++ "const N = " ++ decimal max ++ newline ++ newline
           ++ "const (" ++ newline
           ++ "I = 1i" ++ newline
           ++ consts
           ++ ")" ++ newline
           ++ (if Lit operand =? "xi[0]" then complexSignature else realSignature)
           ++ stmts
           ++ "}").
Proof.
  destruct C4_signature_inference as [Hparticiple Hgenfft].
  split.
  - exact (Hparticiple
             (P.mkProgram [] [P.op ":=" [P.ident "T1"; P.ident "ri[0]"]]) "dft" "DFT"
             (P.mkFile "dft" "DFT" ["ri"; "ii"; "ro"; "io"] P.Float64
                [P.Statement [jen.Id "T1"; jen.Stmt [jen.Op ":="]; jen.Stmt [jen.Id "ri[0]"]]])
             eq_refl).
  - apply (Hgenfft ["(:= T1 xi[0])"]). reflexivity.
Defined.

(** C5, as stated, fails for base names that do not have two characters:
    the index is read from position 3. The statement that assigns a[15]
    to ro[0] has the largest index 15, and its transform length is 6; with
    abc[15] the computation panics. *)
Lemma C5_counterexample :
  (e ← Parse newExpression "(:= ro[0] a[15])"; n ← TransformLength e; Ok (maxIndex e, n))
  = Ok (15%Z, 6%Z)
  /\ (e ← Parse newExpression "(:= ro[0] abc[15])"; TransformLength e) = Panic NumErrSyntax.
Proof. split; reflexivity. Qed.

(** C5, amended. For a program with at least one statement in which every
    indexed identifier has a base name of two characters (and an index
    below the largest unsigned integer), N is one plus the maximum index
    of the leaf identifiers of the form name[digits]. *)
Theorem C5_kernel_size expressions :
  expressions <> [] ->
  Forall (fun e => twoLetterIndices e = true) expressions ->
  kernelSize expressions = Ok (programMaxIndex expressions + 1)%Z.
Proof. apply kernelSize_maxIndex. Qed.

Lemma C5_kernel_size_witness :
  kernelSize [node "=" [leaf "T1"; node "+" [leaf "xi[3]"; leaf "xi[12]"]];
              node "=" [leaf "xo[7]"; leaf "T1"]]
  = Ok 13%Z.
Proof.
  apply (C5_kernel_size
           [node "=" [leaf "T1"; node "+" [leaf "xi[3]"; leaf "xi[12]"]];
            node "=" [leaf "xo[7]"; leaf "T1"]]).
  - discriminate.
  - repeat constructor.
Defined.

(** C6 fails in genfft.go on an indexed target that begins with the
    letter of the temporaries, as T1[2]: it is emitted as a fresh binding,
    [T1[2]:=xi[0]], where the claim, and the comment of stringHelper that
    reserves the operator for a T\d+ variable, ask for a plain assignment.
    The participle-based generator emits the plain assignment. *)
Lemma C6_counterexample :
  (e ← Parse newExpression "(:= T1[2] xi[0])"; Expression_String e) = Ok "T1[2]:=xi[0]"
  /\ (c ← P.Gen (P.op ":=" [P.ident "T1[2]"; P.ident "xi[0]"]);
      Ok (jen.tokens (jen.Stmt c)))
     = Ok [jen.TId "T1[2]"; jen.TOp "="; jen.TId "xi[0]"].
Proof. split; reflexivity. Qed.

(** C6, what the code tests. genfft.go emits a statement with ":="
    exactly when the name of the target begins with "T", and with "="
    otherwise: the test looks at the first letter only, not at an index.
    The participle-based generator emits "=" exactly when the name of the
    target ends in "]", and ":=" otherwise. So a temporary without index
    is a fresh binding and an indexed element whose name does not begin
    with "T" is a plain assignment, in both; on an indexed target that
    begins with "T" genfft.go departs from the claim. *)
Theorem C6_declaration_vs_assignment :
  (forall lit i target value,
      Op target = "" ->
      Expression_String (mkExpression "=" lit i [target; value]) =
      (r ← stringHelper 1 value;
       Ok (Lit target ++ (if HasPrefix (Lit target) "T" then ":=" else "=") ++ r)))
  /\ (forall target value,
         target <> "" ->
         P.Gen (P.mkExpr "" ":=" [P.ident target; value]) =
         (c ← P.Gen value;
          Ok [jen.Id target;
              jen.Stmt [jen.Op (if HasSuffix target "]" then "=" else ":=")];
              jen.Stmt c])).
Proof. split; [exact statement_rendering | exact Gen_statement]. Qed.

Lemma C6_declaration_vs_assignment_witness :
  (Op (leaf "T3") = ""
   /\ Expression_String (mkExpression "=" "" 1 [leaf "T3"; leaf "xi[0]"]) = Ok "T3:=xi[0]")
  /\ (Op (leaf "ro[2]") = ""
      /\ Expression_String (mkExpression "=" "" 1 [leaf "ro[2]"; leaf "T3"]) = Ok "ro[2]=T3")
  /\ ("ro[2]" <> ""
      /\ P.Gen (P.mkExpr "" ":=" [P.ident "ro[2]"; P.ident "T3"])
         = Ok [jen.Id "ro[2]"; jen.Stmt [jen.Op "="]; jen.Stmt [jen.Id "T3"]]).
Proof.
  destruct C6_declaration_vs_assignment as [Hgenfft Hparticiple].
  split; [split; [reflexivity|] | split; [split; [reflexivity|] | split; [discriminate|]]].
  - exact (Hgenfft "" 1 (leaf "T3") (leaf "xi[0]") eq_refl).
  - exact (Hgenfft "" 1 (leaf "ro[2]") (leaf "T3") eq_refl).
  - apply (Hparticiple "ro[2]" (P.ident "T3")). discriminate.
Defined.




(** C9. When no line of the input is a statement (no line at all, or
    constant lines only), main panics with an index out of range at
    expressions[0]. A run that completes has a first statement with a
    second operand; when the size computation succeeds and the first
    statement is missing or has fewer than two operands, the same panic
    is raised. Nothing checks this before. *)
Theorem C9_no_statements_panics :
  (forall lines,
      Forall (fun line => constRe line <> None) lines -> main lines = Panic IndexOutOfRange)
  /\ (forall lines source,
         main lines = Ok source ->
         exists first rest constants,
           scan lines = Ok (first :: rest, constants) /\ 2 <= length (Expr first))
  /\ (forall lines expressions constants max,
         scan lines = Ok (expressions, constants) ->
         kernelSize expressions = Ok max ->
         (forall first, head expressions = Some first -> length (Expr first) < 2) ->
         main lines = Panic IndexOutOfRange).
Proof.
  split; [exact main_no_statements|].
  split; [|exact main_short_statement].
  intros lines source H.
  apply main_Ok in H as (first & rest & constants & operand & _ & _ & _ & Hscan & Hop & _).
  exists first, rest, constants. split; [assumption|].
  apply lookup_lt_Some in Hop. lia.
Qed.

Lemma C9_no_statements_panics_witness :
  main [] = Panic IndexOutOfRange
  /\ main ["DK(KP866025403, +0.866025403784438646763723170752936183471402627);"]
     = Panic IndexOutOfRange
  /\ main ["(:= T1)"] = Panic IndexOutOfRange
  /\ exists first rest constants,
       scan ["(:= T1 xi[0])"] = Ok (first :: rest, constants) /\ 2 <= length (Expr first).
Proof.
  destruct C9_no_statements_panics as (Hnone & Hok & Hshort).
  split; [|split; [|split]].
  - apply Hnone. constructor.
  - apply Hnone. repeat constructor. discriminate.
  - apply (Hshort ["(:= T1)"] [mkExpression "=" "" 0 [leaf "T1"]] [] 1%Z);
      [reflexivity | reflexivity |].
    intros first [= <-]. simpl. lia.
  - apply (Hok ["(:= T1 xi[0])"]
             ("package dft" ++ newline ++ "const N = 1" ++ newline ++ newline
              ++ "const (" ++ newline ++ "I = 1i" ++ newline ++ ")" ++ newline
              ++ "func DFT(xi, xo []complex128) {" ++ newline
              ++ "T1:=xi[0]" ++ newline ++ "}")).
    reflexivity.
Defined.

(** C10. In the participle-based generator the folding under "+" looks at
    the operator of the operand only: an operand after the first whose
    operator is "-" is added as it is, with no "+" before it and no
    parentheses around it, whatever the number of its sub-expressions. A
    unary "-" starts with the "-" token, which gives the form a - b; a
    "-" with several sub-expressions starts with the items of its first
    sub-expression, so the sum of a and the difference of b and c is
    printed as a b - c. *)
Theorem C10_fold_keyed_on_operator :
  (forall first l1 sub l2 c,
      P.Op sub = "-" ->
      P.Gen (P.mkExpr "" "+" (first :: l1 ++ sub :: l2)%list) = Ok c ->
      exists pre inner post,
        (lt ← P.Gen first; P.subLoop P.Gen "+" lt l1) = Ok pre /\
        P.Gen sub = Ok inner /\
        P.subLoop P.Gen "+" [] l2 = Ok post /\
        c = (pre ++ [jen.Stmt inner] ++ post)%list)
  /\ (forall x, P.Gen (P.mkExpr "" "-" [x]) = (c ← P.Gen x; Ok [jen.Op "-"; jen.Stmt c]))
  /\ (forall first e2 l c,
         P.Gen (P.mkExpr "" "-" (first :: e2 :: l)) = Ok c ->
         exists lt rest, P.Gen first = Ok lt /\ c = (lt ++ rest)%list)
  /\ (c ← P.Gen (P.op "+" [P.ident "a"; P.op "-" [P.ident "b"; P.ident "c"]]);
      Ok (jen.tokens (jen.Stmt c), jen.render (jen.Stmt c)))
     = Ok ([jen.TId "a"; jen.TId "b"; jen.TOp "-"; jen.TId "c"], "a b - c")
  /\ (c ← P.Gen (P.op "+" [P.ident "a"; P.op "-" [P.ident "b"]]);
      Ok (jen.tokens (jen.Stmt c), jen.render (jen.Stmt c)))
     = Ok ([jen.TId "a"; jen.TOp "-"; jen.TId "b"], "a - b").
Proof.
  split; [exact Gen_minus_operand|].
  split; [intros x; apply Gen_unary|].
  split; [intros first e2 l c; apply Gen_starts_with_first|].
  split; reflexivity.
Qed.

Lemma C10_fold_keyed_on_operator_witness :
  P.Op (P.op "-" [P.ident "b"; P.ident "c"]) = "-"
  /\ exists pre inner post,
       (lt ← P.Gen (P.ident "a"); P.subLoop P.Gen "+" lt []) = Ok pre /\
       P.Gen (P.op "-" [P.ident "b"; P.ident "c"]) = Ok inner /\
       P.subLoop P.Gen "+" [] [P.ident "d"] = Ok post /\
       [jen.Id "a";
        jen.Stmt [jen.Id "b"; jen.Stmt [jen.Op "-"]; jen.Stmt [jen.Id "c"]];
        jen.Stmt [jen.Op "+"]; jen.Stmt [jen.Id "d"]]
       = (pre ++ [jen.Stmt inner] ++ post)%list.
Proof.
  split; [reflexivity|].
  apply (proj1 C10_fold_keyed_on_operator (P.ident "a") []
           (P.op "-" [P.ident "b"; P.ident "c"]) [P.ident "d"]); reflexivity.
Defined.

(** * Further properties *)

(** ** genfft.go: the scanner on the schedule notation *)

Lemma length_append (a b : string) :
  String.length (a ++ b) = String.length a + String.length b.
Proof. induction a as [|c a IH]; simpl; [reflexivity | now rewrite IH]. Qed.

Lemma skip_append (a b : string) : skip (String.length a) (a ++ b) = b.
Proof. induction a as [|c a IH]; simpl; [reflexivity | exact IH]. Qed.

Lemma classify_literal c : isDelimiter c = false -> classify c = Other.
Proof. unfold isDelimiter. now destruct (classify c). Qed.

Lemma setOperand_setOperand expr a b :
  setOperand (setOperand expr a) b = setOperand expr b.
Proof. unfold setOperand. simpl. now rewrite list_insert_insert_eq. Qed.

(** The characters of a literal are appended to the operand under the
    cursor, one by one. *)
Lemma parseLoop_literal lit : forall rest idx expr child,
  allChars (fun c => negb (isDelimiter c)) lit = true ->
  Expr expr !! OpIdx expr = Some child ->
  parseLoop (lit ++ rest) idx expr =
  parseLoop rest (idx + String.length lit)
    (setOperand expr (mkExpression (Op child) (Lit child ++ lit) (OpIdx child) (Expr child))).
Proof.
  induction lit as [|c lit IH]; intros rest idx expr child Hlit Hchild.
  - simpl. rewrite append_nil_r, Nat.add_0_r. f_equal.
    destruct expr as [op l i operands], child as [cop cl ci coperands].
    unfold setOperand. simpl in *. now rewrite list_insert_id.
  - simpl in Hlit. apply andb_prop in Hlit as [Hc Hlit]. apply negb_true_iff in Hc.
    change (String c lit ++ rest) with (String c (lit ++ rest)).
    rewrite parseLoop_cons, (classify_literal c Hc). unfold index. rewrite Hchild. simpl.
    rewrite (IH rest (idx + 1) _ (appendLit child c) Hlit).
    + rewrite setOperand_setOperand. simpl.
      rewrite append_assoc. simpl. f_equal. lia.
    + unfold setOperand. simpl. apply list_lookup_insert_eq.
      now apply lookup_lt_Some in Hchild.
Qed.

(** The operands of a node, up to its closing parenthesis. *)
Lemma parseLoop_operands op operands : forall done rest idx,
  Forall scanned operands -> operands <> [] ->
  parseLoop (String.concat " " (map scheduleText operands) ++ ")" ++ rest) idx
            (mkExpression op "" (length done) (done ++ [newExpression])%list)
  = Ok (mkExpression op "" (length done + length operands - 1) (done ++ operands)%list,
        idx + String.length (String.concat " " (map scheduleText operands)) + 1).
Proof.
  induction operands as [|e operands IH]; intros done rest idx Hall Hne; [congruence|].
  inversion Hall as [|? ? He Hrest]; subst.
  assert (Hset : setOperand (mkExpression op "" (length done) (done ++ [newExpression])%list) e
                 = mkExpression op "" (length done) (done ++ [e])%list).
  { unfold setOperand. simpl. f_equal.
    rewrite insert_app_r_alt by lia. now rewrite Nat.sub_diag. }
  assert (Hcur : Expr (mkExpression op "" (length done) (done ++ [newExpression])%list)
                 !! OpIdx (mkExpression op "" (length done) (done ++ [newExpression])%list)
                 = Some newExpression).
  { simpl. now rewrite list_lookup_middle. }
  destruct operands as [|e2 more].
  - simpl String.concat. simpl map. simpl String.concat.
    rewrite (He _ idx _ Hcur), Hset. simpl. rewrite parseLoop_cons. simpl.
    do 2 f_equal. f_equal. lia.
  - change (String.concat " " (map scheduleText (e :: e2 :: more)))
      with (scheduleText e ++ " " ++ String.concat " " (map scheduleText (e2 :: more))).
    rewrite !append_assoc. rewrite (He _ idx _ Hcur), Hset.
    change (" " ++ ?x) with (String " " x). rewrite parseLoop_cons.
    change (classify " ") with Space. cbv iota.
    unfold nextOperand. simpl Op. simpl Lit. simpl OpIdx. simpl Expr.
    specialize (IH (done ++ [e])%list rest (idx + String.length (scheduleText e) + 1) Hrest).
    rewrite length_app in IH. simpl length in IH.
    replace (length done + 1) with (S (length done)) in IH by lia.
    rewrite IH by discriminate. rewrite <- app_assoc. simpl.
    rewrite !length_append. simpl. do 2 f_equal; [f_equal; lia | lia].
Qed.

Lemma isOperator_char op :
  isOperator op = true -> exists c, op = String c "" /\ classify c = Operator.
Proof.
  unfold isOperator. intros H.
  repeat (apply orb_prop in H as [H|H]); apply String.eqb_eq in H; subst op; eauto.
Qed.

Lemma scheduleTree_node op lit i operands :
  op <> "" -> scheduleTree (mkExpression op lit i operands) = true ->
  isOperator op = true /\ lit = "" /\ S i = length operands
  /\ Forall (fun e => scheduleTree e = true) operands.
Proof.
  intros Hop H. apply String.eqb_neq in Hop. cbn [scheduleTree] in H. rewrite Hop in H.
  apply andb_prop in H as [[[H1 H2]%andb_prop H3]%andb_prop H4].
  apply String.eqb_eq in H2. apply Nat.eqb_eq in H3.
  repeat split; try assumption.
  apply Forall_forall. intros e He. rewrite forallb_forall in H4. apply H4.
  now apply list_elem_of_In.
Qed.

(** An operator and its operands, after the opening parenthesis: the
    receiver is the node under construction. *)
Lemma parseLoop_node c operands rest :
  classify c = Operator -> Forall scanned operands -> operands <> [] ->
  parseLoop (String c "" ++ " " ++ String.concat " " (map scheduleText operands) ++ ")" ++ rest)
            0 (appendOperand newExpression)
  = Ok (mkExpression (String c "") "" (length operands - 1) operands,
        String.length (String.concat " " (map scheduleText operands)) + 3).
Proof.
  intros Hc Hall Hne. simpl append. rewrite parseLoop_cons, Hc. simpl skip.
  change (setOp (appendOperand newExpression) (String c ""))
    with (mkExpression (String c "") "" (length (@nil Expression)) ([] ++ [newExpression])%list).
  rewrite (parseLoop_operands (String c "") operands [] rest) by assumption.
  simpl. do 2 f_equal. lia.
Qed.

(** Every tree of the notation is read back from its text. *)
Lemma scheduleTree_scanned e : scheduleTree e = true -> scanned e.
Proof.
  induction e as [op lit i operands IH] using Expression_nested_ind.
  intros Htree rest idx expr Hcur. destruct (op =? "") eqn:Hop.
  - apply String.eqb_eq in Hop. subst op. simpl in Htree |- *.
    apply andb_prop in Htree as [[Hlit Hi]%andb_prop Hlen].
    apply Nat.eqb_eq in Hi. apply Nat.eqb_eq, nil_length_inv in Hlen. subst i operands.
    now rewrite (parseLoop_literal lit rest idx expr newExpression Hlit Hcur).
  - apply String.eqb_neq in Hop.
    destruct (scheduleTree_node op lit i operands Hop Htree) as (Hoper & -> & Hi & Hall).
    destruct (isOperator_char op Hoper) as (c & -> & Hc).
    assert (Hscanned : Forall scanned operands).
    { rewrite Forall_forall in IH, Hall. apply Forall_forall. intros e He. auto. }
    assert (Hne : operands <> []) by (destruct operands; [discriminate Hi | discriminate]).
    cbn [scheduleText]. apply String.eqb_neq in Hop. rewrite Hop.
    rewrite !append_assoc.
    change ("(" ++ ?x) with (String "(" x). rewrite parseLoop_cons.
    change (classify "(") with Open. cbv iota. unfold index. rewrite Hcur. simpl mbind.
    pose proof (parseLoop_node c operands rest Hc Hscanned Hne) as Hnode.
    cbn [append] in Hnode. rewrite Hnode. clear Hnode. simpl mbind. simpl fst. simpl snd.
    replace (length operands - 1) with i by lia.
    set (text := String.concat " " (map scheduleText operands)).
    f_equal.
    + replace (String.length text + 3) with (S (S (String.length (text ++ ")"))))
        by (rewrite length_append; simpl; lia).
      simpl skip. change (String ")" rest) with (")" ++ rest).
      rewrite <- (append_assoc text). apply skip_append.
    + simpl. rewrite !length_append. simpl. lia.
Qed.

Lemma Parse_scheduleTree expr tail :
  scheduleTree expr = true -> Op expr <> "" ->
  Parse newExpression (statementText expr ++ tail) = Ok expr.
Proof.
  intros Htree Hop. destruct expr as [op lit i operands]. simpl in Hop.
  destruct (scheduleTree_node op lit i operands Hop Htree) as (Hoper & -> & Hi & Hall).
  destruct (isOperator_char op Hoper) as (c & -> & Hc).
  assert (Hscanned : Forall scanned operands).
  { eapply Forall_impl; [exact Hall|]. apply scheduleTree_scanned. }
  assert (Hne : operands <> []) by (destruct operands; [discriminate Hi | discriminate]).
  unfold Parse, parse, statementText. simpl.
  pose proof (parseLoop_node c operands tail Hc Hscanned Hne) as Hnode.
  cbn [append] in Hnode. rewrite append_assoc. cbn [append]. rewrite Hnode. simpl.
  do 2 f_equal. lia.
Qed.

(** X1. Parse reads a statement back from its text: for every tree of the
    schedule notation whose root is an operation, parsing the line that
    writes the tree gives the tree, cursors included, whatever follows
    the closing parenthesis of the statement. *)
Theorem Parse_statementText expr tail :
  scheduleTree expr = true -> Op expr <> "" ->
  Parse newExpression (statementText expr ++ tail) = Ok expr.
Proof. apply Parse_scheduleTree. Qed.

Lemma Parse_statementText_witness :
  Parse newExpression ("(:= xo[1] (+ T1 (" ++ "* KP5 (- T2)))) trailing")
  = Ok (node "=" [leaf "xo[1]";
                  node "+" [leaf "T1"; node "*" [leaf "KP5"; node "-" [leaf "T2"]]]]).
Proof.
  apply (Parse_statementText
           (node "=" [leaf "xo[1]";
                      node "+" [leaf "T1"; node "*" [leaf "KP5"; node "-" [leaf "T2"]]]])
           " trailing").
  - reflexivity.
  - discriminate.
Defined.

(** ** genfft.go: when rendering fails *)

Lemma renderable_minus lit i inner :
  renderable (mkExpression "-" lit i [inner]) = renderable inner.
Proof. simpl. apply andb_true_r. Qed.

Lemma operandsLoop_rendered f op operands : forall idx,
  Forall (fun e => rendered (f e) e /\ Forall (fun inner => rendered (f inner) inner) (Expr e))
         operands ->
  match operandsLoop f op idx operands with
  | Ok _ => forallb renderable operands = true
  | Panic p => p = IndexOutOfRange /\ forallb renderable operands = false
  end.
Proof.
  induction operands as [|e rest IH]; intros idx Hall; [reflexivity|].
  inversion Hall as [|? ? [He Hin] Hrest]; subst. specialize (IH (S idx) Hrest).
  cbn [operandsLoop forallb].
  assert (Hpiece : forall piece : result string,
             rendered piece e ->
             match (r ← piece; rs ← operandsLoop f op (S idx) rest; Ok (r ++ rs)) with
             | Ok _ => renderable e && forallb renderable rest = true
             | Panic p => p = IndexOutOfRange /\ renderable e && forallb renderable rest = false
             end).
  { intros [r|p] Hr; simpl in Hr |- *.
    - rewrite Hr. destruct (operandsLoop f op (S idx) rest) as [rs|p]; simpl; exact IH.
    - destruct Hr as [-> ->]. auto. }
  apply Hpiece. destruct (negb (idx =? 0)%nat); [|exact He].
  destruct ((op =? "+") && IsUnary e && (Op e =? "-")) eqn:Hfold.
  - apply andb_prop in Hfold as [[_ Hun]%andb_prop Hminus]. apply String.eqb_eq in Hminus.
    destruct e as [eop elit ei [|inner [|x more]]]; try discriminate Hun.
    simpl in Hminus. subst eop. simpl in Hin. inversion Hin as [|? ? Hinner _]; subst.
    unfold rendered. rewrite renderable_minus.
    destruct (f inner) as [s|p]; exact Hinner.
  - unfold rendered in *. destruct (f e) as [s|p]; exact He.
Qed.

Lemma stringHelper_rendered expr :
  (forall d, rendered (stringHelper d expr) expr)
  /\ Forall (fun e => forall d, rendered (stringHelper d e) e) (Expr expr).
Proof.
  induction expr as [op lit i operands IH] using Expression_nested_ind.
  assert (Hall : Forall (fun e => forall d, rendered (stringHelper d e) e) operands).
  { eapply Forall_impl; [exact IH | now intros e [He _]]. }
  split; [|exact Hall].
  intros d. unfold rendered. cbn [stringHelper renderable].
  destruct (op =? "") eqn:Hop; [reflexivity|]. cbn [orb].
  assert (Hloop : match operandsLoop (stringHelper (S d)) (if op =? "=" then
                          match operands with
                          | [] => op
                          | target :: _ => if HasPrefix (Lit target) "T" then ":=" else op
                          end else op) 0 operands with
                  | Ok _ => forallb renderable operands = true
                  | Panic p => p = IndexOutOfRange /\ forallb renderable operands = false
                  end).
  { apply operandsLoop_rendered. eapply Forall_impl; [exact IH|].
    intros e [He Hin]. split; [apply He|]. eapply Forall_impl; [exact Hin|]. auto. }
  destruct operands as [|e [|e2 l]].
  - destruct (op =? "="); simpl; auto.
  - inversion Hall as [|? ? He _]; subst. specialize (He (S d)). unfold rendered in He.
    assert (Hr : renderable e && true = renderable e) by apply andb_true_r.
    destruct (op =? "="); simpl; rewrite ?andb_false_r; simpl; rewrite Hr;
      destruct (stringHelper (S d) e) as [s|p]; simpl; exact He.
  - destruct (op =? "="); cbn [mbind result_bind negb andb length Nat.eqb] in *;
      rewrite ?andb_false_r; cbn [negb andb];
      match goal with
      | H : match ?r with _ => _ end |- match (?r' ≫= _) with _ => _ end =>
          change r' with r; destruct r as [s|p]; simpl; exact H
      end.
Qed.

(** X2. String fails on one kind of tree only: an operation that is reached
    has the operator "=" and no operand, which panics with an index out
    of range; every other tree is rendered. *)
Theorem stringHelper_panics expr d :
  match stringHelper d expr with
  | Ok _ => renderable expr = true
  | Panic p => p = IndexOutOfRange /\ renderable expr = false
  end.
Proof. exact (proj1 (stringHelper_rendered expr) d). Qed.

(** ** genfft.go: every parsed line is rendered *)

Lemma hasOperands_operands expr :
  hasOperands expr = true -> Forall (fun e => hasOperands e = true) (Expr expr).
Proof.
  destruct expr as [op lit i operands]. simpl. intros [_ H]%andb_prop.
  apply Forall_forall. intros e He. rewrite forallb_forall in H. apply H.
  now apply list_elem_of_In.
Qed.

Lemma building_hasOperands expr : building expr -> hasOperands expr = true.
Proof.
  intros [[Hi _] Hall]. destruct expr as [op lit i operands]. simpl in *.
  apply andb_true_intro. split.
  - destruct operands; [simpl in Hi; lia | apply orb_true_r].
  - apply forallb_forall. intros e He. rewrite Forall_forall in Hall. apply Hall.
    now apply list_elem_of_In.
Qed.

Lemma building_appendOperand expr :
  cursorOk expr = true -> hasOperands expr = true -> building (appendOperand expr).
Proof.
  intros Hc Ho. split; [now apply scanning_appendOperand|].
  unfold appendOperand. simpl. apply Forall_app. split.
  - now apply hasOperands_operands.
  - now repeat constructor.
Qed.

Lemma building_setOperand expr child :
  building expr -> cursorOk child = true -> hasOperands child = true ->
  building (setOperand expr child).
Proof.
  intros [Hs Hall] Hc Ho. split; [now apply scanning_setOperand|].
  unfold setOperand. simpl. now apply Forall_insert.
Qed.

Lemma building_index expr :
  building expr ->
  exists child, index (Expr expr) (OpIdx expr) = Ok child
                /\ cursorOk child = true /\ hasOperands child = true.
Proof.
  intros [Hs Hall]. destruct (scanning_index expr Hs) as (child & Hidx & Hc).
  exists child. repeat split; try assumption.
  unfold index in Hidx. destruct (Expr expr !! OpIdx expr) as [child'|] eqn:Hl; [|discriminate].
  injection Hidx as ->. rewrite Forall_forall in Hall. apply Hall.
  eapply list_elem_of_lookup_2; eauto.
Qed.

(** The scanner keeps this up, whatever the characters. *)
Lemma parseLoop_building line :
  forall idx expr, building expr ->
  exists expr' n, parseLoop line idx expr = Ok (expr', n) /\ building expr'.
Proof.
  remember (String.length line) as len eqn:Hlen.
  revert line Hlen. induction len as [len IH] using lt_wf_ind.
  intros [|c rest] Hlen idx expr Hb.
  - rewrite parseLoop_equation_1. eauto.
  - simpl in Hlen. rewrite parseLoop_cons.
    assert (IHrest : forall line', String.length line' <= String.length rest ->
              forall idx expr, building expr ->
              exists expr' n, parseLoop line' idx expr = Ok (expr', n) /\ building expr').
    { intros line' Hle. apply (IH (String.length line')); [lia | reflexivity]. }
    destruct (classify c).
    + destruct (building_index expr Hb) as (child & -> & Hc & Ho). simpl.
      destruct (IHrest rest (le_n _) 0 (appendOperand child) (building_appendOperand _ Hc Ho))
        as (child' & n & -> & Hb').
      simpl. apply IHrest; [apply skip_length|].
      apply building_setOperand; [assumption | |now apply building_hasOperands].
      apply scanning_cursorOk. exact (proj1 Hb').
    + now apply IHrest.
    + apply IHrest; [apply skip_length|]. exact Hb.
    + apply IHrest; [lia|]. destruct Hb as [[Hi Hall] Ho]. unfold building, scanning, nextOperand.
      simpl. rewrite length_app. simpl. repeat split; [lia | |].
      * apply Forall_app. split; [assumption | now repeat constructor].
      * apply Forall_app. split; [assumption | now repeat constructor].
    + eauto.
    + destruct (building_index expr Hb) as (child & -> & Hc & Ho). simpl.
      apply IHrest; [lia|]. apply building_setOperand; [assumption| |];
        destruct child as [cop clit ci cl]; assumption.
Qed.

Lemma Parse_hasOperands line expr :
  Parse newExpression line = Ok expr -> hasOperands expr = true.
Proof.
  unfold Parse, parse. destruct (2 <=? String.length line)%nat; [|discriminate].
  destruct (parseLoop_building (skip 2 line) 0 (appendOperand newExpression))
    as (expr' & n & -> & Hb); [now apply building_appendOperand|].
  simpl. intros [= <-]. now apply building_hasOperands.
Qed.

Lemma hasOperands_renderable expr : hasOperands expr = true -> renderable expr = true.
Proof.
  induction expr as [op lit i operands IH] using Expression_nested_ind.
  simpl. intros [H1 H2]%andb_prop. destruct (op =? ""); [reflexivity|]. simpl in *.
  apply negb_true_iff in H1. rewrite H1, andb_false_r. simpl.
  apply forallb_forall. intros e He. rewrite forallb_forall in H2. rewrite Forall_forall in IH.
  apply IH; [now apply list_elem_of_In | now apply H2].
Qed.

(** X3. A parsed line is always rendered: whatever the characters of a line
    of two characters or more, Parse returns a tree and String returns
    the text of that tree. *)
Theorem Parse_then_String line :
  2 <= String.length line ->
  exists expr s, Parse newExpression line = Ok expr /\ Expression_String expr = Ok s.
Proof.
  intros Hlen. destruct (Parse_total line Hlen) as [expr Hparse].
  exists expr. pose proof (proj1 (stringHelper_rendered expr) 0) as Hr.
  unfold Expression_String, rendered in *.
  destruct (stringHelper 0 expr) as [s|p]; [eauto|].
  destruct Hr as [_ Hr]. apply Parse_hasOperands, hasOperands_renderable in Hparse. congruence.
Qed.

Lemma Parse_then_String_witness :
  exists expr s, Parse newExpression "(:= (= ))) + x(" = Ok expr /\ Expression_String expr = Ok s.
Proof. apply (Parse_then_String "(:= (= ))) + x("). simpl. lia. Defined.

(** ** genfft.go: when the transform length fails *)

Lemma ParseUint_isUint s n : ParseUint s = Ok n -> isUint n.
Proof.
  unfold ParseUint. destruct (s =? ""); simpl; [discriminate|].
  destruct (allDigits s) eqn:Hd; simpl; [|discriminate].
  destruct (digitsValue 0 s <? uint_modulus)%Z eqn:Hlt; [|discriminate].
  intros [= <-]. apply Z.ltb_lt in Hlt. split; [|assumption].
  apply digitsValue_nonneg; [assumption | lia].
Qed.

Lemma Max_isUint a b : isUint a -> isUint b -> isUint (Max a b).
Proof.
  unfold isUint, Max. intros Ha Hb.
  destruct (0 <? a)%Z; destruct (_ <? b)%Z; unfold uint_modulus in *; lia.
Qed.

Lemma foldM_Max_isUint {A} (f : A -> result Z) (l : list A) : forall acc,
  isUint acc ->
  Forall (fun a => exists n, f a = Ok n /\ isUint n) l ->
  exists n, foldM (fun max a => n ← f a; Ok (Max max n)) acc l = Ok n /\ isUint n.
Proof.
  induction l as [|a l IH]; intros acc Hacc Hall; simpl; [eauto|].
  inversion Hall as [|? ? (n & Hn & Hu) Hl]; subst. rewrite Hn. simpl.
  apply IH; [now apply Max_isUint | assumption].
Qed.

Lemma transformLength_good expr :
  hasBadIndex expr = false -> exists n, transformLength expr = Ok n /\ isUint n.
Proof.
  induction expr as [op lit i operands IH] using Expression_nested_ind.
  simpl. destruct (HasSuffix lit "]").
  - destruct (slice lit 3 (String.length lit - 1)) as [digits|p]; simpl; [|discriminate].
    destruct (ParseUint digits) as [n|p] eqn:Hn; [|discriminate].
    intros _. exists n. split; [reflexivity | eauto using ParseUint_isUint].
  - intros Hex. apply foldM_Max_isUint; [unfold isUint, uint_modulus; lia|].
    rewrite Forall_forall in IH. apply Forall_forall. intros e He. apply IH; [assumption|].
    destruct (hasBadIndex e) eqn:Hbad; [|reflexivity].
    rewrite <- Hex. symmetry. apply existsb_exists. exists e. split; [|assumption].
    now apply list_elem_of_In.
Qed.

(** X4. The transform length of a tree is computed exactly when no literal
    that is reached ends in "]" without an unsigned integer from
    position 3 to the bracket; the value is then within the unsigned 64
    bit range. Otherwise the computation panics. *)
Theorem transformLength_outcome expr :
  match transformLength expr with
  | Ok n => hasBadIndex expr = false /\ (0 <= n < uint_modulus)%Z
  | Panic _ => hasBadIndex expr = true
  end.
Proof.
  destruct (hasBadIndex expr) eqn:Hbad.
  - destruct (transformLength_bad expr Hbad) as [p ->]. reflexivity.
  - destruct (transformLength_good expr Hbad) as (n & -> & Hn). split; [reflexivity | exact Hn].
Qed.

(** ** genfft.go: the lines of the input *)

Lemma foldM_app {A B} (f : B -> A -> result B) (l1 l2 : list A) : forall acc,
  foldM f acc (l1 ++ l2)%list = (acc' ← foldM f acc l1; foldM f acc' l2).
Proof.
  induction l1 as [|a l1 IH]; intros acc; simpl; [reflexivity|].
  destruct (f acc a) as [acc'|p]; simpl; [apply IH | reflexivity].
Qed.

Lemma scanLine_step expressions constants line :
  scanLine (expressions, constants) line =
  match constRe line with
  | Some groups => Ok (expressions, (constants ++ [groups])%list)
  | None => expr ← Parse newExpression line; Ok ((expressions ++ [expr])%list, constants)
  end.
Proof. reflexivity. Qed.

Lemma statementLines_cons line lines :
  statementLines (line :: lines) =
  match constRe line with
  | Some _ => statementLines lines
  | None => line :: statementLines lines
  end.
Proof. unfold statementLines, isConstantLine. simpl. now destruct (constRe line). Qed.

Lemma groupsOf_cons line lines :
  groupsOf (line :: lines) =
  match constRe line with
  | Some groups => groups :: groupsOf lines
  | None => groupsOf lines
  end.
Proof. unfold groupsOf. simpl. now destruct (constRe line). Qed.

(** The loop over the lines parses the statement lines in order and
    collects the groups of the constant lines in order. *)
Lemma scan_split lines : forall expressions constants,
  foldM scanLine (expressions, constants) lines =
  (expressions' ← parseAll expressions (statementLines lines);
   Ok (expressions', (constants ++ groupsOf lines)%list)).
Proof.
  induction lines as [|line lines IH]; intros es cs.
  - simpl. now rewrite app_nil_r.
  - cbn [foldM]. rewrite scanLine_step, statementLines_cons, groupsOf_cons.
    destruct (constRe line) as [groups|]; cbn [mbind result_bind].
    + rewrite IH. destruct (parseAll es (statementLines lines)); simpl; [|reflexivity].
      now rewrite <- app_assoc.
    + unfold parseAll. cbn [foldM]. destruct (Parse newExpression line) as [e|p]; simpl;
        [|reflexivity].
      rewrite IH. reflexivity.
Qed.

Lemma filter_filter_negb {A} (p : A -> bool) (l : list A) :
  List.filter p (List.filter (fun a => negb (p a)) l) = [].
Proof.
  induction l as [|a l IH]; simpl; [reflexivity|].
  destruct (p a) eqn:Hp; simpl; [assumption | now rewrite Hp].
Qed.

Lemma filter_idem {A} (p : A -> bool) (l : list A) :
  List.filter p (List.filter p l) = List.filter p l.
Proof.
  induction l as [|a l IH]; simpl; [reflexivity|].
  destruct (p a) eqn:Hp; simpl; [rewrite Hp; now f_equal | assumption].
Qed.

Lemma groupsOf_app l1 l2 : groupsOf (l1 ++ l2)%list = (groupsOf l1 ++ groupsOf l2)%list.
Proof. apply flat_map_app. Qed.

Lemma groupsOf_statementLines lines : groupsOf (statementLines lines) = [].
Proof.
  induction lines as [|line lines IH]; simpl; [reflexivity|].
  unfold isConstantLine. destruct (constRe line) eqn:Hre; simpl; [assumption|].
  now rewrite Hre.
Qed.

Lemma groupsOf_constantLinesOf lines : groupsOf (constantLinesOf lines) = groupsOf lines.
Proof.
  induction lines as [|line lines IH]; simpl; [reflexivity|].
  unfold isConstantLine. destruct (constRe line) eqn:Hre; simpl; [|assumption].
  rewrite Hre. simpl. now f_equal.
Qed.

Lemma statementLines_app l1 l2 :
  statementLines (l1 ++ l2)%list = (statementLines l1 ++ statementLines l2)%list.
Proof. apply List.filter_app. Qed.

Lemma statementLines_idem lines : statementLines (statementLines lines) = statementLines lines.
Proof. apply filter_idem. Qed.

Lemma statementLines_constantLinesOf lines : statementLines (constantLinesOf lines) = [].
Proof.
  unfold statementLines, constantLinesOf.
  rewrite <- (filter_filter_negb (fun line => negb (isConstantLine line)) lines) at 1.
  f_equal. apply List.filter_ext. intros line. now rewrite negb_involutive.
Qed.

Lemma scan_statements_first lines :
  scan lines = scan (statementLines lines ++ constantLinesOf lines)%list.
Proof.
  unfold scan. rewrite !scan_split.
  rewrite statementLines_app, statementLines_idem, statementLines_constantLinesOf, app_nil_r.
  now rewrite groupsOf_app, groupsOf_statementLines, groupsOf_constantLinesOf.
Qed.

(** X5. The place of the constant lines among the statement lines plays no
    role: main produces what it produces for the statement lines followed
    by the constant lines, each kept in their order, be it a source text
    or a panic. *)
Theorem main_statements_first lines :
  main lines = main (statementLines lines ++ constantLinesOf lines)%list.
Proof. unfold main. now rewrite <- scan_statements_first. Qed.

(** ** genfft.go: when main completes *)

Lemma parseAll_hasOperands lines : forall acc expressions,
  Forall (fun e => hasOperands e = true) acc ->
  parseAll acc lines = Ok expressions ->
  Forall (fun e => hasOperands e = true) expressions.
Proof.
  unfold parseAll. induction lines as [|line lines IH]; intros acc es Hacc H; simpl in H.
  - now injection H as <-.
  - inv_bind H as acc' Hacc'. inv_bind Hacc' as e He. injection Hacc' as <-.
    apply (IH _ _ (Forall_app_2 _ _ _ Hacc (Forall_cons_2 _ _ _ (Parse_hasOperands _ _ He)
                                                 (Forall_nil_2 _))) H).
Qed.

Lemma scan_hasOperands lines expressions constants :
  scan lines = Ok (expressions, constants) ->
  Forall (fun e => hasOperands e = true) expressions.
Proof.
  unfold scan. rewrite scan_split. intros H. inv_bind H as es Hes. injection H as <- _.
  eapply parseAll_hasOperands; [|exact Hes]. constructor.
Qed.

Lemma body_renderable expressions :
  Forall (fun e => renderable e = true) expressions ->
  exists stmts, body expressions = Ok stmts.
Proof.
  unfold body. generalize "". intros acc H. revert acc.
  induction H as [|e l He _ IH]; intros acc; simpl; [eauto|].
  pose proof (proj1 (stringHelper_rendered e) 0) as Hr. unfold Expression_String, rendered in *.
  destruct (stringHelper 0 e) as [s|p]; [simpl; apply IH|].
  destruct Hr as [_ Hr]. congruence.
Qed.

Lemma kernelSize_good expressions :
  Forall (fun e => hasBadIndex e = false) expressions ->
  exists max, kernelSize expressions = Ok max.
Proof.
  intros H. unfold kernelSize.
  destruct (foldM_Max_isUint TransformLength expressions 0%Z) as (max & Hmax & _).
  - unfold isUint, uint_modulus. lia.
  - eapply Forall_impl; [exact H|]. intros e He.
    destruct (transformLength_good e He) as (n & Hn & Hu). unfold TransformLength.
    rewrite Hn. simpl. eexists. split; [reflexivity|]. apply Z.mod_pos_bound. reflexivity.
  - eauto.
Qed.

Lemma kernelSize_Ok expressions max :
  kernelSize expressions = Ok max -> Forall (fun e => hasBadIndex e = false) expressions.
Proof.
  intros H. apply Forall_forall. intros e He.
  destruct (hasBadIndex e) eqn:Hbad; [|reflexivity].
  destruct (kernelSize_bad expressions) as [p Hp]; [|congruence].
  apply Exists_exists. eauto.
Qed.

(** X6. main reaches the call of the Go formatter, with the source text
    built, exactly in this case: every line that is no constant line is
    parsed (it has two characters or more), no literal that the size
    computation reaches has an unreadable index, and the first statement
    has a second operand. Nothing else makes it panic before that call.
    What the formatter does with the text is not part of [main] here. *)
Theorem main_builds_source lines :
  (exists source, main lines = Ok source) <->
  (exists first rest constants,
      scan lines = Ok (first :: rest, constants)
      /\ Forall (fun e => hasBadIndex e = false) (first :: rest)
      /\ 2 <= length (Expr first)).
Proof.
  split.
  - intros [source H].
    apply main_Ok in H as (first & rest & constants & operand & max & _ & _
                           & Hscan & Hop & Hmax & _).
    exists first, rest, constants. repeat split; [assumption | eauto using kernelSize_Ok |].
    apply lookup_lt_Some in Hop. lia.
  - intros (first & rest & constants & Hscan & Hgood & Hlen).
    unfold main. rewrite Hscan. simpl.
    destruct (kernelSize_good _ Hgood) as [max ->]. simpl.
    destruct (constantLines_pairs constants) as [consts ->].
    { eapply scan_pairs; [|exact Hscan]. constructor. }
    simpl. unfold signature. simpl. unfold index.
    destruct (lookup_lt_is_Some_2 (Expr first) 1) as [operand ->]; [lia|]. simpl.
    destruct (body_renderable (first :: rest)) as [stmts ->]; [|simpl; eauto].
    eapply Forall_impl; [exact (scan_hasOperands _ _ _ Hscan)|].
    intros e. apply hasOperands_renderable.
Qed.

(** ** genfft.go: what the loop over the lines returns *)

Lemma Parse_short line : String.length line < 2 -> Parse newExpression line = Panic SliceBounds.
Proof.
  intros Hlen. unfold Parse. destruct (2 <=? String.length line)%nat eqn:H; [|reflexivity].
  apply Nat.leb_le in H. lia.
Qed.

Lemma parseAll_outcome lines : forall acc,
  match parseAll acc lines with
  | Ok expressions =>
      exists parsed,
        expressions = (acc ++ parsed)%list
        /\ Forall2 (fun line e => Parse newExpression line = Ok e) lines parsed
  | Panic p => p = SliceBounds /\ Exists (fun line => String.length line < 2) lines
  end.
Proof.
  unfold parseAll. induction lines as [|line lines IH]; intros acc; simpl.
  - exists []. split; [now rewrite app_nil_r | constructor].
  - destruct (le_lt_dec 2 (String.length line)) as [Hlen|Hlen].
    + destruct (Parse_total line Hlen) as [e He]. rewrite He. simpl.
      specialize (IH (acc ++ [e])%list).
      destruct (foldM _ (acc ++ [e])%list lines) as [es|p].
      * destruct IH as (parsed & -> & Hall). exists (e :: parsed).
        split; [now rewrite <- app_assoc | now constructor].
      * destruct IH as [-> Hex]. split; [reflexivity | now apply Exists_cons_tl].
    + rewrite (Parse_short line Hlen). simpl. split; [reflexivity | now apply Exists_cons_hd].
Qed.

(** X7. The loop over the lines of the input: the lines that are no constant
    lines are parsed, in order, into the expressions; the constant lines
    give the constants, in order. The loop fails in one case only, with a
    slice bounds panic: a line that is no constant line has fewer than two
    characters (an empty line, for one). *)
Theorem scan_outcome lines :
  match scan lines with
  | Ok (expressions, constants) =>
      Forall2 (fun line e => Parse newExpression line = Ok e) (statementLines lines) expressions
      /\ constants = groupsOf lines
  | Panic p =>
      p = SliceBounds /\ Exists (fun line => String.length line < 2) (statementLines lines)
  end.
Proof.
  unfold scan. rewrite scan_split.
  pose proof (parseAll_outcome (statementLines lines) []) as H.
  destruct (parseAll [] (statementLines lines)) as [es|p]; simpl; [|exact H].
  destruct H as (parsed & -> & Hall). now split.
Qed.

(** ** genfft.go: Max *)

Lemma Max_variadic_fold (a : list Z) : forall acc,
  let r := fold_left (fun max i => if (max <? i)%Z then i else max) a acc in
  (acc <= r)%Z /\ Forall (fun i => (i <= r)%Z) a /\ (r = acc \/ In r a).
Proof.
  induction a as [|i a IH]; intros acc; simpl.
  - repeat split; [lia | constructor | now left].
  - specialize (IH (if (acc <? i)%Z then i else acc)). simpl in IH.
    destruct IH as (Hle & Hall & Hin).
    destruct (acc <? i)%Z eqn:Hlt; [apply Z.ltb_lt in Hlt | apply Z.ltb_ge in Hlt].
    + repeat split; [lia | constructor; [lia | assumption] |].
      destruct Hin as [Hin|Hin]; [right; left; congruence | right; right; assumption].
    + repeat split; [lia | constructor; [lia | assumption] |].
      destruct Hin as [Hin|Hin]; [now left | right; right; assumption].
Qed.

(** X8. Max returns the greatest of its arguments: no argument exceeds the
    result, and the result is one of the arguments when there is one;
    without arguments it is zero. The arguments are unsigned. The call
    with two arguments is the one main and transformLength make. *)
Theorem Max_variadic_greatest a :
  Forall (fun i => (0 <= i)%Z) a ->
  Forall (fun i => (i <= Max_variadic a)%Z) a
  /\ (a <> [] -> In (Max_variadic a) a)
  /\ (a = [] -> Max_variadic a = 0%Z)
  /\ (forall x y, a = [x; y] -> Max_variadic a = Max x y).
Proof.
  intros Hpos. unfold Max_variadic.
  destruct (Max_variadic_fold a 0%Z) as (Hle & Hall & Hin). simpl in *.
  split; [assumption|]. split; [|split].
  - intros Hne. destruct Hin as [Hin|Hin]; [|assumption].
    destruct a as [|i a]; [congruence|].
    inversion Hall as [|? ? Hi _]; subst. inversion Hpos as [|? ? Hi0 _]; subst.
    rewrite Hin in Hi. assert (i = 0%Z) by lia. subst i. rewrite Hin. now left.
  - now intros ->.
  - now intros x y ->.
Qed.

Lemma Max_variadic_greatest_witness :
  Forall (fun i => (i <= Max_variadic [3%Z; 12%Z; 7%Z])%Z) [3%Z; 12%Z; 7%Z]
  /\ In (Max_variadic [3%Z; 12%Z; 7%Z]) [3%Z; 12%Z; 7%Z]
  /\ Max_variadic [3%Z; 12%Z; 7%Z] = 12%Z.
Proof.
  destruct (Max_variadic_greatest [3%Z; 12%Z; 7%Z]) as (Hall & Hin & _).
  - repeat constructor; lia.
  - split; [exact Hall | split; [apply Hin; discriminate | reflexivity]].
Defined.

(** ** genfft.go: the constant lines *)

Lemma span_app p a : forall b,
  allChars p a = true ->
  match b with EmptyString => True | String c _ => p c = false end ->
  span p (a ++ b) = (a, b).
Proof.
  induction a as [|x a IH]; intros b Ha Hb; simpl in *.
  - destruct b as [|c b]; simpl; [reflexivity | now rewrite Hb].
  - apply andb_prop in Ha as [Hx Ha]. rewrite Hx, (IH b Ha Hb). reflexivity.
Qed.

Lemma span_split p s : forall run rest,
  span p s = (run, rest) -> s = run ++ rest /\ allChars p run = true.
Proof.
  induction s as [|c s IH]; intros run rest H; simpl in H.
  - now injection H as <- <-.
  - destruct (p c) eqn:Hc.
    + destruct (span p s) as [run' rest'] eqn:Hs. injection H as <- <-.
      destruct (IH run' rest' eq_refl) as [-> Hall]. simpl. now rewrite Hc.
    + now injection H as <- <-.
Qed.

Lemma skip_prefix pre : forall s,
  String.prefix pre s = true -> s = pre ++ skip (String.length pre) s.
Proof.
  induction pre as [|c pre IH]; intros [|x s] H; simpl in *; try reflexivity; try discriminate.
  destruct (ascii_dec c x) as [->|]; [|discriminate]. f_equal. now apply IH.
Qed.

Lemma stripPrefix_Some pre s t : stripPrefix pre s = Some t -> s = pre ++ t.
Proof.
  unfold stripPrefix. destruct (String.prefix pre s) eqn:H; [|discriminate].
  intros [= <-]. now apply skip_prefix.
Qed.

Lemma stripPrefix_app pre s : stripPrefix pre (pre ++ s) = Some s.
Proof.
  unfold stripPrefix.
  assert (H : String.prefix pre (pre ++ s) = true).
  { induction pre as [|c pre IH]; simpl; [now destruct s|].
    destruct (ascii_dec c c); [assumption | congruence]. }
  rewrite H. now rewrite skip_append.
Qed.

(** The definition of a constant is matched where it starts. *)
Lemma constReAt_definition vector name value rest :
  isConstantName name = true -> isConstantValue value = true ->
  constReAt (constantDefinition vector name value ++ rest) = Some [name; value].
Proof.
  intros Hname Hvalue.
  destruct name as [|k [|np digits]]; try discriminate Hname. simpl in Hname.
  apply andb_prop in Hname as [[[Hk Hnp]%andb_prop Hne]%andb_prop Hdigits].
  apply Ascii.eqb_eq in Hk. subst k.
  destruct value as [|sign number]; [discriminate Hvalue|]. simpl in Hvalue.
  apply andb_prop in Hvalue as [[Hsign Hnum]%andb_prop Hnumber].
  apply negb_true_iff in Hne, Hnum.
  assert (Hrun : constReAt ("D" ++ "K(K" ++ String np (digits ++ ", " ++ String sign
                               (number ++ ");" ++ rest)))
                 = Some [String "K" (String np digits); String sign number]).
  { unfold constReAt. simpl. rewrite Hnp.
    rewrite (span_app isNameChar digits
               (String "," (String " " (String sign (number ++ String ")" (String ";" rest))))))
      by (auto; reflexivity).
    rewrite Hne. simpl. rewrite Hsign.
    rewrite (span_app isValueChar number (String ")" (String ";" rest))) by (auto; reflexivity).
    rewrite Hnum. change (String ")" (String ";" rest)) with (");" ++ rest).
    now rewrite stripPrefix_app. }
  unfold constantDefinition. destruct vector.
  - unfold constReAt in *. simpl in *. rewrite !append_assoc. simpl. rewrite !append_assoc.
    exact Hrun.
  - simpl in *. rewrite !append_assoc. simpl. rewrite !append_assoc. exact Hrun.
Qed.

Lemma constReAt_first s : constReAt s <> None -> exists rest, s = String "D" rest.
Proof.
  unfold constReAt. destruct (stripPrefix "D" s) as [t|] eqn:H; [|now intros []].
  intros _. apply stripPrefix_Some in H. eauto.
Qed.

Lemma constRe_skip before : forall s,
  allChars (fun c => negb (Ascii.eqb c "D")) before = true ->
  constRe (before ++ s) = constRe s.
Proof.
  induction before as [|c before IH]; intros s H; [reflexivity|].
  simpl in H. apply andb_prop in H as [Hc H]. apply negb_true_iff, Ascii.eqb_neq in Hc.
  change (String c before ++ s) with (String c (before ++ s)). cbn [constRe].
  destruct (constReAt (String c (before ++ s))) eqn:Hat; [|now apply IH].
  destruct (constReAt_first (String c (before ++ s))) as [rest Hrest]; [congruence|].
  congruence.
Qed.

Lemma constRe_matches before vector name value rest :
  allChars (fun c => negb (Ascii.eqb c "D")) before = true ->
  isConstantName name = true -> isConstantValue value = true ->
  constRe (before ++ constantDefinition vector name value ++ rest) = Some [name; value].
Proof.
  intros Hbefore Hname Hvalue. rewrite (constRe_skip before _ Hbefore).
  pose proof (constReAt_definition vector name value rest Hname Hvalue) as Hat.
  destruct (constantDefinition vector name value ++ rest) as [|c s] eqn:Hs.
  - discriminate Hat.
  - cbn [constRe]. now rewrite Hat.
Qed.

(** X9. A line that holds the definition of a constant, after characters
    among which there is no D (an indentation, for one), is a constant
    line, and its groups are the name and the value of that definition,
    whatever follows it. *)
Theorem constRe_definition before vector name value rest :
  allChars (fun c => negb (Ascii.eqb c "D")) before = true ->
  isConstantName name = true -> isConstantValue value = true ->
  constRe (before ++ constantDefinition vector name value ++ rest) = Some [name; value].
Proof. apply constRe_matches. Qed.

Lemma constRe_definition_witness :
  constRe ("  DVK(KP866025403, +0.866025403784438646763723170752936183471402627); // c")
  = Some ["KP866025403"; "+0.866025403784438646763723170752936183471402627"].
Proof.
  apply (constRe_definition "  " true "KP866025403"
           "+0.866025403784438646763723170752936183471402627" " // c"); reflexivity.
Defined.

Lemma constReAt_sound s groups :
  constReAt s = Some groups ->
  exists vector name value rest,
    groups = [name; value]
    /\ isConstantName name = true /\ isConstantValue value = true
    /\ s = constantDefinition vector name value ++ rest.
Proof.
  unfold constReAt. intros H.
  destruct (stripPrefix "D" s) as [s1|] eqn:H1; [|discriminate]. simpl in H.
  apply stripPrefix_Some in H1. subst s.
  assert (Hv : exists (vector : bool) s2, s1 = (if vector then "V" else "") ++ s2
                                 /\ default s1 (stripPrefix "V" s1) = s2).
  { destruct (stripPrefix "V" s1) as [s2|] eqn:Hv.
    - apply stripPrefix_Some in Hv. exists true, s2. now split.
    - exists false, s1. now split. }
  destruct Hv as (vector & s2 & -> & Hdef). rewrite Hdef in H. clear Hdef.
  destruct (stripPrefix "K(K" s2) as [s3|] eqn:H3; [|discriminate]. simpl in H.
  apply stripPrefix_Some in H3. subst s2.
  destruct s3 as [|np s4]; [discriminate|].
  destruct (Ascii.eqb np "N" || Ascii.eqb np "P") eqn:Hnp; [|discriminate].
  destruct (span isNameChar s4) as [digits s5] eqn:Hspan.
  apply span_split in Hspan as [-> Hdigits].
  destruct (digits =? "") eqn:Hne; [discriminate|].
  destruct (stripPrefix ", " s5) as [s6|] eqn:H6; [|discriminate]. simpl in H.
  apply stripPrefix_Some in H6. subst s5.
  destruct s6 as [|sign s7]; [discriminate|].
  destruct (Ascii.eqb sign "+" || Ascii.eqb sign "-") eqn:Hsign; [|discriminate].
  destruct (span isValueChar s7) as [number s8] eqn:Hspan.
  apply span_split in Hspan as [-> Hnumber].
  destruct (number =? "") eqn:Hnum; [discriminate|].
  destruct (stripPrefix ");" s8) as [s9|] eqn:H9; [|discriminate]. simpl in H.
  apply stripPrefix_Some in H9. subst s8. injection H as <-.
  exists vector, (String "K" (String np digits)), (String sign number), s9.
  split; [reflexivity|]. split; [|split].
  - simpl. now rewrite Hnp, Hne, Hdigits.
  - simpl. now rewrite Hsign, Hnum, Hnumber.
  - unfold constantDefinition. destruct vector; simpl; rewrite !append_assoc; simpl;
      now rewrite !append_assoc.
Qed.

Lemma constRe_inv line groups :
  constRe line = Some groups ->
  exists before vector name value rest,
    groups = [name; value]
    /\ isConstantName name = true /\ isConstantValue value = true
    /\ line = before ++ constantDefinition vector name value ++ rest.
Proof.
  induction line as [|c line IH]; simpl.
  - intros H. discriminate H.
  - destruct (constReAt (String c line)) as [g|] eqn:Hat.
    + intros [= <-]. apply constReAt_sound in Hat as (vector & name & value & rest & H).
      exists "", vector, name, value, rest. exact H.
    + intros H. apply IH in H as (before & vector & name & value & rest & Hg & Hn & Hv & ->).
      exists (String c before), vector, name, value, rest. auto.
Qed.

(** X10. A constant line holds the definition of a constant: its groups are a
    name (K, N or P, digits and underscores) and a value (a sign, digits
    and points), and the line contains the macro DK or DVK applied to
    that name and that value, closed by a semicolon. *)
Theorem constRe_sound line groups :
  constRe line = Some groups ->
  exists before vector name value rest,
    groups = [name; value]
    /\ isConstantName name = true /\ isConstantValue value = true
    /\ line = before ++ constantDefinition vector name value ++ rest.
Proof. apply constRe_inv. Qed.

Lemma constRe_sound_witness :
  exists before vector name value rest,
    ["KN1_5"; "-0.5"] = [name; value]
    /\ isConstantName name = true /\ isConstantValue value = true
    /\ "x DK(KN1_5, -0.5);" = before ++ constantDefinition vector name value ++ rest.
Proof. apply (constRe_sound "x DK(KN1_5, -0.5);" ["KN1_5"; "-0.5"]). reflexivity. Defined.

(** ** The participle-based generator: when rendering fails *)

Section ParticipleOutcome.
Open Scope list_scope.

Lemma subLoop_generated o subs : forall lt,
  Forall (fun s => P.generated (P.Gen s) s) subs ->
  match P.subLoop P.Gen o lt subs with
  | Ok _ => forallb P.generable subs = true
  | Panic p => p = IndexOutOfRange /\ forallb P.generable subs = false
  end.
Proof.
  induction subs as [|sub rest IH]; intros lt Hall; [reflexivity|].
  inversion Hall as [|? ? Hsub Hrest]; subst.
  rewrite subLoop_cons. cbn [forallb]. unfold P.generated in Hsub.
  destruct (P.Gen sub) as [c|p]; simpl.
  - rewrite Hsub. simpl. now apply IH.
  - destruct Hsub as [-> ->]. auto.
Qed.

Lemma Gen_generated e : P.generated (P.Gen e) e.
Proof.
  induction e as [ident o sub IH] using Expr_nested_ind.
  unfold P.generated. destruct (ident =? "") eqn:Hid.
  - apply String.eqb_eq in Hid. subst ident.
    destruct sub as [|first [|e2 l]].
    + simpl. auto.
    + inversion IH as [|? ? Hfirst _]; subst. unfold P.generated in Hfirst. simpl.
      rewrite andb_true_r. destruct (P.Gen first) as [c|p]; simpl; exact Hfirst.
    + inversion IH as [|? ? Hfirst Hrest]; subst. unfold P.generated in Hfirst.
      rewrite Gen_nary.
      change (P.generable (P.mkExpr "" o (first :: e2 :: l)))
        with (P.generable first && forallb P.generable (e2 :: l)).
      destruct (P.Gen first) as [lt|p]; cbn [mbind result_bind].
      * rewrite Hfirst. cbn [andb]. now apply subLoop_generated.
      * destruct Hfirst as [-> ->]. auto.
  - cbn [P.Gen P.generable]. rewrite Hid. reflexivity.
Qed.

(** X11. Gen fails on one kind of tree only: an operation that is reached has
    no sub-expression, which panics with an index out of range; every
    other tree is rendered. *)
Theorem Gen_panics e :
  match P.Gen e with
  | Ok _ => P.generable e = true
  | Panic p => p = IndexOutOfRange /\ P.generable e = false
  end.
Proof. exact (Gen_generated e). Qed.

Lemma statementItems_outcome statements : forall acc,
  match foldM (fun acc expr => c ← P.Gen expr; Ok (acc ++ [P.Statement c])) acc statements with
  | Ok items =>
      exists stmts,
        items = acc ++ map P.Statement stmts
        /\ Forall2 (fun e c => P.Gen e = Ok c) statements stmts
  | Panic p => p = IndexOutOfRange /\ forallb P.generable statements = false
  end.
Proof.
  induction statements as [|e l IH]; intros acc; simpl.
  - exists []. split; [now rewrite app_nil_r | constructor].
  - pose proof (Gen_generated e) as He. unfold P.generated in He.
    destruct (P.Gen e) as [c|p] eqn:Hc; simpl.
    + specialize (IH (acc ++ [P.Statement c])). rewrite He.
      destruct (foldM _ (acc ++ [P.Statement c]) l) as [items|p].
      * destruct IH as (stmts & -> & Hall). exists (c :: stmts).
        split; [now rewrite <- app_assoc | now constructor].
      * exact IH.
    + destruct He as [-> ->]. auto.
Qed.

Lemma blockStatements_app a b :
  P.blockStatements (a ++ b) = P.blockStatements a ++ P.blockStatements b.
Proof. apply flat_map_app. Qed.

Lemma blockStatements_map stmts : P.blockStatements (map P.Statement stmts) = stmts.
Proof. induction stmts as [|c l IH]; simpl; [reflexivity | now f_equal]. Qed.

(** X12. Program.Gen produces a file exactly when every statement can be
    rendered, and panics with an index out of range otherwise. The file
    has the path and the function name it was given, and the statements
    of its block are the renderings of the statements of the program,
    one for each, in order. *)
Theorem Program_Gen_outcome p path name :
  match P.Program_Gen p path name with
  | Ok f =>
      P.FilePath f = path /\ P.FuncName f = name
      /\ Forall2 (fun e c => P.Gen e = Ok c) (P.Statements p) (P.blockStatements (P.Block f))
  | Panic q => q = IndexOutOfRange /\ forallb P.generable (P.Statements p) = false
  end.
Proof.
  unfold P.Program_Gen.
  pose proof (statementItems_outcome (P.Statements p) []) as H.
  destruct (bool_decide ("ri" ∈ P.argSetOf (P.Statements p)));
    destruct (foldM _ [] (P.Statements p)) as [items|q]; cbn [mbind result_bind];
    try exact H;
    destruct H as (stmts & -> & Hall);
    cbn [P.FilePath P.FuncName P.Block app];
    (split; [reflexivity|]); (split; [reflexivity|]);
    rewrite blockStatements_app, blockStatements_map;
    match goal with |- context [if ?b then _ else _] => destruct b end; exact Hall.
Qed.

End ParticipleOutcome.

(** ** genfft.go: main on a schedule *)

Lemma opensOperators_app a : forall b,
  opensOperators a = true -> opensOperators b = true -> opensOperators (a ++ b) = true.
Proof.
  induction a as [|c a IH]; intros b Ha Hb; [exact Hb|].
  cbn [opensOperators] in Ha. apply andb_prop in Ha as [Hc Ha].
  change (String c a ++ b) with (String c (a ++ b)). cbn [opensOperators].
  rewrite (IH b Ha Hb), andb_true_r.
  destruct (Ascii.eqb c "("); [|reflexivity].
  destruct a as [|d a]; [discriminate Hc | exact Hc].
Qed.

Lemma opensOperators_suffix a : forall b,
  opensOperators (a ++ b) = true -> opensOperators b = true.
Proof.
  induction a as [|c a IH]; intros b H; [exact H|].
  change (String c a ++ b) with (String c (a ++ b)) in H. cbn [opensOperators] in H.
  apply andb_prop in H as [_ H]. now apply IH.
Qed.

Lemma opensOperators_literal lit :
  allChars (fun c => negb (isDelimiter c)) lit = true -> opensOperators lit = true.
Proof.
  induction lit as [|c lit IH]; intros H; [reflexivity|]. simpl in H.
  apply andb_prop in H as [Hc H]. cbn [opensOperators]. rewrite (IH H), andb_true_r.
  destruct (Ascii.eqb c "(") eqn:Hopen; [|reflexivity].
  apply Ascii.eqb_eq in Hopen. subst c. discriminate Hc.
Qed.

Lemma opensOperators_concat texts :
  Forall (fun s => opensOperators s = true) texts ->
  opensOperators (String.concat " " texts) = true.
Proof.
  induction 1 as [|s l Hs Hl IH]; [reflexivity|].
  destruct l as [|s2 l]; [exact Hs|].
  change (String.concat " " (s :: s2 :: l)) with (s ++ " " ++ String.concat " " (s2 :: l)).
  apply opensOperators_app; [exact Hs|]. now apply (opensOperators_app " ").
Qed.

Lemma opensOperators_node c texts :
  classify c = Operator ->
  Forall (fun s => opensOperators s = true) texts ->
  opensOperators (String c "" ++ " " ++ String.concat " " texts ++ ")") = true.
Proof.
  intros Hc Hall.
  apply opensOperators_app.
  - simpl. destruct (Ascii.eqb c "(") eqn:Hopen; [|reflexivity].
    apply Ascii.eqb_eq in Hopen. subst c. discriminate Hc.
  - apply (opensOperators_app " "); [reflexivity|].
    apply opensOperators_app; [now apply opensOperators_concat | reflexivity].
Qed.

Lemma opensOperators_scheduleText e :
  scheduleTree e = true -> opensOperators (scheduleText e) = true.
Proof.
  induction e as [op lit i operands IH] using Expression_nested_ind.
  intros Htree. destruct (op =? "") eqn:Hop.
  - simpl in Htree |- *. rewrite Hop in *.
    apply andb_prop in Htree as [[Hlit _]%andb_prop _]. now apply opensOperators_literal.
  - apply String.eqb_neq in Hop.
    destruct (scheduleTree_node op lit i operands Hop Htree) as (Hoper & -> & Hi & Hall).
    destruct (isOperator_char op Hoper) as (c & -> & Hc).
    cbn [scheduleText]. apply String.eqb_neq in Hop. rewrite Hop.
    change ("(" ++ ?x) with (String "(" x). cbn [opensOperators]. cbn [append].
    rewrite Hc. cbn [Ascii.eqb andb]. simpl Ascii.eqb. cbv iota.
    apply (opensOperators_node c (map scheduleText operands) Hc).
    apply Forall_map. rewrite Forall_forall in IH, Hall. apply Forall_forall. auto.
Qed.

Lemma opensOperators_statementText e :
  scheduleTree e = true -> Op e <> "" -> opensOperators (statementText e) = true.
Proof.
  intros Htree Hop. destruct e as [op lit i operands]. simpl in Hop.
  destruct (scheduleTree_node op lit i operands Hop Htree) as (Hoper & -> & Hi & Hall).
  destruct (isOperator_char op Hoper) as (c & -> & Hc).
  unfold statementText. cbn [Op Expr].
  apply (opensOperators_app "(:"); [reflexivity|].
  apply (opensOperators_node c (map scheduleText operands) Hc).
  apply Forall_map. eapply Forall_impl; [exact Hall|]. apply opensOperators_scheduleText.
Qed.

(** A statement of the schedule is no constant line. *)
Lemma statementText_no_constant e :
  scheduleTree e = true -> Op e <> "" -> constRe (statementText e) = None.
Proof.
  intros Htree Hop. destruct (constRe (statementText e)) as [groups|] eqn:Hre; [|reflexivity].
  apply constRe_inv in Hre as (before & vector & name & value & rest & _ & Hname & _ & Heq).
  pose proof (opensOperators_statementText e Htree Hop) as Hopens. rewrite Heq in Hopens.
  apply opensOperators_suffix in Hopens.
  destruct name as [|k [|np digits]]; try discriminate Hname. simpl in Hname.
  apply andb_prop in Hname as [[[Hk _]%andb_prop _]%andb_prop _].
  apply Ascii.eqb_eq in Hk. subst k.
  unfold constantDefinition in Hopens. destruct vector; discriminate Hopens.
Qed.

Lemma constRe_definitionText constant :
  isDefinition constant = true ->
  constRe (definitionText constant) = Some (definitionGroups constant).
Proof.
  destruct constant as [[vector name] value]. simpl. intros [Hn Hv]%andb_prop.
  pose proof (constRe_matches "" vector name value "" eq_refl Hn Hv) as H.
  now rewrite append_nil_r in H.
Qed.

Lemma statementLines_schedule trees definitions :
  Forall isStatement trees -> Forall (fun c => isDefinition c = true) definitions ->
  statementLines (map statementText trees ++ map definitionText definitions)%list
  = map statementText trees.
Proof.
  intros Htrees Hdefs. rewrite statementLines_app.
  assert (H1 : statementLines (map statementText trees) = map statementText trees).
  { induction Htrees as [|t l [Ht Hop] _ IH]; [reflexivity|]. simpl map.
    now rewrite statementLines_cons, (statementText_no_constant t Ht Hop), IH. }
  assert (H2 : statementLines (map definitionText definitions) = []).
  { induction Hdefs as [|c l Hc _ IH]; [reflexivity|]. simpl map.
    now rewrite statementLines_cons, (constRe_definitionText c Hc). }
  now rewrite H1, H2, app_nil_r.
Qed.

Lemma groupsOf_schedule trees definitions :
  Forall isStatement trees -> Forall (fun c => isDefinition c = true) definitions ->
  groupsOf (map statementText trees ++ map definitionText definitions)%list
  = map definitionGroups definitions.
Proof.
  intros Htrees Hdefs. rewrite groupsOf_app.
  assert (H1 : groupsOf (map statementText trees) = []).
  { induction Htrees as [|t l [Ht Hop] _ IH]; [reflexivity|]. simpl map.
    now rewrite groupsOf_cons, (statementText_no_constant t Ht Hop). }
  assert (H2 : groupsOf (map definitionText definitions) = map definitionGroups definitions).
  { induction Hdefs as [|c l Hc _ IH]; [reflexivity|]. simpl map.
    now rewrite groupsOf_cons, (constRe_definitionText c Hc), IH. }
  now rewrite H1, H2.
Qed.

Lemma parseAll_schedule trees : forall acc,
  Forall isStatement trees ->
  parseAll acc (map statementText trees) = Ok (acc ++ trees)%list.
Proof.
  unfold parseAll. induction trees as [|t l IH]; intros acc Hall; simpl.
  - now rewrite app_nil_r.
  - inversion Hall as [|? ? [Ht Hop] Hl]; subst.
    pose proof (Parse_scheduleTree t "" Ht Hop) as Hparse. rewrite append_nil_r in Hparse.
    rewrite Hparse. simpl. rewrite (IH _ Hl). now rewrite <- app_assoc.
Qed.

Lemma scan_schedule trees definitions :
  Forall isStatement trees -> Forall (fun c => isDefinition c = true) definitions ->
  scan (map statementText trees ++ map definitionText definitions)%list
  = Ok (trees, map definitionGroups definitions).
Proof.
  intros Htrees Hdefs. unfold scan.
  rewrite scan_split, (statementLines_schedule _ _ Htrees Hdefs),
    (groupsOf_schedule _ _ Htrees Hdefs), (parseAll_schedule trees [] Htrees).
  reflexivity.
Qed.

Lemma constantLines_definitions definitions :
  constantLines (map definitionGroups definitions) = Ok (linesText (map goConstant definitions)).
Proof.
  unfold constantLines.
  assert (H : forall acc,
    foldM (fun source constant => l ← constantLine constant; Ok (source ++ l)) acc
          (map definitionGroups definitions)
    = Ok (acc ++ linesText (map goConstant definitions))).
  { induction definitions as [|[[vector name] value] l IH]; intros acc; simpl.
    - now rewrite append_nil_r.
    - rewrite IH. rewrite !append_assoc. do 3 f_equal. cbn [append]. do 3 f_equal.
      now rewrite append_assoc. }
  apply H.
Qed.

Lemma body_texts expressions texts :
  Forall2 (fun t s => Expression_String t = Ok s) expressions texts ->
  body expressions = Ok (linesText texts).
Proof.
  unfold body.
  assert (H : forall acc,
    Forall2 (fun t s => Expression_String t = Ok s) expressions texts ->
    foldM (fun source expr => s ← Expression_String expr; Ok (source ++ s ++ newline))
          acc expressions
    = Ok (acc ++ linesText texts)).
  { intros acc Hall. revert acc.
    induction Hall as [|t s l ls Ht _ IH]; intros acc; simpl.
    - now rewrite append_nil_r.
    - rewrite Ht. simpl. rewrite IH. now rewrite !append_assoc. }
  apply H.
Qed.

Lemma scheduleTree_renderable t : scheduleTree t = true -> renderable t = true.
Proof.
  induction t as [op lit i operands IH] using Expression_nested_ind. intros Htree.
  destruct (op =? "") eqn:Hop; [simpl; now rewrite Hop|].
  apply String.eqb_neq in Hop.
  destruct (scheduleTree_node op lit i operands Hop Htree) as (_ & _ & Hi & Hall).
  apply String.eqb_neq in Hop. cbn [renderable]. rewrite Hop. cbn [orb].
  apply andb_true_intro. split.
  - destruct operands as [|e l]; [discriminate Hi|]. simpl. now rewrite andb_false_r.
  - apply forallb_forall. intros x Hx. apply list_elem_of_In in Hx.
    rewrite Forall_forall in IH, Hall. auto.
Qed.

Lemma texts_renderable expressions :
  Forall (fun t => renderable t = true) expressions ->
  exists texts, Forall2 (fun t s => Expression_String t = Ok s) expressions texts.
Proof.
  induction 1 as [|t l Ht _ [texts IH]]; [exists []; constructor|].
  pose proof (proj1 (stringHelper_rendered t) 0) as Hr. unfold rendered in Hr.
  destruct (stringHelper 0 t) as [s|p] eqn:Hs; [|destruct Hr; congruence].
  exists (s :: texts). now constructor.
Qed.

(** X13. main on a schedule. The input holds the statements of a schedule,
    one per line, and then the definitions of its constants; the
    first statement has a second operand and the indexed literals have
    base names of two characters. Then main reaches the call of the Go
    formatter without a panic, and the text it hands over is: the package
    clause; the constant N, one more than the largest index; the constant
    block, which opens with I and lists the constants as name = value in
    the order of the input; the signature; the statements, rendered in
    the order of the input, one per line; the closing brace. Whether the
    formatter accepts the text is not part of [main] here. *)
Theorem main_schedule first rest definitions :
  Forall (fun t => scheduleTree t = true /\ Op t <> "") (first :: rest) ->
  Forall (fun t => twoLetterIndices t = true) (first :: rest) ->
  2 <= length (Expr first) ->
  Forall (fun c => isDefinition c = true) definitions ->
  exists operand texts,
    Expr first !! 1 = Some operand
    /\ Forall2 (fun t s => Expression_String t = Ok s) (first :: rest) texts
    /\ main (map statementText (first :: rest) ++ map definitionText definitions)%list
       = Ok ("package dft" ++ newline
             ++ "const N = " ++ decimal (programMaxIndex (first :: rest) + 1) ++ newline ++ newline
             ++ "const (" ++ newline
             ++ "I = 1i" ++ newline
             ++ linesText (map goConstant definitions)
             ++ ")" ++ newline
             ++ (if Lit operand =? "xi[0]" then complexSignature else realSignature)
             ++ linesText texts
             ++ "}").
Proof.
  intros Htrees Hindices Hlen Hdefs.
  destruct (lookup_lt_is_Some_2 (Expr first) 1) as [operand Hoperand]; [lia|].
  destruct (texts_renderable (first :: rest)) as [texts Htexts].
  { eapply Forall_impl; [exact Htrees|]. intros t [Ht _]. now apply scheduleTree_renderable. }
  exists operand, texts. split; [assumption|]. split; [assumption|].
  unfold main. rewrite (scan_schedule (first :: rest) definitions Htrees Hdefs).
  cbn [mbind result_bind].
  rewrite (kernelSize_maxIndex (first :: rest)) by (auto; discriminate).
  cbn [mbind result_bind]. rewrite constantLines_definitions. cbn [mbind result_bind].
  unfold signature, index. cbn [lookup list_lookup mbind result_bind]. rewrite Hoperand.
  cbn [mbind result_bind]. rewrite (body_texts _ _ Htexts). reflexivity.
Qed.

Lemma main_schedule_witness :
  exists operand texts,
    Expr (node "=" [leaf "T1"; leaf "xi[0]"]) !! 1 = Some operand
    /\ Forall2 (fun t s => Expression_String t = Ok s)
         [node "=" [leaf "T1"; leaf "xi[0]"];
          node "=" [leaf "xo[1]"; node "+" [leaf "T1"; node "-" [leaf "xi[1]"]]]]
         texts
    /\ main (map statementText
               [node "=" [leaf "T1"; leaf "xi[0]"];
                node "=" [leaf "xo[1]"; node "+" [leaf "T1"; node "-" [leaf "xi[1]"]]]]
             ++ map definitionText [(false, "KP5", "+0.5")])%list
       = Ok ("package dft" ++ newline
             ++ "const N = "
             ++ decimal (programMaxIndex
                           [node "=" [leaf "T1"; leaf "xi[0]"];
                            node "=" [leaf "xo[1]";
                                      node "+" [leaf "T1"; node "-" [leaf "xi[1]"]]]] + 1)
             ++ newline ++ newline
             ++ "const (" ++ newline
             ++ "I = 1i" ++ newline
             ++ linesText (map goConstant [(false, "KP5", "+0.5")])
             ++ ")" ++ newline
             ++ (if Lit operand =? "xi[0]" then complexSignature else realSignature)
             ++ linesText texts
             ++ "}").
Proof.
  apply (main_schedule
           (node "=" [leaf "T1"; leaf "xi[0]"])
           [node "=" [leaf "xo[1]"; node "+" [leaf "T1"; node "-" [leaf "xi[1]"]]]]
           [(false, "KP5", "+0.5")]).
  - repeat constructor; discriminate.
  - repeat constructor.
  - simpl. lia.
  - repeat constructor.
Defined.

(** ** genfft.go: closing parentheses at the end of a line *)

Lemma parseLoop_idx line : forall idx expr,
  parseLoop line idx expr = (r ← parseLoop line 0 expr; Ok (fst r, idx + snd r)).
Proof.
  remember (String.length line) as len eqn:Hlen.
  revert line Hlen. induction len as [len IH] using lt_wf_ind.
  intros [|c rest] Hlen idx expr.
  - rewrite !parseLoop_equation_1. simpl. now rewrite Nat.add_0_r.
  - simpl in Hlen.
    assert (IHrest : forall line', String.length line' <= String.length rest ->
              forall idx expr,
              parseLoop line' idx expr = (r ← parseLoop line' 0 expr; Ok (fst r, idx + snd r))).
    { intros line' Hle. apply (IH (String.length line')); [lia | reflexivity]. }
    assert (Hshift : forall line' i e,
              String.length line' <= String.length rest ->
              parseLoop line' (idx + i) e
              = (r ← parseLoop line' (0 + i) e; Ok (fst r, idx + snd r))).
    { intros line' i e Hle. rewrite (IHrest line' Hle (idx + i)), (IHrest line' Hle (0 + i)).
      destruct (parseLoop line' 0 e) as [[e' m]|p]; simpl; [|reflexivity].
      do 2 f_equal. lia. }
    rewrite !parseLoop_cons. destruct (classify c).
    + destruct (index (Expr expr) (OpIdx expr)) as [child|p]; simpl; [|reflexivity].
      destruct (parseLoop rest 0 (appendOperand child)) as [[child' n]|p]; simpl; [|reflexivity].
      replace (idx + n + 1) with (idx + (n + 1)) by lia.
      apply (Hshift (skip n rest) (n + 1)). apply skip_length.
    + now apply Hshift.
    + apply Hshift. apply skip_length.
    + now apply Hshift.
    + simpl. reflexivity.
    + destruct (index (Expr expr) (OpIdx expr)) as [child|p]; simpl; [|reflexivity].
      now apply (Hshift rest 1).
Qed.

Lemma skip_app_le n : forall a b,
  n <= String.length a -> skip n (a ++ b) = skip n a ++ b.
Proof.
  induction n as [|n IH]; intros [|c a] b H; simpl in *; try reflexivity; try lia.
  apply IH. lia.
Qed.

Lemma skip_all n : forall s, String.length s <= n -> skip n s = "".
Proof.
  induction n as [|n IH]; intros [|c s] H; simpl in *; try reflexivity; try lia.
  apply IH. lia.
Qed.

Lemma skip_length_eq n : forall s, String.length (skip n s) = String.length s - n.
Proof. induction n as [|n IH]; intros [|c s]; simpl; try lia. apply IH. Qed.

Lemma scanning_nextOperand expr : scanning expr -> scanning (nextOperand expr).
Proof.
  intros [Hi Hall]. unfold scanning, nextOperand. simpl. rewrite length_app. simpl.
  split; [lia|]. apply Forall_app. split; [assumption | now repeat constructor].
Qed.

(** From the outcomes at index zero to the outcomes at an index. *)
Lemma closes_shift line line' expr e k k' i :
  line' = line ++ ")" ->
  parseLoop line 0 expr = Ok (e, k) -> parseLoop line' 0 expr = Ok (e, k') ->
  parseLoop line i expr = Ok (e, i + k) /\ parseLoop line' i expr = Ok (e, i + k').
Proof.
  intros -> H H'. rewrite (parseLoop_idx line i), (parseLoop_idx (line ++ ")") i), H, H'.
  split; reflexivity.
Qed.

Ltac closes_with tac :=
  split; [reflexivity | split; [reflexivity | split; [try assumption | tac]]].

(** A closing parenthesis after the text changes no tree. *)
Lemma parseLoop_closes line : forall expr, scanning expr -> closes line expr.
Proof.
  remember (String.length line) as len eqn:Hlen.
  revert line Hlen. induction len as [len IH] using lt_wf_ind.
  intros [|c rest] Hlen expr Hs.
  - exists expr, 0, 1. simpl. rewrite parseLoop_equation_1, parseLoop_cons. simpl.
    closes_with ltac:(right; lia).
  - simpl in Hlen.
    assert (IHrest : forall line', String.length line' <= String.length rest ->
              forall expr, scanning expr -> closes line' expr).
    { intros line' Hle. apply (IH (String.length line')); [lia | reflexivity]. }
    assert (Hstep : forall line' i expr',
              String.length line' <= String.length rest -> 1 <= i ->
              String.length rest + 1 <= String.length line' + i ->
              scanning expr' ->
              exists e k k',
                parseLoop line' i expr' = Ok (e, k)
                /\ parseLoop (line' ++ ")") i expr' = Ok (e, k')
                /\ scanning e
                /\ ((k' = k /\ k <= S (String.length rest))
                    \/ (S (String.length rest) <= k /\ S (String.length rest) < k'))).
    { intros line' i expr' Hle Hi Hfull Hs'.
      destruct (IHrest line' Hle expr' Hs') as (e & k & k' & H & H' & Hse & Hk).
      destruct (closes_shift line' _ expr' e k k' i eq_refl H H') as [-> ->].
      exists e, (i + k), (i + k'). closes_with ltac:(lia). }
    unfold closes. change (String c rest ++ ")") with (String c (rest ++ ")")).
    rewrite !parseLoop_cons. simpl String.length. destruct (classify c) eqn:Hc.
    + destruct (scanning_index expr Hs) as (child & -> & Hchild). simpl.
      destruct (IHrest rest (le_n _) (appendOperand child) (scanning_appendOperand _ Hchild))
        as (child' & n & n' & -> & -> & Hs' & Hn). simpl.
      assert (Hset : scanning (setOperand expr child')).
      { apply scanning_setOperand; [assumption | now apply scanning_cursorOk]. }
      destruct Hn as [[-> Hn] | [Hn Hn']].
      * rewrite (skip_app_le n rest ")" Hn).
        destruct (IHrest (skip n rest) (skip_length _ _) _ Hset)
          as (e & k & k' & H & H' & Hse & Hk).
        destruct (closes_shift (skip n rest) _ _ e k k' (n + 1) eq_refl H H') as [-> ->].
        exists e, (n + 1 + k), (n + 1 + k').
        rewrite skip_length_eq in Hk. closes_with ltac:(lia).
      * rewrite (skip_all n rest Hn), (skip_all n' (rest ++ ")"))
          by (rewrite length_append; simpl; lia).
        rewrite !parseLoop_equation_1.
        exists (setOperand expr child'), (n + 1), (n' + 1). closes_with ltac:(right; lia).
    + apply (Hstep rest 1 expr); [lia | lia | lia | assumption].
    + destruct rest as [|d rest'].
      * simpl. rewrite !parseLoop_equation_1.
        exists (setOp expr (String c "")), 2, 2.
        split; [reflexivity | split; [reflexivity | split; [exact Hs | right; simpl; lia]]].
      * simpl skip. simpl String.length.
        apply (Hstep rest' 2 (setOp expr (String c "")));
          [simpl; lia | lia | simpl; lia | exact Hs].
    + apply (Hstep rest 1 (nextOperand expr)); [lia | lia | lia |].
      now apply scanning_nextOperand.
    + exists expr, 1, 1. closes_with ltac:(left; lia).
    + destruct (scanning_index expr Hs) as (child & -> & Hchild). simpl.
      apply (Hstep rest 1); [lia | lia | lia |].
      apply scanning_setOperand; [assumption|]. destruct child as [cop clit ci cl]. exact Hchild.
Qed.

Lemma Parse_close line :
  2 <= String.length line -> Parse newExpression (line ++ ")") = Parse newExpression line.
Proof.
  intros Hlen. unfold Parse, parse.
  assert (H1 : (2 <=? String.length line)%nat = true) by now apply Nat.leb_le.
  assert (H2 : (2 <=? String.length (line ++ ")"))%nat = true)
    by (apply Nat.leb_le; rewrite length_append; lia).
  rewrite H1, H2, (skip_app_le 2 line ")" Hlen).
  destruct (parseLoop_closes (skip 2 line) (appendOperand newExpression))
    as (e & k & k' & -> & -> & _); [now apply scanning_appendOperand | reflexivity].
Qed.

Lemma Parse_closings_any n : forall line,
  2 <= String.length line -> Parse newExpression (line ++ closings n) = Parse newExpression line.
Proof.
  induction n as [|n IH]; intros line Hlen; simpl.
  - now rewrite append_nil_r.
  - change (String ")" (closings n)) with (")" ++ closings n).
    rewrite <- append_assoc, IH by (rewrite length_append; lia). now apply Parse_close.
Qed.

(** X14. Closing parentheses at the end of a line change nothing: a line of
    two characters or more and the same line followed by any number of
    closing parentheses parse to the same tree. So a line that lacks
    closing parentheses at its end is read as the completed line, and a
    line with too many as the line without them. *)
Theorem Parse_closings line n :
  2 <= String.length line -> Parse newExpression (line ++ closings n) = Parse newExpression line.
Proof. apply Parse_closings_any. Qed.

Lemma Parse_closings_witness :
  Parse newExpression ("(:= xo[1] (+ T1 (- xi[1]" ++ closings 3)
  = Parse newExpression "(:= xo[1] (+ T1 (- xi[1]".
Proof. apply (Parse_closings "(:= xo[1] (+ T1 (- xi[1]" 3). simpl. lia. Defined.

(** ** The participle-based generator: the constants of the C text *)

Lemma substring_append_l a : forall b, substring 0 (String.length a) (a ++ b) = a.
Proof.
  induction a as [|c a IH]; intros b; simpl.
  - now destruct b.
  - now rewrite IH.
Qed.

Lemma substring_append_r a : forall b, substring (String.length a) (String.length b) (a ++ b) = b.
Proof.
  induction a as [|c a IH]; intros b; simpl; [|apply IH].
  induction b as [|d b IHb]; simpl; [reflexivity | now rewrite IHb].
Qed.

Lemma substring_split n : forall s,
  n <= String.length s -> s = substring 0 n s ++ substring n (String.length s - n) s.
Proof.
  induction n as [|n IH]; intros s Hn.
  - rewrite Nat.sub_0_r. replace (substring 0 0 s) with "" by now destruct s.
    simpl. clear Hn. induction s as [|c s IHs]; simpl; [reflexivity | now rewrite <- IHs].
  - destruct s as [|c s]; simpl in *; [lia|]. f_equal. apply IH. lia.
Qed.

Lemma HasSuffix_split s suffix :
  HasSuffix s suffix = true ->
  s = substring 0 (String.length s - String.length suffix) s ++ suffix.
Proof.
  unfold HasSuffix. intros [Hlen Heq]%andb_prop.
  apply Nat.leb_le in Hlen. apply String.eqb_eq in Heq.
  rewrite (substring_split (String.length s - String.length suffix) s) at 1 by lia.
  f_equal. rewrite <- Heq at 3. f_equal. lia.
Qed.

Lemma HasSuffix_append a suffix : HasSuffix (a ++ suffix) suffix = true.
Proof.
  unfold HasSuffix. rewrite length_append.
  replace (String.length a + String.length suffix - String.length suffix)
    with (String.length a) by lia.
  rewrite substring_append_r, String.eqb_refl, andb_true_r. apply Nat.leb_le. lia.
Qed.

Lemma cutComma_Some s : forall before after,
  P.cutComma s = Some (before, after) ->
  s = before ++ ", " ++ after /\ P.cutComma before = None.
Proof.
  induction s as [|c s IH]; intros before after H; [discriminate|].
  cbn [P.cutComma] in H.
  destruct (Ascii.eqb c "," && match s with String d _ => Ascii.eqb d " " | "" => false end)
    eqn:Hc.
  - injection H as <- <-. apply andb_prop in Hc as [Hc Hd]. apply Ascii.eqb_eq in Hc. subst c.
    destruct s as [|d s]; [discriminate|]. apply Ascii.eqb_eq in Hd. subst d.
    split; reflexivity.
  - destruct (P.cutComma s) as [[b a]|] eqn:Hs; [|discriminate]. simpl in H.
    injection H as <- <-. destruct (IH b a eq_refl) as [-> Hb]. split; [reflexivity|].
    cbn [P.cutComma]. rewrite Hb.
    destruct b as [|d b].
    + now rewrite andb_false_r.
    + simpl in Hc. now rewrite Hc.
Qed.

Lemma cutComma_app before : forall after,
  P.cutComma before = None -> P.cutComma (before ++ ", " ++ after) = Some (before, after).
Proof.
  induction before as [|c b IH]; intros after H; [reflexivity|].
  cbn [P.cutComma] in H.
  destruct (Ascii.eqb c "," && match b with String d _ => Ascii.eqb d " " | "" => false end)
    eqn:Hc; [discriminate|].
  destruct (P.cutComma b) as [[x y]|] eqn:Hb; [discriminate|].
  change (String c b ++ ", " ++ after) with (String c (b ++ ", " ++ after)).
  cbn [P.cutComma]. rewrite (IH after eq_refl). simpl.
  destruct b as [|d b]; simpl in *.
  - now rewrite andb_false_r.
  - now rewrite Hc.
Qed.

Lemma span_space_definition space vector name value :
  allChars P.isSpace space = true ->
  span P.isSpace (space ++ constantDefinition vector name value)
  = (space, constantDefinition vector name value).
Proof. intros H. apply span_app; [assumption | now destruct vector]. Qed.

(** The lines of the C text that give a constant, and the constant they
    give. *)
Lemma constRe_definesConstant line name value :
  P.constRe line = Some (name, value) <-> P.definesConstant line name value.
Proof.
  split.
  - unfold P.constRe. intros H.
    destruct (span P.isSpace line) as [space s] eqn:Hspan.
    apply span_split in Hspan as [-> Hspace].
    destruct (stripPrefix "D" s) as [s1|] eqn:H1; [|discriminate]. simpl in H.
    apply stripPrefix_Some in H1. subst s.
    assert (Hv : exists (vector : bool) s2, s1 = (if vector then "V" else "") ++ s2
                                             /\ default s1 (stripPrefix "V" s1) = s2).
    { destruct (stripPrefix "V" s1) as [s2|] eqn:Hv.
      - apply stripPrefix_Some in Hv. exists true, s2. now split.
      - exists false, s1. now split. }
    destruct Hv as (vector & s2 & -> & Hdef). rewrite Hdef in H. clear Hdef.
    destruct (stripPrefix "K(" s2) as [s3|] eqn:H3; [|discriminate]. simpl in H.
    apply stripPrefix_Some in H3. subst s2.
    destruct (P.cutComma s3) as [[name' rest]|] eqn:Hcut; [|discriminate]. simpl in H.
    apply cutComma_Some in Hcut as [-> Hname].
    destruct (HasSuffix rest ");") eqn:Hsuffix; [|discriminate].
    destruct (allChars P.isDot name') eqn:Hdot1; [|discriminate].
    destruct (allChars P.isDot _) eqn:Hdot2 in H; [|discriminate].
    injection H as <- <-. apply HasSuffix_split in Hsuffix. simpl String.length in Hsuffix.
    exists space, vector. repeat split; try assumption.
    unfold constantDefinition. rewrite Hsuffix at 1. destruct vector; reflexivity.
  - intros (space & vector & Hspace & -> & Hname & Hdot1 & Hdot2).
    unfold P.constRe. rewrite (span_space_definition _ _ _ _ Hspace).
    assert (Hstrip : (s ← stripPrefix "D" (constantDefinition vector name value);
                      s ← Some (default s (stripPrefix "V" s));
                      stripPrefix "K(" s) = Some (name ++ ", " ++ value ++ ");")).
    { unfold constantDefinition. destruct vector; simpl.
      - change (String "K" (String "(" ?x)) with ("K(" ++ x). apply stripPrefix_app.
      - change (String "K" (String "(" ?x)) with ("K(" ++ x). apply stripPrefix_app. }
    destruct (stripPrefix "D" (constantDefinition vector name value)) as [s1|]; [|discriminate].
    simpl in Hstrip |- *.
    destruct (stripPrefix "K(" (default s1 (stripPrefix "V" s1))) as [s3|]; [|discriminate].
    injection Hstrip as ->. cbn [mbind option_bind].
    pose proof (cutComma_app name (value ++ ");") Hname) as Hcut. cbn [append] in Hcut.
    rewrite Hcut. cbn [mbind option_bind].
    rewrite HasSuffix_append, Hdot1. rewrite length_append. simpl String.length.
    replace (String.length value + 2 - 2) with (String.length value) by lia.
    rewrite substring_append_l, Hdot2. reflexivity.
Qed.

(** X15. A line of the C text gives a constant exactly when it is white
    space, then the macro DK or DVK applied to a name and a value
    separated by a comma and a space, then a semicolon and nothing more;
    the name is the text before the first comma followed by a space, and
    neither the name nor the value holds a newline. The constant has that
    name and that value. *)
Theorem constRe_whole_line line name value :
  P.constRe line = Some (name, value) <->
  exists space vector,
    allChars P.isSpace space = true
    /\ line = space ++ constantDefinition vector name value
    /\ P.cutComma name = None
    /\ allChars P.isDot name = true
    /\ allChars P.isDot value = true.
Proof. apply constRe_definesConstant. Qed.

Lemma allChars_impl (p q : ascii -> bool) s :
  (forall c, p c = true -> q c = true) -> allChars p s = true -> allChars q s = true.
Proof.
  intros Hpq. induction s as [|c s IH]; simpl; [reflexivity|].
  intros [Hc Hs]%andb_prop. now rewrite (Hpq c Hc), IH.
Qed.

Lemma not_char (p : ascii -> bool) (x : ascii) :
  p x = false -> forall c, p c = true -> negb (Ascii.eqb c x) = true.
Proof.
  intros Hx c Hc. destruct (Ascii.eqb c x) eqn:H; [|reflexivity].
  apply Ascii.eqb_eq in H. congruence.
Qed.

Lemma isDot_char (p : ascii -> bool) :
  p (ascii_of_nat 10) = false -> forall c, p c = true -> P.isDot c = true.
Proof.
  intros Hx c Hc. unfold P.isDot. destruct (nat_of_ascii c =? 10)%nat eqn:H; [|reflexivity].
  apply Nat.eqb_eq in H. pose proof (ascii_nat_embedding c) as Hemb. rewrite H in Hemb.
  congruence.
Qed.

Lemma cutComma_no_comma s :
  allChars (fun c => negb (Ascii.eqb c ",")) s = true -> P.cutComma s = None.
Proof.
  induction s as [|c s IH]; simpl; [reflexivity|]. intros [Hc Hs]%andb_prop.
  apply negb_true_iff in Hc. now rewrite Hc, (IH Hs).
Qed.

Lemma isConstantName_chars name :
  isConstantName name = true ->
  allChars (fun c => isNameChar c || Ascii.eqb c "K" || Ascii.eqb c "N" || Ascii.eqb c "P") name
  = true.
Proof.
  intros H. destruct name as [|k [|np digits]]; try discriminate H. simpl in H.
  apply andb_prop in H as [[[Hk Hnp]%andb_prop _]%andb_prop Hdigits].
  cbn [allChars]. apply andb_true_intro. split; [|apply andb_true_intro; split].
  - rewrite Hk. now rewrite orb_true_r.
  - apply orb_prop in Hnp as [Hnp|Hnp]; rewrite Hnp; now rewrite ?orb_true_r.
  - eapply allChars_impl; [|exact Hdigits]. intros c ->. reflexivity.
Qed.

Lemma isConstantValue_chars value :
  isConstantValue value = true ->
  allChars (fun c => isValueChar c || Ascii.eqb c "+" || Ascii.eqb c "-") value = true.
Proof.
  intros H. destruct value as [|sign number]; [discriminate H|]. simpl in H.
  apply andb_prop in H as [[Hsign _]%andb_prop Hnumber].
  cbn [allChars]. apply andb_true_intro. split.
  - apply orb_prop in Hsign as [Hsign|Hsign]; rewrite Hsign; now rewrite ?orb_true_r.
  - eapply allChars_impl; [|exact Hnumber]. intros c ->. reflexivity.
Qed.

(** X16. The two generators read the same constant from the definition of a
    constant that fills a line: for a name made of K, N or P, digits and
    underscores and a value made of a sign, digits and points, after any
    white space, the expression of genfft.go gives the groups name and
    value and the expression of the participle-based main gives the
    constant of that name and that value. *)
Theorem constRe_agree space vector name value :
  allChars P.isSpace space = true ->
  isConstantName name = true -> isConstantValue value = true ->
  constRe (space ++ constantDefinition vector name value) = Some [name; value]
  /\ P.constRe (space ++ constantDefinition vector name value) = Some (name, value).
Proof.
  intros Hspace Hname Hvalue. split.
  - pose proof (constRe_matches space vector name value "") as H.
    rewrite append_nil_r in H. apply H; try assumption.
    eapply allChars_impl; [|exact Hspace]. apply not_char. reflexivity.
  - apply constRe_definesConstant. exists space, vector.
    apply isConstantName_chars in Hname. apply isConstantValue_chars in Hvalue.
    repeat split; try assumption.
    + apply cutComma_no_comma. eapply allChars_impl; [|exact Hname]. apply not_char. reflexivity.
    + eapply allChars_impl; [|exact Hname]. apply isDot_char. reflexivity.
    + eapply allChars_impl; [|exact Hvalue]. apply isDot_char. reflexivity.
Qed.

Lemma constRe_agree_witness :
  constRe ("  " ++ constantDefinition false "KP866025403" "+0.866025403784438646763723170752")
  = Some ["KP866025403"; "+0.866025403784438646763723170752"]
  /\ P.constRe ("  " ++ constantDefinition false "KP866025403" "+0.866025403784438646763723170752")
     = Some ("KP866025403", "+0.866025403784438646763723170752").
Proof.
  apply (constRe_agree "  " false "KP866025403" "+0.866025403784438646763723170752");
    reflexivity.
Defined.

(** ** genfft.go: the increment of the transform length *)

(** X17. TransformLength adds one to the largest index in unsigned 64 bit
    arithmetic: the result is the index plus one, except for the largest
    unsigned value, for which it is zero. It fails exactly when the
    computation of the index does. *)
Theorem TransformLength_wraps expr :
  match TransformLength expr with
  | Ok size =>
      exists n, transformLength expr = Ok n
                /\ ((n < uint_modulus - 1 /\ size = n + 1)
                    \/ (n = uint_modulus - 1 /\ size = 0))%Z
  | Panic _ => hasBadIndex expr = true
  end.
Proof.
  unfold TransformLength. destruct (hasBadIndex expr) eqn:Hbad.
  - destruct (transformLength_bad expr Hbad) as [p ->]. reflexivity.
  - destruct (transformLength_good expr Hbad) as (n & -> & Hn). simpl.
    exists n. split; [reflexivity|]. unfold isUint in Hn.
    destruct (Z.eq_dec n (uint_modulus - 1)%Z) as [->|Hne].
    + right. split; [reflexivity|]. replace (uint_modulus - 1 + 1)%Z with uint_modulus by lia.
      apply Z.mod_same. discriminate.
    + left. split; [lia|]. apply Z.mod_small. lia.
Qed.

(** ** genfft.go: no plus followed by a minus *)

Lemma startsWith_app c a b : a <> "" -> startsWith c (a ++ b) = startsWith c a.
Proof. destruct a; [congruence | reflexivity]. Qed.

Lemma endsWith_app c a : forall b, b <> "" -> endsWith c (a ++ b) = endsWith c b.
Proof.
  induction a as [|d a IH]; intros b Hb; [reflexivity|].
  change (String d a ++ b) with (String d (a ++ b)). cbn [endsWith].
  rewrite (IH b Hb). destruct (a ++ b) eqn:Hab; [|reflexivity].
  destruct a; simpl in Hab; [congruence | discriminate].
Qed.

Lemma append_nonempty a b : a <> "" -> a ++ b <> "".
Proof. destruct a; [congruence | discriminate]. Qed.

Lemma plusMinus_app a : forall b,
  plusMinus (a ++ b) = plusMinus a || plusMinus b || (endsWith "+" a && startsWith "-" b).
Proof.
  induction a as [|c a IH]; intros b.
  - simpl. now rewrite orb_false_r.
  - change (String c a ++ b) with (String c (a ++ b)). cbn [plusMinus endsWith].
    rewrite IH. destruct a as [|d a].
    + simpl. destruct (Ascii.eqb c "+"), (startsWith "-" b), (plusMinus b); reflexivity.
    + simpl. destruct (Ascii.eqb c "+" && Ascii.eqb d "-"), (plusMinus (String d a)),
        (plusMinus b), (endsWith "+" (String d a) && startsWith "-" b); reflexivity.
Qed.

Lemma plain_app a b : plain a -> plain b -> plain (a ++ b).
Proof.
  intros (Ha & Hna & Hea) (Hb & Hnb & Heb). repeat split.
  - now rewrite plusMinus_app, Ha, Hb, Hea.
  - now apply append_nonempty.
  - now rewrite endsWith_app.
Qed.

Lemma plain_app_empty a b : plain a -> b = "" \/ plain b -> plain (a ++ b).
Proof. intros Ha [-> | Hb]; [now rewrite append_nil_r | now apply plain_app]. Qed.

Lemma plain_operator op r :
  isEmitted op -> plain r -> (op = "+" -> startsWith "-" r = false) -> plain (op ++ r).
Proof.
  intros Hop (Hr & Hn & He) Hplus. repeat split.
  - rewrite plusMinus_app, Hr.
    destruct Hop as [-> | [-> | [-> | [-> | ->]]]]; simpl; try reflexivity.
    now rewrite Hplus.
  - destruct Hop as [-> | [-> | [-> | [-> | ->]]]]; discriminate.
  - now rewrite endsWith_app.
Qed.

Lemma plain_parenthesize r : plain r -> plain (parenthesize r).
Proof.
  intros (Hr & Hn & He). unfold parenthesize. repeat split.
  - change ("(" ++ r ++ ")") with (String "(" (r ++ ")")). cbn [plusMinus].
    rewrite plusMinus_app, Hr, He. reflexivity.
  - discriminate.
  - change ("(" ++ r ++ ")") with ("(" ++ (r ++ ")")).
    rewrite endsWith_app by now apply append_nonempty. now rewrite endsWith_app.
Qed.

Lemma plain_literal lit :
  lit <> "" -> allChars (fun c => negb (isDelimiter c)) lit = true ->
  plain lit /\ startsWith "-" lit = false.
Proof.
  intros Hne Hall.
  assert (Hchar : forall c, negb (isDelimiter c) = true ->
                            Ascii.eqb c "+" = false /\ Ascii.eqb c "-" = false).
  { intros c Hc. split.
    - destruct (Ascii.eqb c "+") eqn:H; [|reflexivity]. apply Ascii.eqb_eq in H. now subst c.
    - destruct (Ascii.eqb c "-") eqn:H; [|reflexivity]. apply Ascii.eqb_eq in H. now subst c. }
  repeat split; try assumption.
  - clear Hne. induction lit as [|c lit IH]; [reflexivity|]. simpl in Hall.
    apply andb_prop in Hall as [Hc Hall]. cbn [plusMinus].
    now rewrite (proj1 (Hchar c Hc)), IH.
  - clear Hne. induction lit as [|c lit IH]; [reflexivity|]. simpl in Hall.
    apply andb_prop in Hall as [Hc Hall]. cbn [endsWith].
    destruct lit; [apply (Hchar c Hc) | now apply IH].
  - destruct lit as [|c lit]; [reflexivity|]. simpl in Hall.
    apply andb_prop in Hall as [Hc _]. apply (Hchar c Hc).
Qed.

(** The operands after the first: nothing, or a plain text. *)
Lemma operandsLoop_plain f op operands : forall i rs,
  isEmitted op ->
  Forall (fun e => (forall r, f e = Ok r ->
                               plain r /\ (op = "+" -> startsWith "-" r = false))
                   /\ Forall (fun inner => forall r, f inner = Ok r -> plain r) (Expr e))
         operands ->
  operandsLoop f op (S i) operands = Ok rs -> rs = "" \/ plain rs.
Proof.
  induction operands as [|e rest IH]; intros i rs Hop Hall H; simpl in H.
  - injection H as <-. now left.
  - inversion Hall as [|? ? [He Hin] Hrest]; subst.
    inv_bind H as piece Hpiece. inv_bind H as rs' Hrs. injection H as <-.
    right. apply plain_app_empty; [|exact (IH _ _ Hop Hrest Hrs)].
    destruct ((op =? "+") && IsUnary e && (Op e =? "-")) eqn:Hfold.
    + apply andb_prop in Hfold as [[_ Hun]%andb_prop _].
      destruct e as [eop elit ei [|inner [|x more]]]; try discriminate Hun.
      inv_bind Hpiece as r Hr. injection Hpiece as <-.
      simpl in Hin. inversion Hin as [|? ? Hinner _]; subst.
      apply (plain_operator "-"); [unfold isEmitted; auto | now apply Hinner | discriminate].
    + inv_bind Hpiece as r Hr. injection Hpiece as <-.
      destruct (He r Hr) as [Hplain Hstart]. now apply plain_operator.
Qed.

Lemma scheduleTree_operands e :
  scheduleTree e = true -> wellFormed e = true ->
  Forall (fun x => scheduleTree x = true /\ wellFormed x = true) (Expr e).
Proof.
  destruct e as [op lit i operands]. intros Htree Hwf. cbn [Expr].
  destruct (op =? "") eqn:Hop.
  - simpl in Htree. rewrite Hop in Htree.
    apply andb_prop in Htree as [_ Hlen]. apply Nat.eqb_eq, nil_length_inv in Hlen.
    subst operands. constructor.
  - apply String.eqb_neq in Hop.
    destruct (scheduleTree_node op lit i operands Hop Htree) as (_ & _ & _ & Hall).
    destruct (wellFormed_operands op lit i operands Hop Hwf) as [_ Hwfs].
    rewrite Forall_forall in Hall, Hwfs. apply Forall_forall. auto.
Qed.

Lemma isOperator_cases op :
  isOperator op = true -> op = "=" \/ op = "+" \/ op = "-" \/ op = "*".
Proof.
  unfold isOperator. intros H.
  repeat (apply orb_prop in H as [H|H]); apply String.eqb_eq in H; auto.
Qed.

(** The operator String writes for a node of the notation. *)
Lemma emitted_operator op operands op' :
  isOperator op = true ->
  (if op =? "=" then
     match operands with
     | [] => Panic IndexOutOfRange
     | target :: _ => Ok (if HasPrefix (Lit target) "T" then ":=" else op)
     end
   else Ok op) = Ok op' ->
  isEmitted op' /\ (op' = "+" -> op = "+").
Proof.
  intros Hop H. unfold isEmitted.
  destruct (isOperator_cases op Hop) as [-> | [-> | [-> | ->]]]; simpl in H.
  - destruct operands as [|target l]; [discriminate|].
    destruct (HasPrefix (Lit target) "T"); injection H as <-; split; auto; discriminate.
  - injection H as <-. auto.
  - injection H as <-. split; auto; discriminate.
  - injection H as <-. split; auto 6; discriminate.
Qed.

Lemma operandsLoop_first f op first rest :
  operandsLoop f op 0 (first :: rest) =
  (r ← f first; rs ← operandsLoop f op 1 rest; Ok (r ++ rs)).
Proof. reflexivity. Qed.

(** The text of a node before its parentheses. *)
Lemma body_plain d op' operands body :
  isEmitted op' -> (op' = "+" -> 1 <= d) -> operands <> [] ->
  Forall (fun e => scheduleTree e = true /\ wellFormed e = true) operands ->
  Forall (fun e => plainBelow e /\ Forall plainBelow (Expr e)) operands ->
  match operands with
  | [operand] => r ← stringHelper (S d) operand; Ok (op' ++ r)
  | _ => operandsLoop (stringHelper (S d)) op' 0 operands
  end = Ok body ->
  plain body.
Proof.
  intros Hop Hplus Hne Hok Hall H.
  assert (Hoperand : forall e, e ∈ operands -> forall r,
             stringHelper (S d) e = Ok r ->
             plain r /\ (op' = "+" -> startsWith "-" r = false)).
  { intros e He r Hr. rewrite Forall_forall in Hok, Hall.
    destruct (Hok e He) as [Htree Hwf]. destruct (Hall e He) as [Hbelow _].
    destruct (Hbelow Htree Hwf (S d) r) as [Hplain Hstart]; [lia | assumption |].
    split; [assumption|]. intros Hp. specialize (Hplus Hp).
    destruct (startsWith "-" r); [|reflexivity]. specialize (Hstart eq_refl). lia. }
  assert (Hinner : forall e, e ∈ operands ->
             Forall (fun inner => forall r, stringHelper (S d) inner = Ok r -> plain r) (Expr e)).
  { intros e He. rewrite Forall_forall in Hok, Hall.
    destruct (Hok e He) as [Htree Hwf]. destruct (Hall e He) as [_ Hin].
    pose proof (scheduleTree_operands e Htree Hwf) as Hsub.
    rewrite Forall_forall in Hin, Hsub. apply Forall_forall. intros inner Hi r Hr.
    destruct (Hsub inner Hi) as [Ht Hw].
    destruct (Hin inner Hi Ht Hw (S d) r) as [Hplain _]; [lia | assumption | assumption]. }
  destruct operands as [|e1 [|e2 l]]; [congruence| |].
  - inv_bind H as r Hr. injection H as <-.
    destruct (Hoperand e1 (list_elem_of_here _ _) r Hr) as [Hplain Hstart].
    now apply plain_operator.
  - rewrite operandsLoop_first in H.
    inv_bind H as r1 Hr1. inv_bind H as rs Hrs. injection H as <-.
    apply plain_app_empty; [apply (Hoperand e1 (list_elem_of_here _ _) r1 Hr1)|].
    apply (operandsLoop_plain _ _ _ _ _ Hop) in Hrs; [assumption|].
    apply Forall_forall. intros e He. split.
    + apply Hoperand. now apply list_elem_of_further.
    + apply Hinner. now apply list_elem_of_further.
Qed.

Lemma stringHelper_plainBelow e : plainBelow e /\ Forall plainBelow (Expr e).
Proof.
  induction e as [op lit i operands IH] using Expression_nested_ind.
  assert (Hall : Forall plainBelow operands).
  { eapply Forall_impl; [exact IH | now intros e [He _]]. }
  split; [|exact Hall].
  intros Htree Hwf d r Hd H.
  pose proof (scheduleTree_operands _ Htree Hwf) as Hok. cbn [Expr] in Hok.
  cbn [stringHelper] in H. destruct (op =? "") eqn:Hop.
  - injection H as <-. simpl in Hwf. rewrite Hop in Hwf.
    apply andb_prop in Hwf as [Hne Hlit]. apply negb_true_iff, String.eqb_neq in Hne.
    destruct (plain_literal lit Hne Hlit) as [Hplain Hstart].
    split; [assumption|]. congruence.
  - apply String.eqb_neq in Hop.
    destruct (scheduleTree_node op lit i operands Hop Htree) as (Hoper & _ & Hi & _).
    inv_bind H as op' Hop'. inv_bind H as body Hbody. injection H as <-.
    destruct (emitted_operator op operands op' Hoper Hop') as [Hemitted _].
    assert (Hplain : plain body).
    { apply (body_plain d op' operands body); try assumption; [lia|].
      destruct operands; [discriminate Hi | discriminate]. }
    destruct (1 <? d)%nat eqn:Hdeep.
    + split; [now apply plain_parenthesize | discriminate].
    + apply Nat.ltb_ge in Hdeep. split; [assumption | lia].
Qed.

Lemma stringHelper_plain e d s :
  scheduleTree e = true -> wellFormed e = true -> 1 <= d \/ Op e <> "+" ->
  stringHelper d e = Ok s -> plusMinus s = false.
Proof.
  intros Htree Hwf Hd H.
  destruct (Nat.eq_dec d 0) as [->|Hpos].
  - destruct Hd as [Hd|Hop]; [lia|]. destruct e as [op lit i operands]. simpl in Hop.
    pose proof (scheduleTree_operands _ Htree Hwf) as Hok. cbn [Expr] in Hok.
    cbn [stringHelper] in H. destruct (op =? "") eqn:Hlit.
    + injection H as <-. simpl in Hwf. rewrite Hlit in Hwf.
      apply andb_prop in Hwf as [Hne Hchars]. apply negb_true_iff, String.eqb_neq in Hne.
      apply (plain_literal lit Hne Hchars).
    + apply String.eqb_neq in Hlit.
      destruct (scheduleTree_node op lit i operands Hlit Htree) as (Hoper & _ & Hi & _).
      inv_bind H as op' Hop'. inv_bind H as body Hbody. injection H as <-. simpl.
      destruct (emitted_operator op operands op' Hoper Hop') as [Hemitted Hplus].
      apply (body_plain 0 op' operands body); try assumption.
      * intros Hp. now apply Hplus in Hp.
      * destruct operands; [discriminate Hi | discriminate].
      * apply Forall_forall. intros e _. apply stringHelper_plainBelow.
  - destruct (stringHelper_plainBelow e) as [Hbelow _].
    apply (Hbelow Htree Hwf d s); [lia | assumption].
Qed.

(** X18. String writes no plus immediately followed by a minus: for a tree
    of the notation with no empty literal, rendered below the root or
    rendered as the root when its operator is not the plus (a statement,
    for one), the text never holds the two characters in sequence. *)
Theorem stringHelper_no_plus_minus e d s :
  scheduleTree e = true -> wellFormed e = true -> 1 <= d \/ Op e <> "+" ->
  stringHelper d e = Ok s -> plusMinus s = false.
Proof. apply stringHelper_plain. Qed.

Lemma stringHelper_no_plus_minus_witness :
  plusMinus "xo[1]=T1-xi[1]+((-T2)*(T3-T4))" = false.
Proof.
  apply (stringHelper_no_plus_minus
           (node "=" [leaf "xo[1]";
                      node "+" [leaf "T1"; node "-" [leaf "xi[1]"];
                                node "*" [node "-" [leaf "T2"];
                                          node "+" [leaf "T3"; node "-" [leaf "T4"]]]]])
           0).
  - reflexivity.
  - reflexivity.
  - right. discriminate.
  - reflexivity.
Defined.

(** ** genfft.go: the trees of the scanner *)

Lemma Parse_building line expr :
  Parse newExpression line = Ok expr -> building expr.
Proof.
  unfold Parse, parse. destruct (2 <=? String.length line)%nat; [|discriminate].
  destruct (parseLoop_building (skip 2 line) 0 (appendOperand newExpression))
    as (expr' & n & -> & Hb); [now apply building_appendOperand|].
  simpl. now intros [= <-].
Qed.

(** X19. Operators always have at least one operand: in every tree that
    Parse returns, whatever the line, the root has an operand, the cursor
    of every node is within its operands, and every node that has an
    operator has an operand. *)
Theorem Parse_operands line expr :
  Parse newExpression line = Ok expr ->
  Expr expr <> [] /\ cursorOk expr = true /\ hasOperands expr = true.
Proof.
  intros H. apply Parse_building in H. split; [|split].
  - destruct H as [[Hi _] _]. destruct (Expr expr); [simpl in Hi; lia | discriminate].
  - apply scanning_cursorOk. exact (proj1 H).
  - now apply building_hasOperands.
Qed.

Lemma Parse_operands_witness :
  Expr (mkExpression "-" "" 0 [mkExpression "+" "" 0 [newExpression]]) <> []
  /\ cursorOk (mkExpression "-" "" 0 [mkExpression "+" "" 0 [newExpression]]) = true
  /\ hasOperands (mkExpression "-" "" 0 [mkExpression "+" "" 0 [newExpression]]) = true.
Proof. apply (Parse_operands "(:- (+"). reflexivity. Defined.

(** ** The participle-based generator: the inputs *)

Section ParticipleInputs.
Open Scope list_scope.

Lemma prefix_append pre s : String.prefix pre (pre ++ s)%string = true.
Proof.
  induction pre as [|c pre IH]; simpl; [now destruct s|].
  destruct (ascii_dec c c); [assumption | congruence].
Qed.

Lemma IndexByte_append name c rest :
  IndexByte name c = None ->
  IndexByte (name ++ String c rest)%string c = Some (String.length name).
Proof.
  induction name as [|a name IH]; simpl.
  - intros _. now rewrite Ascii.eqb_refl.
  - destruct (Ascii.eqb a c); [discriminate|].
    destruct (IndexByte name c) eqn:Hn; [discriminate|]. intros _. now rewrite IH.
Qed.

(** The name Inputs takes from an identifier is [name] exactly when the
    identifier begins with [name] and an opening bracket. *)
Lemma baseName_prefix name ident :
  IndexByte name "[" = None ->
  In name (match IndexByte ident "[" with
           | Some idx => [substring 0 idx ident]
           | None => []
           end)
  <-> String.prefix (name ++ "[")%string ident = true.
Proof.
  intros Hname. split.
  - destruct (IndexByte ident "[") as [idx|] eqn:Hidx; [|intros []].
    intros [Hb|[]]. apply IndexByte_Some in Hidx. rewrite Hb in Hidx.
    remember (skip (S idx) ident) as rest eqn:Hrest. clear Hrest. subst ident.
    change (String "[" rest) with ("[" ++ rest)%string.
    rewrite <- append_assoc. apply prefix_append.
  - intros H. apply skip_prefix in H.
    remember (skip (String.length (name ++ "[")%string) ident) as rest eqn:Hrest.
    clear Hrest. subst ident. rewrite append_assoc.
    change ("[" ++ rest)%string with (String "[" rest).
    rewrite (IndexByte_append name "[" rest Hname). left. apply substring_append_l.
Qed.

Lemma Inputs_prefix name e :
  IndexByte name "[" = None ->
  In name (P.Inputs e) <-> P.mentions (name ++ "[")%string e = true.
Proof.
  intros Hname. induction e as [ident o sub IH] using Expr_nested_ind.
  cbn [P.Inputs P.mentions]. rewrite in_app_iff, (baseName_prefix name ident Hname), orb_true_iff.
  apply or_iff_compat_l. rewrite in_flat_map, existsb_exists.
  rewrite Forall_forall in IH.
  split; intros (s & Hs & H); exists s; (split; [assumption|]);
    apply (IH s); try assumption; now apply list_elem_of_In.
Qed.

(** X20. Inputs lists the names of the indexed identifiers: a name without a
    bracket is among the inputs of a tree exactly when some identifier
    of the tree begins with that name followed by an opening bracket. *)
Theorem Inputs_names name e :
  IndexByte name "[" = None ->
  In name (P.Inputs e) <-> P.mentions (name ++ "[")%string e = true.
Proof. apply Inputs_prefix. Qed.

Lemma Inputs_names_witness :
  In "xo"%string (P.Inputs (P.op ":=" [P.ident "xo[3]"; P.op "+" [P.ident "T1"; P.ident "xi[0]"]]))
  <-> P.mentions "xo[" (P.op ":=" [P.ident "xo[3]"; P.op "+" [P.ident "T1"; P.ident "xi[0]"]])
      = true.
Proof.
  apply (Inputs_names "xo" (P.op ":=" [P.ident "xo[3]"; P.op "+" [P.ident "T1"; P.ident "xi[0]"]])).
  reflexivity.
Defined.

End ParticipleInputs.

(** ** genfft.go: where the index is read *)

Lemma substring_middle a : forall b c,
  substring (String.length a) (String.length b) (a ++ b ++ c) = b.
Proof.
  induction a as [|x a IH]; intros b c; simpl; [|apply IH].
  apply substring_append_l.
Qed.

Lemma transformLength_digits op pre digits i operands :
  String.length pre = 3 -> digits <> "" -> allDigits digits = true ->
  (digitsValue 0 digits < uint_modulus)%Z ->
  transformLength (mkExpression op (pre ++ digits ++ "]") i operands)
  = Ok (digitsValue 0 digits).
Proof.
  intros Hpre Hne Hdigits Hlt. cbn [transformLength].
  rewrite <- append_assoc, HasSuffix_append, append_assoc.
  unfold slice. rewrite !length_append, Hpre. simpl String.length.
  replace (3 + (String.length digits + 1) - 1) with (3 + String.length digits) by lia.
  assert (H1 : (3 <=? 3 + String.length digits)%nat = true) by (apply Nat.leb_le; lia).
  assert (H2 : (3 + String.length digits <=? 3 + (String.length digits + 1))%nat = true)
    by (apply Nat.leb_le; lia).
  rewrite H1, H2. cbn [andb mbind result_bind].
  replace (3 + String.length digits - 3) with (String.length digits) by lia.
  rewrite <- Hpre, substring_middle. unfold ParseUint.
  apply String.eqb_neq in Hne. rewrite Hne, Hdigits. simpl.
  apply Z.ltb_lt in Hlt. now rewrite Hlt.
Qed.

(** X21. The index of a literal is read from position 3: a node whose literal
    is three characters, then digits, then the closing bracket, has the
    value of the digits as its transform length, whatever the three
    characters, the operator and the operands of the node. *)
Theorem transformLength_position op pre digits i operands :
  String.length pre = 3 -> digits <> "" -> allDigits digits = true ->
  (digitsValue 0 digits < uint_modulus)%Z ->
  transformLength (mkExpression op (pre ++ digits ++ "]") i operands)
  = Ok (digitsValue 0 digits).
Proof. apply transformLength_digits. Qed.

Lemma transformLength_position_witness :
  transformLength (mkExpression "+" "a[157]" 0 [leaf "xi[900]"]) = Ok 57%Z.
Proof.
  apply (transformLength_position "+" "a[1" "57" 0 [leaf "xi[900]"]);
    [reflexivity | discriminate | reflexivity | reflexivity].
Defined.

(** X22. A literal that ends in the closing bracket and is too short to hold
    an index at position 3 makes the computation panic: on the slice when
    it has fewer than four characters, on the conversion of the empty
    text when it has four. *)
Theorem transformLength_short op lit i operands :
  HasSuffix lit "]" = true ->
  (String.length lit < 4 ->
   transformLength (mkExpression op lit i operands) = Panic SliceBounds)
  /\ (String.length lit = 4 ->
      transformLength (mkExpression op lit i operands) = Panic NumErrSyntax).
Proof.
  intros Hsuffix. cbn [transformLength]. rewrite Hsuffix. unfold slice. split; intros Hlen.
  - assert (H : (3 <=? String.length lit - 1)%nat = false) by (apply Nat.leb_gt; lia).
    now rewrite H.
  - rewrite Hlen. simpl. destruct lit as [|a [|b [|c [|d [|x lit]]]]]; try discriminate Hlen.
    reflexivity.
Qed.

Lemma transformLength_short_witness :
  transformLength (leaf "x]") = Panic SliceBounds
  /\ transformLength (leaf "xi[]") = Panic NumErrSyntax.
Proof.
  split.
  - apply (transformLength_short "" "x]" 0 []); [reflexivity | simpl; lia].
  - apply (transformLength_short "" "xi[]" 0 []); reflexivity.
Defined.

(** ** genfft.go: the value of a rendering *)

Section Value.
Variable A : arithmetic.
Variable env : string -> number A.
Hypothesis add_neg : forall a b, add A a (neg A b) = sub A a b.

Lemma tokenize_delimiter c s :
  isDelimiter c = true -> tokenize (String c s) = symbol c :: tokenize s.
Proof. intros H. simpl. now rewrite H. Qed.

Lemma tokenize_delimited rest :
  delimited rest ->
  match tokenize rest with
  | GOperand _ :: _ => False
  | _ => True
  end.
Proof.
  intros [-> | (c & s & -> & Hc)]; [exact I|].
  rewrite (tokenize_delimiter c s Hc). unfold symbol.
  repeat match goal with |- context [if ?b then _ else _] => destruct b end; exact I.
Qed.

Lemma tokenize_literal lit : forall rest,
  lit <> "" -> allChars (fun c => negb (isDelimiter c)) lit = true -> delimited rest ->
  tokenize (lit ++ rest) = GOperand lit :: tokenize rest.
Proof.
  induction lit as [|c lit IH]; intros rest Hne Hall Hrest; [congruence|].
  simpl in Hall. apply andb_prop in Hall as [Hc Hall]. apply negb_true_iff in Hc.
  change (String c lit ++ rest) with (String c (lit ++ rest)). cbn [tokenize]. rewrite Hc.
  destruct lit as [|c' lit].
  - simpl append. pose proof (tokenize_delimited rest Hrest) as H.
    destruct (tokenize rest) as [|[] ?]; try reflexivity. destruct H.
  - now rewrite (IH rest) by (assumption || discriminate).
Qed.

Lemma delimited_cons c s : isDelimiter c = true -> delimited (String c s).
Proof. intros H. right. eauto. Qed.

Lemma delimited_app a b : delimited a -> delimited b -> delimited (a ++ b).
Proof.
  intros [-> | (c & s & -> & Hc)] Hb; [exact Hb|]. right. exists c, (s ++ b). now split.
Qed.

Lemma isLetter_isDelimiter c : isLetter c = true -> isDelimiter c = false.
Proof.
  intros H. unfold isDelimiter, classify.
  repeat match goal with
         | |- context [Ascii.eqb c ?x] =>
             destruct (Ascii.eqb_spec c x) as [-> | _]; [discriminate H|]
         end.
  reflexivity.
Qed.

Lemma isDigit_isDelimiter c : isDigit c = true -> isDelimiter c = false.
Proof.
  intros H. unfold isDelimiter, classify.
  repeat match goal with
         | |- context [Ascii.eqb c ?x] =>
             destruct (Ascii.eqb_spec c x) as [-> | _]; [discriminate H|]
         end.
  reflexivity.
Qed.

Lemma closesIndex_allChars s :
  closesIndex s = true -> allChars (fun c => negb (isDelimiter c)) s = true.
Proof.
  induction s as [|c s IH]; [discriminate|]. cbn [closesIndex allChars].
  destruct (Ascii.eqb_spec c "]") as [-> | _].
  - intros ->%String.eqb_eq. reflexivity.
  - intros [Hc Hs]%andb_prop. now rewrite (isDigit_isDelimiter c Hc), IH.
Qed.

Lemma allChars_app p a b : allChars p (a ++ b) = allChars p a && allChars p b.
Proof. induction a as [|c a IH]; [reflexivity|]. cbn. now rewrite IH, andb_assoc. Qed.

(** A Go operand is a literal of the scanner. *)
Lemma isGoOperand_literal lit :
  isGoOperand lit = true ->
  lit <> "" /\ allChars (fun c => negb (isDelimiter c)) lit = true.
Proof.
  destruct lit as [|c rest]; [discriminate|]. intros [Hc H]%andb_prop.
  split; [discriminate|]. cbn [allChars]. rewrite (isLetter_isDelimiter c Hc). cbn [negb andb].
  destruct (span (fun c => isLetter c || isDigit c) rest) as [name index] eqn:Hspan.
  apply span_split in Hspan as [-> Hname]. rewrite allChars_app.
  assert (Hn : allChars (fun c => negb (isDelimiter c)) name = true).
  { clear H. induction name as [|x name IH]; [reflexivity|].
    cbn [allChars] in Hname |- *. apply andb_prop in Hname as [Hx Hname].
    rewrite (IH Hname), andb_true_r. apply orb_prop in Hx as [Hx | Hx].
    - now rewrite (isLetter_isDelimiter x Hx).
    - now rewrite (isDigit_isDelimiter x Hx). }
  rewrite Hn. cbn [andb]. destruct index as [|b [|d index]]; [reflexivity | discriminate H |].
  apply andb_prop in H as [[Hb Hd]%andb_prop Hindex]. apply Ascii.eqb_eq in Hb. subst b.
  cbn [allChars]. rewrite (isDigit_isDelimiter d Hd), (closesIndex_allChars index Hindex).
  reflexivity.
Qed.

Lemma readsOperand_literal lit : isGoOperand lit = true -> readsOperand A env lit (env lit).
Proof.
  intros Hgo rest Hrest. destruct (isGoOperand_literal lit Hgo) as [Hne Hall].
  rewrite (tokenize_literal lit rest Hne Hall Hrest). split; [reflexivity|].
  intros l outer. cbn [evaluate]. now rewrite Hgo.
Qed.

Lemma readsOperand_expression r v : readsOperand A env r v -> readsExpression A env r v.
Proof.
  intros H. exists (afterOperand fresh), (operand v fresh). split; [reflexivity|].
  intros rest outer Hrest. now apply H.
Qed.

Lemma readsExpression_parenthesize b v :
  readsExpression A env b v -> readsOperand A env (parenthesize b) v.
Proof.
  intros (lb & tb & Hv & Hread) rest Hrest. unfold parenthesize.
  rewrite !append_assoc. change ("(" ++ ?x) with (String "(" x).
  rewrite tokenize_delimiter by reflexivity. change (symbol "(") with GOpen.
  split; [reflexivity|]. intros l outer.
  cbn [evaluate].
  rewrite (Hread (")" ++ rest) (l :: outer)) by (now apply delimited_cons).
  change (")" ++ rest) with (String ")" rest).
  rewrite tokenize_delimiter by reflexivity. change (symbol ")") with GClose.
  cbn [evaluate]. now rewrite Hv.
Qed.

Lemma readsExpression_minus r v :
  readsOperand A env r v -> readsExpression A env ("-" ++ r) (neg A v).
Proof.
  intros H. exists (mkLevel NoSum None 0), (neg A v). split; [reflexivity|].
  intros rest outer Hrest. rewrite append_assoc. change ("-" ++ ?x) with (String "-" x).
  rewrite tokenize_delimiter by reflexivity. change (symbol "-") with GSub. cbn [evaluate].
  destruct (H rest Hrest) as [-> Hread]. now rewrite Hread.
Qed.

(** One operator and one operand, after a term. *)
Lemma evaluate_add r v rest l t outer :
  readsOperand A env r v -> delimited rest ->
  evaluate env (tokenize ("+" ++ r ++ rest)) l (Some t) outer
  = evaluate env (tokenize rest) (mkLevel (Adding (total l t)) None 0) (Some v) outer.
Proof.
  intros H Hrest. change ("+" ++ ?x) with (String "+" x).
  rewrite tokenize_delimiter by reflexivity. change (symbol "+") with GAdd. cbn [evaluate].
  destruct (H rest Hrest) as [_ Hread]. now rewrite Hread.
Qed.

Lemma evaluate_sub r v rest l t outer :
  readsOperand A env r v -> delimited rest ->
  evaluate env (tokenize ("-" ++ r ++ rest)) l (Some t) outer
  = evaluate env (tokenize rest) (mkLevel (Subtracting (total l t)) None 0) (Some v) outer.
Proof.
  intros H Hrest. change ("-" ++ ?x) with (String "-" x).
  rewrite tokenize_delimiter by reflexivity. change (symbol "-") with GSub. cbn [evaluate].
  destruct (H rest Hrest) as [-> Hread]. now rewrite Hread.
Qed.

Lemma evaluate_mul r v rest l t outer :
  readsOperand A env r v -> delimited rest ->
  evaluate env (tokenize ("*" ++ r ++ rest)) l (Some t) outer
  = evaluate env (tokenize rest) (mkLevel (sum l) None 0) (Some (mul A t v)) outer.
Proof.
  intros H Hrest. change ("*" ++ ?x) with (String "*" x).
  rewrite tokenize_delimiter by reflexivity. change (symbol "*") with GMul. cbn [evaluate].
  destruct (H rest Hrest) as [_ Hread]. now rewrite Hread.
Qed.

Lemma treeValue_minus lit i inner :
  treeValue A env (mkExpression "-" lit i [inner]) = neg A (treeValue A env inner).
Proof. reflexivity. Qed.

(** The operands after the first, under a sum or a difference. *)
Lemma operandsLoop_additive f op operands : forall i rs l t,
  op = "+" \/ op = "-" ->
  Forall (fun e => (forall r, f e = Ok r -> readsOperand A env r (treeValue A env e))
                   /\ (IsUnary e = true -> Op e = "-" ->
                       Forall (fun inner => forall r, f inner = Ok r ->
                                 readsOperand A env r (treeValue A env inner)) (Expr e)))
         operands ->
  operandsLoop f op (S i) operands = Ok rs ->
  delimited rs
  /\ exists l' t',
       total l' t'
       = fold_left (if op =? "+" then add A else sub A) (map (treeValue A env) operands)
                   (total l t)
       /\ forall rest outer,
            delimited rest ->
            evaluate env (tokenize (rs ++ rest)) l (Some t) outer
            = evaluate env (tokenize rest) l' (Some t') outer.
Proof.
  induction operands as [|e more IH]; intros i rs l t Hop Hall H; simpl in H.
  - injection H as <-. split; [now left|]. exists l, t. split; [reflexivity|]. auto.
  - inversion Hall as [|? ? [He Hin] Hmore]; subst.
    inv_bind H as piece Hpiece. inv_bind H as rs' Hrs. injection H as <-.
    destruct ((op =? "+") && IsUnary e && (Op e =? "-")) eqn:Hfold.
    + apply andb_prop in Hfold as [[Hplus Hun]%andb_prop Hminus].
      apply String.eqb_eq in Hplus, Hminus. subst op.
      specialize (Hin Hun Hminus).
      destruct e as [eop elit ei [|inner [|x rest']]]; try discriminate Hun.
      simpl in Hminus. subst eop.
      inv_bind Hpiece as r Hr. injection Hpiece as <-.
      simpl in Hin. inversion Hin as [|? ? Hinner _]; subst. specialize (Hinner r Hr).
      destruct (IH (S i) rs' (mkLevel (Subtracting (total l t)) None 0) (treeValue A env inner)
                   (or_introl eq_refl) Hmore Hrs) as (Hdel & l' & t' & Htotal & Hread).
      split; [now apply (delimited_cons "-" (r ++ rs'))|].
      exists l', t'. split.
      * rewrite Htotal. cbn [map fold_left]. rewrite treeValue_minus, add_neg. reflexivity.
      * intros rest outer Hrest.
        pose proof (evaluate_sub r _ (rs' ++ rest) l t outer Hinner
                      (delimited_app _ _ Hdel Hrest)) as E.
        rewrite !append_assoc. cbn [append] in E |- *. rewrite E. now apply Hread.
    + inv_bind Hpiece as r Hr. injection Hpiece as <-. specialize (He r Hr).
      destruct Hop as [-> | ->].
      * destruct (IH (S i) rs' (mkLevel (Adding (total l t)) None 0) (treeValue A env e)
                     (or_introl eq_refl) Hmore Hrs) as (Hdel & l' & t' & Htotal & Hread).
        split; [now apply (delimited_cons "+" (r ++ rs'))|].
        exists l', t'. split; [exact Htotal|].
        intros rest outer Hrest.
        pose proof (evaluate_add r _ (rs' ++ rest) l t outer He
                      (delimited_app _ _ Hdel Hrest)) as E.
        rewrite !append_assoc. cbn [append] in E |- *. rewrite E. now apply Hread.
      * destruct (IH (S i) rs' (mkLevel (Subtracting (total l t)) None 0) (treeValue A env e)
                     (or_intror eq_refl) Hmore Hrs) as (Hdel & l' & t' & Htotal & Hread).
        split; [now apply (delimited_cons "-" (r ++ rs'))|].
        exists l', t'. split; [exact Htotal|].
        intros rest outer Hrest.
        pose proof (evaluate_sub r _ (rs' ++ rest) l t outer He
                      (delimited_app _ _ Hdel Hrest)) as E.
        rewrite !append_assoc. cbn [append] in E |- *. rewrite E. now apply Hread.
Qed.

(** The operands after the first, under a product. *)
Lemma operandsLoop_multiplicative f operands : forall i rs s t,
  Forall (fun e => forall r, f e = Ok r -> readsOperand A env r (treeValue A env e)) operands ->
  operandsLoop f "*" (S i) operands = Ok rs ->
  delimited rs
  /\ forall rest outer,
       delimited rest ->
       evaluate env (tokenize (rs ++ rest)) (mkLevel s None 0) (Some t) outer
       = evaluate env (tokenize rest) (mkLevel s None 0)
           (Some (fold_left (mul A) (map (treeValue A env) operands) t)) outer.
Proof.
  induction operands as [|e more IH]; intros i rs s t Hall H; simpl in H.
  - injection H as <-. split; [now left | auto].
  - inversion Hall as [|? ? He Hmore]; subst.
    inv_bind H as piece Hpiece. inv_bind H as rs' Hrs. injection H as <-.
    inv_bind Hpiece as r Hr. injection Hpiece as <-. specialize (He r Hr).
    destruct (IH (S i) rs' s (mul A t (treeValue A env e)) Hmore Hrs) as [Hdel Hread].
    split; [now apply (delimited_cons "*" (r ++ rs'))|].
    intros rest outer Hrest.
    pose proof (evaluate_mul r _ (rs' ++ rest) (mkLevel s None 0) t outer He
                  (delimited_app _ _ Hdel Hrest)) as E.
    rewrite !append_assoc. cbn [append] in E |- *. rewrite E. now apply Hread.
Qed.

Lemma evaluable_node op lit i operands :
  op <> "" -> evaluable (mkExpression op lit i operands) = true ->
  (exists x, operands = [x] /\ op = "-" /\ evaluable x = true)
  \/ (exists e1 e2 l, operands = e1 :: e2 :: l
                      /\ (op = "+" \/ op = "-" \/ op = "*")
                      /\ Forall (fun e => evaluable e = true) operands).
Proof.
  intros Hop H. apply String.eqb_neq in Hop. cbn [evaluable] in H. rewrite Hop in H.
  destruct operands as [|e1 [|e2 l]].
  - apply andb_prop in H as [[_ H]%andb_prop _]. discriminate H.
  - apply andb_prop in H as [Hminus Hx]. apply String.eqb_eq in Hminus. left. eauto.
  - apply andb_prop in H as [[Hops _]%andb_prop Hall]. right. exists e1, e2, l.
    split; [reflexivity|]. split.
    + apply orb_prop in Hops as [Hops|Hops]; [apply orb_prop in Hops as [Hops|Hops]|];
        apply String.eqb_eq in Hops; auto.
    + apply Forall_forall. intros e He. rewrite forallb_forall in Hall. apply Hall.
      now apply list_elem_of_In.
Qed.

Lemma evaluable_operands e :
  Op e <> "" -> evaluable e = true -> Forall (fun x => evaluable x = true) (Expr e).
Proof.
  destruct e as [op lit i operands]. cbn [Op Expr]. intros Hop H.
  destruct (evaluable_node op lit i operands Hop H)
    as [(x & -> & _ & Hx) | (e1 & e2 & l & _ & _ & Hall)]; [|assumption].
  now repeat constructor.
Qed.

Lemma stringHelper_unary_minus d lit i x :
  stringHelper d (mkExpression "-" lit i [x]) =
  (r ← stringHelper (S d) x; Ok (if (1 <? d)%nat then parenthesize ("-" ++ r) else "-" ++ r)).
Proof. cbn [stringHelper]. simpl. destruct (stringHelper (S d) x); reflexivity. Qed.

(** The wrapping that depends on the depth. *)
Lemma valueRead_wrap d body v :
  1 <= d -> readsExpression A env body v ->
  (2 <= d -> readsOperand A env (if (1 <? d)%nat then parenthesize body else body) v)
  /\ readsExpression A env (if (1 <? d)%nat then parenthesize body else body) v.
Proof.
  intros Hd Hbody. destruct (1 <? d)%nat eqn:Hdeep.
  - pose proof (readsExpression_parenthesize body v Hbody) as H.
    split; [auto | now apply readsOperand_expression].
  - apply Nat.ltb_ge in Hdeep. split; [lia | assumption].
Qed.

Lemma stringHelper_valueRead e : valueRead A env e /\ Forall (valueRead A env) (Expr e).
Proof.
  induction e as [op lit i operands IH] using Expression_nested_ind.
  assert (Hall : Forall (valueRead A env) operands).
  { eapply Forall_impl; [exact IH | now intros e [He _]]. }
  split; [|exact Hall].
  intros Hev d r Hd H. destruct (op =? "") eqn:Hop.
  - apply String.eqb_eq in Hop. subst op. cbn [stringHelper] in H. simpl in H.
    injection H as <-. cbn [evaluable] in Hev. simpl in Hev.
    pose proof (readsOperand_literal lit Hev) as Hlit. cbn [treeValue]. simpl.
    split; [auto | now apply readsOperand_expression].
  - apply String.eqb_neq in Hop.
    assert (Hoperand : forall e, e ∈ operands -> evaluable e = true -> forall r,
               stringHelper (S d) e = Ok r -> readsOperand A env r (treeValue A env e)).
    { intros e He Hee r' Hr. rewrite Forall_forall in Hall.
      destruct (Hall e He Hee (S d) r') as [Hread _]; [lia | assumption |]. apply Hread. lia. }
    assert (Hinner : forall e, e ∈ operands -> evaluable e = true -> Op e = "-" ->
               Forall (fun inner => forall r, stringHelper (S d) inner = Ok r ->
                         readsOperand A env r (treeValue A env inner)) (Expr e)).
    { intros e He Hee Hminus. rewrite Forall_forall in IH. destruct (IH e He) as [_ Hin].
      assert (Hsub : Forall (fun x => evaluable x = true) (Expr e)).
      { apply evaluable_operands; [|assumption]. rewrite Hminus. discriminate. }
      rewrite Forall_forall in Hin, Hsub. apply Forall_forall. intros inner Hi r' Hr.
      destruct (Hin inner Hi (Hsub inner Hi) (S d) r') as [Hread _]; [lia | assumption |].
      apply Hread. lia. }
    destruct (evaluable_node op lit i operands Hop Hev)
      as [(x & -> & -> & Hx) | (e1 & e2 & l & -> & Hops & Hevs)].
    + rewrite stringHelper_unary_minus in H. inv_bind H as r1 Hr1. injection H as <-.
      rewrite treeValue_minus. apply valueRead_wrap; [assumption|].
      apply readsExpression_minus. apply (Hoperand x); [apply list_elem_of_here | assumption..].
    + rewrite stringHelper_nary in H
        by (destruct Hops as [-> | [-> | ->]]; discriminate).
      inv_bind H as body Hbody. injection H as <-.
      apply valueRead_wrap; [assumption|].
      rewrite operandsLoop_first in Hbody.
      inv_bind Hbody as r1 Hr1. inv_bind Hbody as rs Hrs. injection Hbody as <-.
      inversion Hevs as [|? ? He1 Hevs']; subst.
      pose proof (Hoperand e1 (list_elem_of_here _ _) He1 r1 Hr1) as Hfirst.
      assert (Hrest : Forall (fun e =>
                 (forall r, stringHelper (S d) e = Ok r ->
                            readsOperand A env r (treeValue A env e))
                 /\ (IsUnary e = true -> Op e = "-" ->
                     Forall (fun inner => forall r, stringHelper (S d) inner = Ok r ->
                               readsOperand A env r (treeValue A env inner)) (Expr e)))
                (e2 :: l)).
      { rewrite Forall_forall in Hevs'. apply Forall_forall. intros e He.
        pose proof (list_elem_of_further e e1 _ He) as He'. split.
        - intros r' Hr. apply (Hoperand e He' (Hevs' e He) r' Hr).
        - intros _ Hminus. apply (Hinner e He' (Hevs' e He) Hminus). }
      assert (Hvalue : treeValue A env (mkExpression op lit i (e1 :: e2 :: l))
                       = fold_left (if op =? "+" then add A
                                    else if op =? "-" then sub A else mul A)
                                   (map (treeValue A env) (e2 :: l)) (treeValue A env e1)).
      { cbn [treeValue map]. apply String.eqb_neq in Hop. rewrite Hop.
        destruct (op =? "+"); [reflexivity|]. destruct (op =? "-"); reflexivity. }
      rewrite Hvalue. clear Hvalue.
      destruct Hops as [-> | [-> | ->]].
      * destruct (operandsLoop_additive _ "+" _ 0 rs (mkLevel NoSum None 0)
                    (treeValue A env e1) (or_introl eq_refl) Hrest Hrs)
          as (_ & l' & t' & Htotal & Hread).
        exists l', t'. split; [exact Htotal|].
        intros rest outer Hdel. rewrite append_assoc.
        assert (Hdelrs : delimited rs).
        { now destruct (operandsLoop_additive _ "+" _ 0 rs (mkLevel NoSum None 0)
                          (treeValue A env e1) (or_introl eq_refl) Hrest Hrs). }
        destruct (Hfirst (rs ++ rest) (delimited_app _ _ Hdelrs Hdel)) as [_ ->].
        now apply Hread.
      * destruct (operandsLoop_additive _ "-" _ 0 rs (mkLevel NoSum None 0)
                    (treeValue A env e1) (or_intror eq_refl) Hrest Hrs)
          as (Hdelrs & l' & t' & Htotal & Hread).
        exists l', t'. split; [exact Htotal|].
        intros rest outer Hdel. rewrite append_assoc.
        destruct (Hfirst (rs ++ rest) (delimited_app _ _ Hdelrs Hdel)) as [_ ->].
        now apply Hread.
      * assert (Hrest' : Forall (fun e => forall r, stringHelper (S d) e = Ok r ->
                                   readsOperand A env r (treeValue A env e)) (e2 :: l)).
        { eapply Forall_impl; [exact Hrest|]. now intros e [He _]. }
        destruct (operandsLoop_multiplicative _ _ 0 rs NoSum (treeValue A env e1) Hrest' Hrs)
          as [Hdelrs Hread].
        exists (mkLevel NoSum None 0),
               (fold_left (mul A) (map (treeValue A env) (e2 :: l)) (treeValue A env e1)).
        split; [reflexivity|].
        intros rest outer Hdel. rewrite append_assoc.
        destruct (Hfirst (rs ++ rest) (delimited_app _ _ Hdelrs Hdel)) as [_ ->].
        now apply Hread.
Qed.

Lemma stringHelper_goValue e d s :
  evaluable e = true -> 1 <= d -> stringHelper d e = Ok s ->
  goValue A env s = Some (treeValue A env e).
Proof.
  intros Hev Hd H. destruct (stringHelper_valueRead e) as [Hread _].
  destruct (Hread Hev d s Hd H) as [_ (l & t & Htotal & Heval)].
  unfold goValue. specialize (Heval "" [] (or_introl eq_refl)).
  rewrite append_nil_r in Heval. rewrite Heval. simpl. now rewrite Htotal.
Qed.

Lemma evaluable_renderable e : evaluable e = true -> renderable e = true.
Proof.
  induction e as [op lit i operands IH] using Expression_nested_ind. intros H.
  cbn [renderable]. destruct (op =? "") eqn:Hop; [reflexivity|].
  apply String.eqb_neq in Hop. cbn [orb]. apply andb_true_intro.
  assert (Hops : op <> "=" /\ Forall (fun e => evaluable e = true) operands).
  { destruct (evaluable_node op lit i operands Hop H)
      as [(x & -> & -> & Hx) | (e1 & e2 & l & -> & Hops & Hall)].
    - split; [discriminate | now repeat constructor].
    - split; [destruct Hops as [-> | [-> | ->]]; discriminate | assumption]. }
  destruct Hops as [Hassign Hall]. apply String.eqb_neq in Hassign. rewrite Hassign.
  split; [reflexivity|]. apply forallb_forall. intros e He. apply list_elem_of_In in He.
  rewrite Forall_forall in IH, Hall. now apply IH; [|apply Hall].
Qed.

Lemma evaluable_rendered e d : evaluable e = true -> exists s, stringHelper d e = Ok s.
Proof.
  intros H. pose proof (proj1 (stringHelper_rendered e) d) as Hr. unfold rendered in Hr.
  destruct (stringHelper d e) as [s|p]; [eauto|].
  destruct Hr as [_ Hr]. rewrite (evaluable_renderable e H) in Hr. discriminate Hr.
Qed.

Lemma String_assignment_value lit i target source :
  Op target = "" -> evaluable source = true ->
  exists s,
    Expression_String (mkExpression "=" lit i [target; source])
    = Ok (Lit target ++ (if HasPrefix (Lit target) "T" then ":=" else "=") ++ s)
    /\ goValue A env s = Some (treeValue A env source).
Proof.
  intros Htarget Hsource. destruct (evaluable_rendered source 1 Hsource) as [s Hs].
  exists s. split; [|now apply (stringHelper_goValue source 1)].
  unfold Expression_String. cbn [stringHelper]. simpl String.eqb. cbn iota.
  cbn [mbind result_bind]. rewrite operandsLoop_first.
  assert (Hlit : stringHelper 1 target = Ok (Lit target)).
  { destruct target as [op tlit j l]. cbn [Op] in Htarget. subst op. reflexivity. }
  rewrite Hlit. cbn [mbind result_bind operandsLoop Nat.eqb negb].
  destruct (HasPrefix (Lit target) "T"); simpl String.eqb; cbn [andb];
    rewrite Hs; cbn [mbind result_bind]; now rewrite append_nil_r.
Qed.

End Value.

(** X23. The rendering keeps the value. Below the root, the text that
    [stringHelper] writes for a tree of sums, differences, products and
    unary minus over Go operands, read as a Go expression (the unary
    minus first, then the product, then sum and difference, from left to
    right, parentheses grouping), has the value of the tree, the operands
    of a node combined from left to right. This holds for every
    arithmetic in which adding the opposite is subtracting, under every
    valuation of the operands. *)
Theorem stringHelper_value (A : arithmetic) (env : string -> number A) e d s :
  (forall a b, add A a (neg A b) = sub A a b) ->
  evaluable e = true -> 1 <= d -> stringHelper d e = Ok s ->
  goValue A env s = Some (treeValue A env e).
Proof. intros Hneg. now apply stringHelper_goValue. Qed.

Lemma stringHelper_value_witness :
  goValue integers (fun name => Z.of_nat (String.length name))
    "T1-xi[1]+(KP5*(T123-T2)*(-io[10]))"
  = Some (2 - 5 + 3 * (4 - 2) * (- 6))%Z.
Proof.
  apply (stringHelper_value integers (fun name => Z.of_nat (String.length name))
           (node "+" [leaf "T1"; node "-" [leaf "xi[1]"];
                      node "*" [leaf "KP5"; node "-" [leaf "T123"; leaf "T2"];
                                node "-" [leaf "io[10]"]]])
           1).
  - intros a b. simpl. lia.
  - reflexivity.
  - lia.
  - reflexivity.
Defined.

(** X24. A statement assigns the value of its tree. For an assignment whose
    target is a literal and whose source is a tree of sums, differences,
    products and unary minus over Go operands, [String] writes the
    target, then ":=" when the target begins with T and "=" when it does
    not, then a text that, read as a Go expression, has the value of the
    source. *)
Theorem String_assignment (A : arithmetic) (env : string -> number A) lit i target source :
  (forall a b, add A a (neg A b) = sub A a b) ->
  Op target = "" -> evaluable source = true ->
  exists s,
    Expression_String (mkExpression "=" lit i [target; source])
    = Ok (Lit target ++ (if HasPrefix (Lit target) "T" then ":=" else "=") ++ s)
    /\ goValue A env s = Some (treeValue A env source).
Proof. intros Hneg. now apply String_assignment_value. Qed.

Lemma String_assignment_witness :
  exists s,
    Expression_String
      (mkExpression "=" "" 1
         [leaf "T7"; node "*" [leaf "KP5"; node "+" [leaf "xi[1]"; node "-" [leaf "T2"]]]])
    = Ok ("T7" ++ ":=" ++ s)
    /\ goValue integers (fun name => Z.of_nat (String.length name)) s
       = Some (3 * (5 + - 2))%Z.
Proof.
  apply (String_assignment integers (fun name => Z.of_nat (String.length name)) "" 1
           (leaf "T7") (node "*" [leaf "KP5"; node "+" [leaf "xi[1]"; node "-" [leaf "T2"]]])).
  - intros a b. simpl. lia.
  - reflexivity.
  - reflexivity.
Defined.

(** * The claims on folding and on the scanner *)

(** C3, as stated, fails in the participle-based generator on the part
    that the numeric meaning is preserved: the sub-expression of a folded
    minus is printed without parentheses, so a plus minus the sum of b and
    c is printed a - b + c, which is also the text of the sum of a minus b
    and c; with a = b = 0 and c = 1 the two trees have the values -1
    and 1. It fails in genfft.go on the part that a plus is never
    followed by a minus: two spaces in a row leave an empty operand
    between a and the folded minus, and the plus written for the empty
    operand stands right before the minus. *)
Lemma C3_counterexample :
  (c ← P.Gen foldedSum; Ok (jen.render (jen.Stmt c))) = Ok "a - b + c"
  /\ (c ← P.Gen sumOfFolded; Ok (jen.render (jen.Stmt c))) = Ok "a - b + c"
  /\ P.eval onlyC foldedSum = (-1)%Z
  /\ P.eval onlyC sumOfFolded = 1%Z
  /\ (e ← Parse newExpression "(:= T1 (+ a  (- b)))"; Expression_String e) = Ok "T1:=a+-b"
  /\ Parse newExpression "(:= T1 (+ a  (- b)))"
     = Ok (mkExpression "=" "" 1
             [leaf "T1";
              mkExpression "+" "" 2 [leaf "a"; leaf ""; mkExpression "-" "" 0 [leaf "b"]]]).
Proof. repeat split; reflexivity. Qed.

(** C3, amended. Under an n-ary "+", an operand after the first that is a
    unary "-" is rendered as "-" followed by the rendering of its operand,
    right after the renderings of the operands before it (no "+" is
    written for it) and before those of the operands after it, so the
    order of the operands is kept. In genfft.go, below the statement
    root, that operand is in parentheses when it is an operation; the
    participle-based generator adds it as it is. In genfft.go the text
    of a tree of the schedule notation that has no empty literal,
    rendered below the root of its line or as a root whose operator is
    not "+", holds no plus immediately followed by a minus. In the
    participle-based generator the token before the folded minus is an
    identifier or a closing parenthesis, never an operator. The statement
    of the spec, T2 assigned xi[0] plus minus xi[1], has the right-hand
    side xi[0]-xi[1] in genfft.go, and the tokens xi[0], -, xi[1] in the
    participle-based generator. *)
Theorem C3_unary_minus_folding :
  (forall d lit i first l1 mlit mi inner l2 s,
      stringHelper d (mkExpression "+" lit i
                        (first :: l1 ++ mkExpression "-" mlit mi [inner] :: l2)%list) = Ok s ->
      exists r0 pre r post,
        stringHelper (S d) first = Ok r0 /\
        operandsLoop (stringHelper (S d)) "+" 1 l1 = Ok pre /\
        stringHelper (S d) inner = Ok r /\
        operandsLoop (stringHelper (S d)) "+" 1 l2 = Ok post /\
        s = (if (1 <? d)%nat then parenthesize (r0 ++ pre ++ "-" ++ r ++ post)
             else r0 ++ pre ++ "-" ++ r ++ post))
  /\ (forall d inner,
         1 <= d -> Op inner <> "" ->
         stringHelper (S d) inner = (r ← stringHelper 1 inner; Ok (parenthesize r)))
  /\ (forall first l1 x l2 c,
         P.Gen (P.mkExpr "" "+" (first :: l1 ++ P.mkExpr "" "-" [x] :: l2)%list) = Ok c ->
         exists pre inner post,
           (lt ← P.Gen first; P.subLoop P.Gen "+" lt l1) = Ok pre /\
           P.Gen x = Ok inner /\
           P.subLoop P.Gen "+" [] l2 = Ok post /\
           c = (pre ++ [jen.Stmt [jen.Op "-"; jen.Stmt inner]] ++ post)%list /\
           P.endsInOperand pre)
  /\ (e ← Parse newExpression foldLine; Expression_String e) = Ok "T2:=xi[0]-xi[1]"
  /\ (e ← Parse newExpression foldLine; value ← index (Expr e) 1; stringHelper 1 value)
     = Ok "xi[0]-xi[1]"
  /\ (c ← P.Gen foldStatement; Ok (jen.tokens (jen.Stmt c)))
     = Ok [jen.TId "T2"; jen.TOp ":="; jen.TId "xi[0]"; jen.TOp "-"; jen.TId "xi[1]"]
  /\ (forall e d s,
         scheduleTree e = true -> wellFormed e = true -> 1 <= d \/ Op e <> "+" ->
         stringHelper d e = Ok s -> plusMinus s = false).
Proof.
  split; [exact stringHelper_fold|].
  split; [intros d inner Hd Hop; apply stringHelper_wrapped; [assumption | lia]|].
  split; [|split; [reflexivity | split; [reflexivity | split; [reflexivity|]]]].
  - intros first l1 x l2 c H.
    apply Gen_minus_operand in H as (pre & items & post & Hpre & Hitems & Hpost & ->);
      [|reflexivity].
    rewrite Gen_unary in Hitems. inv_bind Hitems as inner Hinner. injection Hitems as <-.
    exists pre, inner, post. repeat split; try assumption.
    inv_bind Hpre as lt Hlt.
    apply (subLoop_endsInOperand "+" l1 lt pre);
      [|exact (Gen_endsInOperand first lt Hlt) | assumption].
    apply Forall_forall. intros e _. apply Gen_endsInOperand.
  - exact stringHelper_plain.
Qed.

Lemma C3_unary_minus_folding_witness :
  (exists r0 pre r post,
      stringHelper 2 (leaf "a") = Ok r0 /\
      operandsLoop (stringHelper 2) "+" 1 [leaf "b"] = Ok pre /\
      stringHelper 2 (node "+" [leaf "c"; leaf "d"]) = Ok r /\
      operandsLoop (stringHelper 2) "+" 1 [leaf "e"] = Ok post /\
      "a+b-(c+d)+e" = r0 ++ pre ++ "-" ++ r ++ post)
  /\ (1 <= 1 /\ Op (node "+" [leaf "c"; leaf "d"]) <> ""
      /\ stringHelper 2 (node "+" [leaf "c"; leaf "d"]) = Ok "(c+d)")
  /\ (exists pre inner post,
        (lt ← P.Gen (P.ident "a"); P.subLoop P.Gen "+" lt [P.ident "b"]) = Ok pre
        /\ P.Gen (P.ident "c") = Ok inner
        /\ P.subLoop P.Gen "+" [] [P.ident "d"] = Ok post
        /\ [jen.Id "a"; jen.Stmt [jen.Op "+"]; jen.Stmt [jen.Id "b"];
            jen.Stmt [jen.Op "-"; jen.Stmt [jen.Id "c"]];
            jen.Stmt [jen.Op "+"]; jen.Stmt [jen.Id "d"]]
           = (pre ++ [jen.Stmt [jen.Op "-"; jen.Stmt inner]] ++ post)%list
        /\ P.endsInOperand pre)
  /\ plusMinus "T1-xi[1]+(T2*(-T3))" = false.
Proof.
  destruct C3_unary_minus_folding as (Hfold & Hwrap & Hparticiple & _ & _ & _ & Hplain).
  split; [|split; [split; [lia | split; [discriminate|]] | split]].
  - exact (Hfold 1 "" 3 (leaf "a") [leaf "b"] "" 0
             (node "+" [leaf "c"; leaf "d"]) [leaf "e"] "a+b-(c+d)+e" eq_refl).
  - rewrite (Hwrap 1 (node "+" [leaf "c"; leaf "d"])); [reflexivity | lia | discriminate].
  - exact (Hparticiple (P.ident "a") [P.ident "b"] (P.ident "c") [P.ident "d"] _ eq_refl).
  - apply (Hplain (node "+" [leaf "T1"; node "-" [leaf "xi[1]"];
                             node "*" [leaf "T2"; node "-" [leaf "T3"]]]) 1);
      [reflexivity | reflexivity | left; lia | reflexivity].
Defined.

(** C8, as stated, fails for unbalanced parentheses and for symbols
    outside the grammar: the scanner has no error path. A line that lacks
    its closing parentheses parses to the tree of the balanced line and
    the same source text is produced; a line with a "/" parses, the symbol
    ending up in a literal. *)
Lemma C8_counterexample :
  Parse newExpression "(:= T1 (+ xi[0] xi[1])" = Parse newExpression "(:= T1 (+ xi[0] xi[1]))"
  /\ Parse newExpression "(:= T1 (+ xi[0] xi[1])"
     = Ok (mkExpression "=" "" 1
             [leaf "T1"; mkExpression "+" "" 1 [leaf "xi[0]"; leaf "xi[1]"]])
  /\ main ["(:= T1 (+ xi[0] xi[1])"]
     = Ok ("package dft" ++ newline ++ "const N = 2" ++ newline ++ newline
           ++ "const (" ++ newline ++ "I = 1i" ++ newline ++ ")" ++ newline
           ++ "func DFT(ri, ii, ro, io []float64) {" ++ newline
           ++ "T1:=xi[0]+xi[1]" ++ newline ++ "}")
  /\ (e ← Parse newExpression "(:= T1 (+ xi[0]/2 xi[1]))"; Expression_String e)
     = Ok "T1:=xi[0]/2+xi[1]".
Proof. repeat split; reflexivity. Qed.

(** C8, amended. In genfft.go every line of at least two characters
    parses to a tree, whatever its parentheses and symbols; a shorter line
    panics on the slice that skips the opener. Closing parentheses that
    are missing or too many at the end of a line are not noticed: the
    line parses as it does without them or with more of them. A run of
    characters other than the parentheses, the colon, the four operator
    characters and the space is appended to the literal of the operand
    under the cursor, whatever the characters are and wherever they
    stand. The size computation reads the literal of a node and, only
    when that literal does not end in "]", goes on to the operands; a
    literal it reaches that ends in "]" and has no unsigned integer from
    position 3 to the bracket makes it panic, and then the run panics
    before the source text is complete, so nothing is written. *)
Theorem C8_grammar_errors :
  (forall line, 2 <= String.length line -> exists expr, Parse newExpression line = Ok expr)
  /\ (forall line, String.length line < 2 -> Parse newExpression line = Panic SliceBounds)
  /\ (forall expr, hasBadIndex expr = true -> exists p, transformLength expr = Panic p)
  /\ (forall lines expressions constants,
         scan lines = Ok (expressions, constants) ->
         Exists (fun e => hasBadIndex e = true) expressions ->
         exists p, main lines = Panic p)
  /\ (forall line n,
         2 <= String.length line ->
         Parse newExpression (line ++ closings n) = Parse newExpression line)
  /\ (forall text rest idx expr operand,
         allChars (fun c => negb (isDelimiter c)) text = true ->
         Expr expr !! OpIdx expr = Some operand ->
         parseLoop (text ++ rest) idx expr =
         parseLoop rest (idx + String.length text)
           (setOperand expr
              (mkExpression (Op operand) (Lit operand ++ text) (OpIdx operand) (Expr operand)))).
Proof.
  split; [exact Parse_total|].
  split; [|split; [exact transformLength_bad
                  | split; [exact main_bad | split; [|exact parseLoop_literal]]]].
  - intros line Hlen. unfold Parse.
    destruct (2 <=? String.length line)%nat eqn:H; [|reflexivity].
    apply Nat.leb_le in H. lia.
  - intros line n Hlen. now apply Parse_closings_any.
Qed.

Lemma C8_grammar_errors_witness :
  (2 <= String.length "(:= T1 (+ xi[0" /\ exists expr, Parse newExpression "(:= T1 (+ xi[0" = Ok expr)
  /\ (String.length "(" < 2 /\ Parse newExpression "(" = Panic SliceBounds)
  /\ (hasBadIndex (node "=" [leaf "T1"; leaf "xi[k]"]) = true
      /\ exists p, transformLength (node "=" [leaf "T1"; leaf "xi[k]"]) = Panic p)
  /\ (scan ["(:= T1 xi[k])"] = Ok ([mkExpression "=" "" 1 [leaf "T1"; leaf "xi[k]"]], [])
      /\ exists p, main ["(:= T1 xi[k])"] = Panic p)
  /\ (2 <= String.length "(:= T1 (+ xi[0] xi[1"
      /\ Parse newExpression ("(:= T1 (+ xi[0] xi[1" ++ closings 2)
         = Parse newExpression "(:= T1 (+ xi[0] xi[1")
  /\ (allChars (fun c => negb (isDelimiter c)) "a/b%2" = true
      /\ Expr (appendOperand newExpression) !! OpIdx (appendOperand newExpression)
         = Some newExpression
      /\ parseLoop ("a/b%2" ++ ")") 0 (appendOperand newExpression)
         = parseLoop ")" (0 + String.length "a/b%2")
             (setOperand (appendOperand newExpression)
                (mkExpression (Op newExpression) (Lit newExpression ++ "a/b%2")
                   (OpIdx newExpression) (Expr newExpression)))).
Proof.
  destruct C8_grammar_errors as (Htotal & Hshort & Hbad & Hmain & Hclose & Hliteral).
  split; [split; [simpl; lia|] | split; [split; [simpl; lia|]
         | split; [split; [reflexivity|] | split; [split; [reflexivity|]
         | split; [split; [simpl; lia|] | split; [reflexivity | split; [reflexivity|]]]]]]].
  - apply Htotal. simpl. lia.
  - apply Hshort. simpl. lia.
  - apply Hbad. reflexivity.
  - apply (Hmain ["(:= T1 xi[k])"] [mkExpression "=" "" 1 [leaf "T1"; leaf "xi[k]"]] []);
      [reflexivity|]. constructor. reflexivity.
  - apply Hclose. simpl. lia.
  - apply (Hliteral "a/b%2" ")" 0 (appendOperand newExpression) newExpression); reflexivity.
Defined.
